(** * Aho-Corasick automaton: a shallow embedding of [aho_corasick.cc]

    The C++ program keeps its trie nodes on the heap and links them with raw
    pointers.  The embedding keeps the nodes in an arena ([list TrieNode]); a
    pointer is [Some a] for the address [a] of a node of the arena and [None]
    for [nullptr].  [new TrieNode()] appends a node to the arena.  Every
    method is a function in the [outcome] monad: [Ret] for normal return,
    [Fault] for a dereference of [nullptr] (or of an address outside the
    arena), [OutOfFuel] when a [while] loop is cut off by its fuel. *)

From Stdlib Require Import ZArith Ascii String Lia.
From stdpp Require Import base option strings numbers sorting list.

Open Scope Z_scope.
Open Scope nat_scope.

(** ** Machine integers *)

Definition int_max : Z := 2147483647.

(** Conversion of a value to [int] (32 bits, two's complement). *)
Definition to_int (z : Z) : Z := ((z + 2147483648) mod 4294967296 - 2147483648)%Z.

(** [int x = v.size()]. *)
Definition int_of_size (n : nat) : Z := to_int (Z.of_nat n).

(** ** Outcomes *)

Inductive outcome (A : Type) : Type :=
  | Ret (a : A)
  | Fault
  | OutOfFuel.
Arguments Ret {A} a.
Arguments Fault {A}.
Arguments OutOfFuel {A}.

#[global] Instance outcome_ret : MRet outcome := λ A a, Ret a.
#[global] Instance outcome_bind : MBind outcome := λ A B f m,
  match m with
  | Ret a => f a
  | Fault => Fault
  | OutOfFuel => OutOfFuel
  end.

(** ** Characters, strings and [std::map<char, TrieNode*>] *)

Abbreviation str := (list ascii).

(** The value of a [char] (signed, as on the x86-64 ABI); [std::map] orders
    its keys by it. *)
Definition char_code (c : ascii) : Z :=
  let n := Z.of_N (N_of_ascii c) in
  if (n <? 128)%Z then n else (n - 256)%Z.

Definition char_lt (a b : ascii) : bool := (char_code a <? char_code b)%Z.

(** A map is the list of its entries in iteration order. *)
Abbreviation cmap := (list (ascii * nat)).

(** [m.find(c)]: [None] stands for [m.end()]. *)
Fixpoint map_find (c : ascii) (m : cmap) : option nat :=
  match m with
  | [] => None
  | (k, v) :: m' => if decide (k = c) then Some v else map_find c m'
  end.

(** [m[c] = v]. *)
Fixpoint map_set (c : ascii) (v : nat) (m : cmap) : cmap :=
  match m with
  | [] => [(c, v)]
  | (k, x) :: m' =>
      if decide (k = c) then (k, v) :: m'
      else if char_lt c k then (c, v) :: (k, x) :: m'
      else (k, x) :: map_set c v m'
  end.

(** ** Trie nodes and the arena *)

Abbreviation ptr := (option nat).

Record TrieNode : Type := mkTrieNode {
  children : cmap;
  failureLink : ptr;
  outputLink : ptr;
  patternIndices : list Z
}.

(** [TrieNode() : failureLink(nullptr), outputLink(nullptr) {}] *)
Definition TrieNode_new : TrieNode :=
  {| children := []; failureLink := None; outputLink := None; patternIndices := [] |}.

Definition set_children (m : cmap) (n : TrieNode) : TrieNode :=
  {| children := m; failureLink := failureLink n;
     outputLink := outputLink n; patternIndices := patternIndices n |}.
Definition set_failureLink (p : ptr) (n : TrieNode) : TrieNode :=
  {| children := children n; failureLink := p;
     outputLink := outputLink n; patternIndices := patternIndices n |}.
Definition set_outputLink (p : ptr) (n : TrieNode) : TrieNode :=
  {| children := children n; failureLink := failureLink n;
     outputLink := p; patternIndices := patternIndices n |}.
Definition push_patternIndex (i : Z) (n : TrieNode) : TrieNode :=
  {| children := children n; failureLink := failureLink n;
     outputLink := outputLink n; patternIndices := patternIndices n ++ [i] |}.

Abbreviation arena := (list TrieNode).

(** [*p] *)
Definition deref (h : arena) (p : ptr) : outcome TrieNode :=
  match p with
  | None => Fault
  | Some a => match h !! a with Some n => Ret n | None => Fault end
  end.

Definition load (h : arena) (a : nat) : outcome TrieNode := deref h (Some a).

Record AhoCorasick : Type := mkAhoCorasick {
  heap : arena;
  root : nat;
  patterns : list str
}.

(** ** The methods *)

(** [AhoCorasick()]: the root is the first node allocated. *)
Definition AhoCorasick_new : AhoCorasick :=
  {| heap := [set_failureLink (Some 0) TrieNode_new]; root := 0; patterns := [] |}.

(** The [for (char ch : pattern)] loop of [addPattern]. *)
Fixpoint add_walk (h : arena) (currentNode : nat) (pattern : str) : outcome (arena * nat) :=
  match pattern with
  | [] => Ret (h, currentNode)
  | ch :: rest =>
      node ← load h currentNode;
      match map_find ch (children node) with
      | Some next => add_walk h next rest
      | None =>
          let fresh := length h in
          let h1 := h ++ [TrieNode_new] in
          let h2 := <[currentNode := set_children (map_set ch fresh (children node)) node]> h1 in
          add_walk h2 fresh rest
      end
  end.

(** [void addPattern(const string& pattern)], lines 68-80. *)
Definition addPattern (pattern : str) (ac : AhoCorasick) : outcome (unit * AhoCorasick) :=
  let patternIndex := int_of_size (length (patterns ac)) in
  let pats := patterns ac ++ [pattern] in
  '(h, last) ← add_walk (heap ac) (root ac) pattern;
  node ← load h last;
  Ret (tt, {| heap := <[last := push_patternIndex patternIndex node]> h;
              root := root ac; patterns := pats |}).

(** The loops of lines 112-114 and 158-160:
    [while (n != root && n->children.find(c) == n->children.end()) n = n->failureLink;]
    One unit of fuel per execution of the body. *)
Fixpoint follow_failure (fuel : nat) (h : arena) (r : nat) (n : ptr) (c : ascii) : outcome nat :=
  match n with
  | None => Fault
  | Some a =>
      if decide (a = r) then Ret a
      else
        node ← load h a;
        match map_find c (children node) with
        | Some _ => Ret a
        | None =>
            match fuel with
            | 0 => OutOfFuel
            | S fuel' => follow_failure fuel' h r (failureLink node) c
            end
        end
  end.

(** The first loop of [buildFailureLinks], over the children of the root. *)
Fixpoint init_children (r : nat) (kids : cmap) (h : arena) (q : list nat) : outcome (arena * list nat) :=
  match kids with
  | [] => Ret (h, q)
  | (_, childNode) :: kids' =>
      n1 ← load h childNode;
      let h1 := <[childNode := set_failureLink (Some r) n1]> h in
      n2 ← load h1 childNode;
      let h2 := <[childNode := set_outputLink None n2]> h1 in
      init_children r kids' h2 (q ++ [childNode])
  end.

(** The body of the inner [for] loop of [buildFailureLinks]. *)
Definition link_child (fuel : nat) (r currentNode : nat) (transitionChar : ascii) (targetNode : nat)
    (h : arena) : outcome arena :=
  cur ← load h currentNode;
  tempFailureNode ← follow_failure fuel h r (failureLink cur) transitionChar;
  tmp ← load h tempFailureNode;
  t1 ← load h targetNode;
  let h1 :=
    match map_find transitionChar (children tmp) with
    | Some x => <[targetNode := set_failureLink (Some x) t1]> h
    | None => <[targetNode := set_failureLink (Some r) t1]> h
    end in
  t2 ← load h1 targetNode;
  failNode ← deref h1 (failureLink t2);
  t3 ← load h1 targetNode;
  match patternIndices failNode with
  | _ :: _ => Ret (<[targetNode := set_outputLink (failureLink t2) t3]> h1)
  | [] => Ret (<[targetNode := set_outputLink (outputLink failNode) t3]> h1)
  end.

Fixpoint link_children (fuel : nat) (r currentNode : nat) (kids : cmap) (h : arena) (q : list nat)
    : outcome (arena * list nat) :=
  match kids with
  | [] => Ret (h, q)
  | (transitionChar, targetNode) :: kids' =>
      h' ← link_child fuel r currentNode transitionChar targetNode h;
      link_children fuel r currentNode kids' h' (q ++ [targetNode])
  end.

(** [while (!q.empty())]: [n] bounds the iterations of this loop, [fuel] those
    of each failure walk inside it. *)
Fixpoint bfs (n fuel : nat) (r : nat) (h : arena) (q : list nat) : outcome arena :=
  match q with
  | [] => Ret h
  | currentNode :: q' =>
      match n with
      | 0 => OutOfFuel
      | S n' =>
          cur ← load h currentNode;
          '(h', q'') ← link_children fuel r currentNode (children cur) h q';
          bfs n' fuel r h' q''
      end
  end.

(** [void buildFailureLinks()], lines 93-131. *)
Definition buildFailureLinks (fuel : nat) (ac : AhoCorasick) : outcome (unit * AhoCorasick) :=
  rt ← load (heap ac) (root ac);
  '(h, q) ← init_children (root ac) (children rt) (heap ac) [];
  h' ← bfs fuel fuel (root ac) h q;
  Ret (tt, {| heap := h'; root := root ac; patterns := patterns ac |}).

(** The output walk of [search], lines 166-174. *)
Fixpoint collect_outputs (fuel : nat) (h : arena) (outputNode : ptr) (i : Z)
    (matches : list (Z * Z)) : outcome (list (Z * Z)) :=
  match outputNode with
  | None => Ret matches
  | Some a =>
      match fuel with
      | 0 => OutOfFuel
      | S fuel' =>
          node ← load h a;
          collect_outputs fuel' h (outputLink node) i
            (matches ++ ((λ patternIndex, (patternIndex, i)) <$> patternIndices node))
      end
  end.

(** The body of the [for] loop of [search]: the new current node and the
    matches. *)
Definition search_step (fuel : nat) (h : arena) (r : nat) (currentNode : nat) (currentChar : ascii)
    (i : Z) (matches : list (Z * Z)) : outcome (nat * list (Z * Z)) :=
  n ← follow_failure fuel h r (Some currentNode) currentChar;
  node ← load h n;
  let next := match map_find currentChar (children node) with Some x => x | None => n end in
  ms ← collect_outputs fuel h (Some next) i matches;
  Ret (next, ms).

(** [for (int i = 0; i < text.length(); ++i)], lines 155-176; [text] holds
    the symbols from position [i] on.  The counter is an [int]: [++i] is
    taken modulo 2^32 ([to_int]).  On a text of at most [int_max] symbols it
    does not overflow; on a longer one C++ leaves the overflow at [int_max]
    undefined, and the wrap-around taken here is what the program compiled
    without optimisation does.  In [i < text.length()] the counter is
    converted to [size_t]: a negative [i] becomes a value above every length
    of a string, and the loop ends. *)
Fixpoint search_loop (fuel : nat) (h : arena) (r : nat) (text : str) (i : Z) (currentNode : nat)
    (matches : list (Z * Z)) : outcome (list (Z * Z)) :=
  match text with
  | [] => Ret matches
  | currentChar :: text' =>
      if (i <? 0)%Z then Ret matches
      else
        '(next, ms) ← search_step fuel h r currentNode currentChar i matches;
        search_loop fuel h r text' (to_int (i + 1)) next ms
  end.

(** [vector<pair<int, int>> search(const string& text)], lines 151-177. *)
Definition search (fuel : nat) (ac : AhoCorasick) (text : str) : outcome (list (Z * Z)) :=
  search_loop fuel (heap ac) (root ac) text 0%Z (root ac) [].

(** [getPattern], lines 191-197: [index] is an [int], [patterns.size()] a [size_t]; the
    comparison is only reached for [index >= 0], where the conversion of
    [index] to [size_t] keeps its value. *)
Definition getPattern (ac : AhoCorasick) (index : Z) : str :=
  if ((0 <=? index)%Z && (index <? Z.of_nat (length (patterns ac)))%Z)%bool
  then nth (Z.to_nat index) (patterns ac) []
  else [].

(** ** The callers: [runTest], lines 206-212 *)

Fixpoint addPatterns (ps : list str) (ac : AhoCorasick) : outcome AhoCorasick :=
  match ps with
  | [] => Ret ac
  | p :: ps' => '(_, ac') ← addPattern p ac; addPatterns ps' ac'
  end.

Definition automaton (fuel : nat) (ps : list str) : outcome AhoCorasick :=
  ac ← addPatterns ps AhoCorasick_new;
  '(_, ac') ← buildFailureLinks fuel ac;
  Ret ac'.

Definition run (fuel : nat) (ps : list str) (text : str) : outcome (list (Z * Z)) :=
  ac ← automaton fuel ps;
  search fuel ac text.

(** ** The destructor *)

(** [for (auto const& [key, val] : node->children) f(val);] over the state
    [freed], the addresses already deleted. *)
Fixpoint for_children (f : ptr → list nat → outcome (list nat)) (kids : cmap)
    (freed : list nat) : outcome (list nat) :=
  match kids with
  | [] => Ret freed
  | (_, val) :: kids' => freed' ← f (Some val) freed; for_children f kids' freed'
  end.

(** [void deleteTrie(TrieNode* node)], lines 39-45.  [freed] lists the
    addresses deleted so far, in order; reading a deleted node or deleting
    it again is a fault.  One unit of fuel per nested call. *)
Fixpoint deleteTrie (fuel : nat) (h : arena) (node : ptr) (freed : list nat)
    : outcome (list nat) :=
  match node with
  | None => Ret freed
  | Some a =>
      match fuel with
      | 0 => OutOfFuel
      | S fuel' =>
          if decide (a ∈ freed) then Fault
          else
            n ← load h a;
            freed' ← for_children (deleteTrie fuel' h) (children n) freed;
            if decide (a ∈ freed') then Fault else Ret (freed' ++ [a])
      end
  end.

(** [~AhoCorasick() { deleteTrie(root); }], lines 53-55: the addresses
    deleted, in order. *)
Definition AhoCorasick_delete (fuel : nat) (ac : AhoCorasick) : outcome (list nat) :=
  deleteTrie fuel (heap ac) (Some (root ac)) [].

(** ** [runTest] *)

(** The comparator [sort_key] of [runTest], lines 214-219. *)
Definition sort_key (a b : Z * Z) : bool :=
  if decide (a.2 ≠ b.2) then (a.2 <? b.2)%Z else (a.1 <? b.1)%Z.

(** [std::sort(first, last, comp)].  The library leaves the algorithm open;
    [sort_key] is a strict total order on the pairs, for which every sorting
    algorithm returns the same sequence.  Here: insertion. *)
Fixpoint sort_insert (comp : Z * Z → Z * Z → bool) (x : Z * Z) (l : list (Z * Z))
    : list (Z * Z) :=
  match l with
  | [] => [x]
  | y :: l' => if comp x y then x :: y :: l' else y :: sort_insert comp x l'
  end.

Definition std_sort (comp : Z * Z → Z * Z → bool) (l : list (Z * Z)) : list (Z * Z) :=
  foldr (sort_insert comp) [] l.

(** [runTest], lines 200-226, without its printing: the value of the
    condition it asserts. *)
Definition runTest (fuel : nat) (patterns : list str) (text : str)
    (expected_matches : list (Z * Z)) : outcome bool :=
  ac ← addPatterns patterns AhoCorasick_new;
  '(_, ac) ← buildFailureLinks fuel ac;
  actual_matches ← search fuel ac text;
  let actual_matches := std_sort sort_key actual_matches in
  let expected_matches := std_sort sort_key expected_matches in
  Ret (bool_decide (actual_matches = expected_matches)).

(** ** [runAhoCorasickSample] *)

(** Conversion of a value to [size_t] (64 bits). *)
Definition to_size (z : Z) : Z := (z mod 18446744073709551616)%Z.

(** [int startPosition = endPosition - patternStr.length() + 1;], line 333 of
    [runAhoCorasickSample]: the operands are converted to [size_t], the
    result back to [int]. *)
Definition startPosition (endPosition : Z) (patternStr : str) : Z :=
  to_int (to_size (to_size (to_size endPosition - Z.of_nat (length patternStr)) + 1)).

(** The loop over the matches in [runAhoCorasickSample], lines 329-337: the
    pattern, its index and the span printed for each match. *)
Definition sample_spans (ac : AhoCorasick) (matches : list (Z * Z))
    : list (str * Z * (Z * Z)) :=
  (λ m, let patternIndex := m.1 in
        let endPosition := m.2 in
        let patternStr := getPattern ac patternIndex in
        (patternStr, patternIndex, (startPosition endPosition patternStr, endPosition)))
  <$> matches.

(** ** Counting the iterations of the loops of [search]

    The same loops, returning how often their bodies run. *)

(** The failure walk of lines 158-160: the node it stops at and the number
    of executions of [currentNode = currentNode->failureLink]. *)
Fixpoint follow_failure_count (fuel : nat) (h : arena) (r : nat) (n : ptr) (c : ascii)
    : outcome (nat * nat) :=
  match n with
  | None => Fault
  | Some a =>
      if decide (a = r) then Ret (a, 0)
      else
        node ← load h a;
        match map_find c (children node) with
        | Some _ => Ret (a, 0)
        | None =>
            match fuel with
            | 0 => OutOfFuel
            | S fuel' =>
                '(x, k) ← follow_failure_count fuel' h r (failureLink node) c;
                Ret (x, S k)
            end
        end
  end.

(** The output walk of lines 166-174: the number of executions of the body
    of [while (outputNode != nullptr)]. *)
Fixpoint collect_outputs_count (fuel : nat) (h : arena) (outputNode : ptr) : outcome nat :=
  match outputNode with
  | None => Ret 0
  | Some a =>
      match fuel with
      | 0 => OutOfFuel
      | S fuel' =>
          node ← load h a;
          k ← collect_outputs_count fuel' h (outputLink node);
          Ret (S k)
      end
  end.

(** The [for] loop of [search], with its counter as in [search_loop]: the
    failure steps and the output steps of the whole scan. *)
Fixpoint search_loop_count (fuel : nat) (h : arena) (r : nat) (text : str) (i : Z)
    (currentNode : nat) : outcome (nat * nat) :=
  match text with
  | [] => Ret (0, 0)
  | currentChar :: text' =>
      if (i <? 0)%Z then Ret (0, 0)
      else
        '(n, k) ← follow_failure_count fuel h r (Some currentNode) currentChar;
        node ← load h n;
        let next :=
          match map_find currentChar (children node) with Some x => x | None => n end in
        o ← collect_outputs_count fuel h (Some next);
        '(ks, os) ← search_loop_count fuel h r text' (to_int (i + 1)) next;
        Ret (k + ks, o + os)
  end.

Definition search_count (fuel : nat) (ac : AhoCorasick) (text : str) : outcome (nat * nat) :=
  search_loop_count fuel (heap ac) (root ac) text 0%Z (root ac).

(** * Vocabulary of the specification

    Words, tries, links and traces: what the theorems below say about the
    methods above. *)

(** ** States and their prefixes

    A state is addressed by the word spelt on the path from the root:
    [walk h p w] follows the child links of [h] from [p] along [w]. *)

(** [q] is the child of [p] on symbol [c]. *)
Definition child (h : arena) (p : nat) (c : ascii) (q : nat) : Prop :=
  ∃ node, h !! p = Some node ∧ map_find c (children node) = Some q.

Fixpoint walk (h : arena) (p : nat) (w : str) : option nat :=
  match w with
  | [] => Some p
  | c :: w' =>
      match h !! p with
      | Some node =>
          match map_find c (children node) with
          | Some q => walk h q w'
          | None => None
          end
      | None => None
      end
  end.

(** [w] is the prefix of state [p]; its length is the depth of [p]. *)
Definition label (h : arena) (p : nat) (w : str) : Prop := walk h 0 w = Some p.

Definition depth_is (h : arena) (p d : nat) : Prop := ∃ w, label h p w ∧ length w = d.

(** [w] is the prefix of some state. *)
Definition in_trie (h : arena) (w : str) : Prop := is_Some (walk h 0 w).

(** The child links form a tree rooted at address 0, every state is on it,
    and a child is allocated after its parent. *)
Record trie_wf (h : arena) : Prop := {
  wf_root : 0 < length h;
  wf_child : ∀ p c q, child h p c q → p < q < length h;
  wf_parent : ∀ p p' c c' q, child h p c q → child h p' c' q → p = p' ∧ c = c';
  wf_reach : ∀ q, q < length h → ∃ w, label h q w;
  wf_keys : ∀ p node, h !! p = Some node → NoDup (children node).*1
}.

(** ** The trie of a pattern list *)

(** The positions of [w] in the pattern list, counted from [i0]. *)
Fixpoint positions (w : str) (pats : list str) (i0 : nat) : list nat :=
  match pats with
  | [] => []
  | p :: ps => (if decide (p = w) then [i0] else []) ++ positions w ps (S i0)
  end.

(** The indices [addPattern] gave to the insertions of [w], in insertion order. *)
Definition indices_of (w : str) (pats : list str) : list Z :=
  int_of_size <$> positions w pats 0.

(** The states of [h] are the prefixes of the patterns, and each holds the
    indices of the patterns that end in it. *)
Record trie_for (pats : list str) (h : arena) : Prop := {
  tf_words : ∀ w, in_trie h w ↔ w = [] ∨ ∃ p, p ∈ pats ∧ w `prefix_of` p;
  tf_indices : ∀ w q node,
    label h q w → h !! q = Some node → patternIndices node = indices_of w pats
}.

(** [v] is a prefix of some inserted pattern. *)
Definition pattern_prefix (pats : list str) (v : str) : Prop :=
  ∃ p, p ∈ pats ∧ v `prefix_of` p.

(** The class invariant between the constructor and [buildFailureLinks]. *)
Record ac_inv (pats : list str) (ac : AhoCorasick) : Prop := {
  inv_root : root ac = 0;
  inv_patterns : patterns ac = pats;
  inv_wf : trie_wf (heap ac);
  inv_for : trie_for pats (heap ac);
  inv_rootlinks : ∃ node, heap ac !! 0 = Some node ∧
                          failureLink node = Some 0 ∧ outputLink node = None
}.

(** What one step of [add_walk] does when the child is missing. *)
Definition add_leaf (h : arena) (cur : nat) (ch : ascii) (node : TrieNode) : arena :=
  <[cur := set_children (map_set ch (length h) (children node)) node]> (h ++ [TrieNode_new]).

(** [h'] is [h] with fresh nodes appended; only child maps of [h] changed. *)
Record extends (h h' : arena) : Prop := {
  ext_length : length h ≤ length h';
  ext_old : ∀ q node, h !! q = Some node →
    ∃ node', h' !! q = Some node' ∧ failureLink node' = failureLink node ∧
             outputLink node' = outputLink node ∧ patternIndices node' = patternIndices node;
  ext_new : ∀ q node', h' !! q = Some node' → length h ≤ q →
    failureLink node' = None ∧ outputLink node' = None ∧ patternIndices node' = [];
  ext_label : ∀ q w, label h q w → label h' q w
}.

Fixpoint total_length (ps : list str) : nat :=
  match ps with
  | [] => 0
  | p :: ps' => length p + total_length ps'
  end.

(** A bound on the number of states of the trie of [ps]: fuel enough for
    every loop of [buildFailureLinks] and [search]. *)
Definition trie_bound (ps : list str) : nat := S (total_length ps).

(** ** Failure and output links *)

(** [u] is the longest suffix of [w] that is a word of the trie. *)
Definition is_ls (h : arena) (w u : str) : Prop :=
  u `suffix_of` w ∧ in_trie h u ∧
  ∀ v, v `suffix_of` w → in_trie h v → length v ≤ length u.

(** [u] is the longest proper suffix of [w] that is a word of the trie. *)
Definition is_lps (h : arena) (w u : str) : Prop :=
  u `suffix_of` w ∧ length u < length w ∧ in_trie h u ∧
  ∀ v, v `suffix_of` w → length v < length w → in_trie h v → length v ≤ length u.

(** What [buildFailureLinks] stores in [outputLink] of a state of depth two
    or more whose failure link is [f] (lines 121-126). *)
Definition out_of (f : nat) (nf : TrieNode) : ptr :=
  match patternIndices nf with
  | [] => outputLink nf
  | _ :: _ => Some f
  end.

(** The links of state [p] are the ones [buildFailureLinks] computes: the
    root keeps the links of the constructor; the failure link of another
    state leads to the state of the longest proper suffix in the trie, and
    its output link is absent at depth one and [out_of] its failure link
    deeper. *)
Definition linked (h : arena) (p : nat) : Prop :=
  ∃ n w f nf u,
    h !! p = Some n ∧ label h p w ∧ failureLink n = Some f ∧
    h !! f = Some nf ∧ label h f u ∧
    ((w = [] ∧ u = [] ∧ outputLink n = None) ∨
     (is_lps h w u ∧
      outputLink n = if decide (length w ≤ 1) then None else out_of f nf)).

(** [k] steps along [failureLink] from [p]. *)
Fixpoint fail_iter (h : arena) (k : nat) (p : nat) : option nat :=
  match k with
  | 0 => Some p
  | S k' =>
      match h !! p with
      | Some n => match failureLink n with
                  | Some f => fail_iter h k' f
                  | None => None
                  end
      | None => None
      end
  end.

(** ** The breadth-first pass *)

(** Same child links in both arenas. *)
Definition same_shape (h h' : arena) : Prop := children <$> h = children <$> h'.

(** Same child links and same [patternIndices]: only links differ. *)
Definition same_trie (h h' : arena) : Prop :=
  same_shape h h' ∧ patternIndices <$> h = patternIndices <$> h'.

(** [h'] is [h] with new links in state [t]. *)
Record relinked (h h' : arena) (t : nat) : Prop := {
  rl_other : ∀ p, p ≠ t → h' !! p = h !! p;
  rl_same : ∃ n n', h !! t = Some n ∧ h' !! t = Some n' ∧
                    children n' = children n ∧ patternIndices n' = patternIndices n
}.

(** The invariant of the breadth-first pass.  [dn] lists the states already
    taken from the queue [q]; [d] is the depth of the level being expanded;
    [ex p c t] marks the child links of the state being expanded that the
    inner loop has not reached yet. *)
Record bfs_inv (h : arena) (dn q : list nat) (d : nat)
    (ex : nat → ascii → nat → Prop) : Prop := {
  bi_wf : trie_wf h;
  bi_nodup : NoDup (dn ++ q);
  bi_pos : ∀ p, p ∈ dn ++ q → p ≠ 0 ∧ p < length h;
  bi_linked : ∀ p, p = 0 ∨ p ∈ dn ++ q → linked h p;
  bi_kids : ∀ p c t, child h p c t → t ∈ dn ++ q ↔ ((p = 0 ∨ p ∈ dn) ∧ ¬ ex p c t);
  bi_dn : ∀ p w, p ∈ dn → label h p w → length w ≤ d;
  bi_sorted : ∃ A B, q = A ++ B ∧ (∀ p, p ∈ A → depth_is h p d) ∧
                     (∀ p, p ∈ B → depth_is h p (S d));
  bi_low : ∀ p w, label h p w → length w ≤ d → p = 0 ∨ p ∈ dn ++ q
}.

(** The class invariant after [buildFailureLinks]. *)
Record built (pats : list str) (ac : AhoCorasick) : Prop := {
  b_root : root ac = 0;
  b_patterns : patterns ac = pats;
  b_wf : trie_wf (heap ac);
  b_for : trie_for pats (heap ac);
  b_linked : ∀ p, p < length (heap ac) → linked (heap ac) p
}.

(** ** Output chains and the trace of a scan *)

(** The states visited from [o] along [outputLink] until [nullptr]. *)
Inductive out_chain (h : arena) : ptr → list nat → Prop :=
  | oc_nil : out_chain h None []
  | oc_cons a n l :
      h !! a = Some n → out_chain h (outputLink n) l → out_chain h (Some a) (a :: l).

(** [l] is a list of states with at least one pattern each, whose words
    are shorter and shorter proper suffixes of [w]. *)
Inductive descending (h : arena) : str → list nat → Prop :=
  | desc_nil w : descending h w []
  | desc_cons w a na v l :
      label h a v → v `suffix_of` w → length v < length w →
      h !! a = Some na → patternIndices na ≠ [] →
      descending h v l → descending h w (a :: l).

(** The [patternIndices] of state [a]. *)
Definition pats_at (h : arena) (a : nat) : list Z :=
  match h !! a with
  | Some n => patternIndices n
  | None => []
  end.

(** The matches pushed at position [i] while walking the states [l]. *)
Definition emits (h : arena) (l : list nat) (i : Z) : list (Z * Z) :=
  l ≫= λ a, (λ patternIndex, (patternIndex, i)) <$> pats_at h a.

Arguments emits : simpl never.

(** The trace of a scan: [scanned h T text res] when scanning [text] after
    the symbols [T] pushes the matches [res]; each step pushes the matches of
    the state reached and of its output chain. *)
Inductive scanned (h : arena) : str → str → list (Z * Z) → Prop :=
  | scanned_nil T : scanned h T [] []
  | scanned_cons T c text a v n l res :
      label h a v → is_ls h (T ++ [c]) v → h !! a = Some n →
      out_chain h (outputLink n) l → descending h v l →
      scanned h (T ++ [c]) text res →
      scanned h T (c :: text) (emits h (a :: l) (Z.of_nat (length T)) ++ res).

(** [currentNode] of [search] after the symbols of [text], starting from
    [cur]: the steps of [search], the matches left aside. *)
Fixpoint current_after (fuel : nat) (h : arena) (r : nat) (text : str) (cur : nat)
    : outcome nat :=
  match text with
  | [] => Ret cur
  | currentChar :: text' =>
      '(next, _) ← search_step fuel h r cur currentChar 0%Z [];
      current_after fuel h r text' next
  end.

(** ** Subtrees, fresh links, sorted matches and shared prefixes *)

(** [q] is in the subtree of [a]. *)
Definition below (h : arena) (a q : nat) : Prop := ∃ v, walk h a v = Some q.

(** Every state other than the root still has the links of [TrieNode()]. *)
Definition unlinked (h : arena) : Prop :=
  ∀ a n, h !! a = Some n → a ≠ 0 → failureLink n = None ∧ outputLink n = None.

(** [a] is not after [b] in the order of [sort_key]. *)
Definition key_le (a b : Z * Z) : Prop := sort_key b a = false.

(** The length of the longest common prefix of [u] and [v]. *)
Fixpoint common_prefix (u v : str) : nat :=
  match u, v with
  | a :: u', b :: v' => if decide (a = b) then S (common_prefix u' v') else 0
  | _, _ => 0
  end.

(** The length of the longest prefix of [p] that is a prefix of one of
    [pats]. *)
Definition shared_prefix (p : str) (pats : list str) : nat :=
  max_list (common_prefix p <$> pats).

(** ** Occurrences *)

(** [p] occurs in [text] ending at position [j]:
    [text[j - len(p) + 1 .. j] == p]. *)
Definition occurs_at (p text : str) (j : Z) : Prop :=
  (0 ≤ j < Z.of_nat (length text))%Z ∧
  (Z.of_nat (length p) ≤ j + 1)%Z ∧
  take (length p) (drop (S (Z.to_nat j) - length p) text) = p.

#[global] Instance occurs_at_dec p text j : Decision (occurs_at p text j).
Proof. unfold occurs_at. apply _. Defined.

(** A string literal as a [std::string]. *)
Definition s (x : string) : str := list_ascii_of_string x.

(** * The scenarios of the test suite

    [testAhoCorasick] sorts the matches before comparing; here they stand in
    the order [search] returns them. *)

(** [testAhoCorasick], lines 228-306: the nine calls of [runTest]; the value
    is the conjunction of the conditions they assert. *)
Definition testAhoCorasick (fuel : nat) : outcome bool :=
  t1 ← runTest fuel [s "a"; s "b"; s "c"] (s "abc") [(0, 0); (1, 1); (2, 2)]%Z;
  t2 ← runTest fuel [s "he"; s "she"; s "his"; s "hers"] (s "ushers")
         [(0, 3); (1, 3); (3, 5)]%Z;
  t3 ← runTest fuel [s "a"; s "ab"; s "bab"; s "bc"; s "bca"; s "c"; s "caa"] (s "abccab")
         [(0, 0); (1, 1); (3, 2); (5, 2); (5, 3); (0, 4); (1, 5)]%Z;
  t4 ← runTest fuel [s "aba"] (s "ababaxaba") [(0, 2); (0, 4); (0, 8)]%Z;
  t5 ← runTest fuel [s "xyz"; s "123"] (s "abcde") [];
  t6 ← runTest fuel [s "a"; s "b"] (s "") [];
  t7 ← runTest fuel [] (s "abc") [];
  t8 ← runTest fuel [s "i"; s "is"; s "ppi"; s "sip"; s "mississippi"] (s "mississippi")
         [(0, 1); (1, 2); (0, 4); (1, 5); (0, 7); (3, 8); (0, 10); (2, 10); (4, 10)]%Z;
  t9 ← runTest fuel [s "a"; s "ba"; s "cba"] (s "dcba") [(0, 3); (1, 3); (2, 3)]%Z;
  Ret (t1 && t2 && t3 && t4 && t5 && t6 && t7 && t8 && t9).

(** [runAhoCorasickSample], lines 308-342, without its printing: the
    pattern, index and span of the lines it prints. *)
Definition runAhoCorasickSample (fuel : nat) : outcome (list (str * Z * (Z * Z))) :=
  let patterns_to_add := [s "a"; s "ab"; s "bab"; s "bc"; s "bca"; s "c"; s "caa"] in
  ac ← addPatterns patterns_to_add AhoCorasick_new;
  '(_, ac) ← buildFailureLinks fuel ac;
  let text := s "abcabcabcabcaab" in
  matches ← search fuel ac text;
  Ret (sample_spans ac matches).

Example test_simple_non_overlapping :
  run 4 [s "a"; s "b"; s "c"] (s "abc") = Ret [(0, 0); (1, 1); (2, 2)]%Z.
Proof. reflexivity. Qed.

Example test_standard_overlap :
  run 13 [s "he"; s "she"; s "his"; s "hers"] (s "ushers")
  = Ret [(1, 3); (0, 3); (3, 5)]%Z.
Proof. reflexivity. Qed.

Example test_prefix_suffix_overlap_mix :
  run 16 [s "a"; s "ab"; s "bab"; s "bc"; s "bca"; s "c"; s "caa"] (s "abccab")
  = Ret [(0, 0); (1, 1); (3, 2); (5, 2); (5, 3); (0, 4); (1, 5)]%Z.
Proof. reflexivity. Qed.

Example test_multiple_occurrences :
  run 4 [s "aba"] (s "ababaxaba") = Ret [(0, 2); (0, 4); (0, 8)]%Z.
Proof. reflexivity. Qed.

Example test_no_matches :
  run 7 [s "xyz"; s "123"] (s "abcde") = Ret [].
Proof. reflexivity. Qed.

Example test_empty_text :
  run 3 [s "a"; s "b"] (s "") = Ret [].
Proof. reflexivity. Qed.

Example test_empty_patterns :
  run 1 [] (s "abc") = Ret [].
Proof. reflexivity. Qed.

Example test_mississippi :
  run 21 [s "i"; s "is"; s "ppi"; s "sip"; s "mississippi"] (s "mississippi")
  = Ret [(0, 1); (1, 2); (0, 4); (1, 5); (0, 7); (3, 8); (4, 10); (2, 10); (0, 10)]%Z.
Proof. reflexivity. Qed.

Example test_patterns_ending_together :
  run 7 [s "a"; s "ba"; s "cba"] (s "dcba") = Ret [(2, 3); (1, 3); (0, 3)]%Z.
Proof. reflexivity. Qed.

(** [search] before [buildFailureLinks]: the failure link of a state other
    than the root is still [nullptr], and following it is a fault. *)
Example search_before_build :
  (ac ← addPatterns [s "ab"] AhoCorasick_new; search 3 ac (s "aa")) = Fault.
Proof. reflexivity. Qed.

(** A loop cut off by its fuel. *)
Example build_out_of_fuel :
  automaton 1 [s "ab"] = OutOfFuel.
Proof. reflexivity. Qed.

(** The counter of [search] at its limit: after the pass at [int_max] it
    wraps around to a negative value and the loop ends, whatever is left of
    the text. *)
Example search_loop_at_int_max :
  (ac ← automaton 1 [[]];
   search_loop 1 (heap ac) (root ac) (s "aa") 2147483647 (root ac) [])
  = Ret [(0, 2147483647)]%Z.
Proof. reflexivity. Qed.

(** Every assertion of [testAhoCorasick] holds. *)
Example testAhoCorasick_passes : testAhoCorasick 21 = Ret true.
Proof. vm_compute. reflexivity. Qed.

(** The first and the last lines of the sample. *)
Example runAhoCorasickSample_lines :
  ∃ lines, runAhoCorasickSample 16 = Ret lines ∧ length lines = 24 ∧
           take 3 lines = [(s "a", 0, (0, 0)); (s "ab", 1, (0, 1)); (s "bc", 3, (1, 2))]%Z ∧
           last lines = Some (s "ab", 1, (13, 14))%Z.
Proof. eexists. split; [vm_compute; reflexivity|]. split_and!; reflexivity. Qed.

(** A node reached through two child links would be deleted twice. *)
Example delete_shared_node :
  deleteTrie 3 [set_children [("a"%char, 1); ("b"%char, 1)] TrieNode_new; TrieNode_new]
    (Some 0) [] = Fault.
Proof. reflexivity. Qed.

(** A further pattern can take away a match of the empty pattern. *)
Example more_patterns_drop_empty_match :
  run 1 [[]] (s "a") = Ret [(0, 0)]%Z ∧ run 2 [[]; s "a"] (s "a") = Ret [(1, 0)]%Z.
Proof. split; reflexivity. Qed.


(** * Maps and walks *)

Section map_facts.
Implicit Types (m : cmap) (c k : ascii) (v : nat).

Lemma map_find_set_eq c v m : map_find c (map_set c v m) = Some v.
Proof.
  induction m as [|[k x] m IH]; simpl.
  - by rewrite decide_True.
  - destruct (decide (k = c)) as [->|Hk]; simpl.
    + by rewrite decide_True.
    + destruct (char_lt c k); simpl.
      * by rewrite decide_True.
      * by rewrite decide_False.
Qed.

Lemma map_find_set_ne c c' v m : c ≠ c' → map_find c' (map_set c v m) = map_find c' m.
Proof.
  intros Hne. induction m as [|[k x] m IH]; simpl.
  - by rewrite decide_False.
  - destruct (decide (k = c)) as [->|Hk]; simpl.
    + by rewrite !decide_False.
    + destruct (char_lt c k); simpl.
      * by rewrite (decide_False (P := c = c')).
      * destruct (decide (k = c')); done.
Qed.

Lemma map_find_Some c v m : map_find c m = Some v → (c, v) ∈ m.
Proof.
  induction m as [|[k x] m IH]; simpl; [done|].
  destruct (decide (k = c)) as [->|Hk].
  - intros [= ->]. apply elem_of_cons; by left.
  - intros H. apply elem_of_cons; right; auto.
Qed.

Lemma map_find_None c m : map_find c m = None → c ∉ m.*1.
Proof.
  induction m as [|[k x] m IH]; simpl.
  - intros _. apply not_elem_of_nil.
  - destruct (decide (k = c)) as [->|Hk]; [done|].
    intros H [?|?]%elem_of_cons; [congruence|]. by apply IH.
Qed.

Lemma map_find_elem c v m : NoDup m.*1 → (c, v) ∈ m → map_find c m = Some v.
Proof.
  induction m as [|[k x] m IH]; simpl.
  - intros _ H. by apply not_elem_of_nil in H.
  - intros [Hk Hnd]%NoDup_cons [Heq|Hin]%elem_of_cons.
    + injection Heq as -> ->. by rewrite decide_True.
    + destruct (decide (k = c)) as [->|?]; [|by apply IH].
      exfalso. apply Hk. apply list_elem_of_fmap. by exists (c, v).
Qed.

Lemma map_set_elem c v m k x :
  (k, x) ∈ map_set c v m → (k, x) = (c, v) ∨ (k, x) ∈ m.
Proof.
  induction m as [|[k' x'] m IH]; simpl.
  - intros ?%list_elem_of_singleton. by left.
  - destruct (decide (k' = c)) as [->|Hk].
    + intros [?|?]%elem_of_cons; [by left|right; apply elem_of_cons; by right].
    + destruct (char_lt c k').
      * intros [?|?]%elem_of_cons; [by left|by right].
      * intros [?|?]%elem_of_cons; [right; apply elem_of_cons; by left|].
        destruct IH as [?|?]; [done|by left|right; apply elem_of_cons; by right].
Qed.

Lemma map_set_keys c v m :
  map_find c m = None → NoDup m.*1 → NoDup (map_set c v m).*1.
Proof.
  induction m as [|[k x] m IH]; simpl.
  - intros _ _. apply NoDup_singleton.
  - destruct (decide (k = c)) as [->|Hk]; [done|].
    intros Hf Hnd. destruct (char_lt c k); simpl.
    + apply NoDup_cons; split; [|done].
      intros [?|Hin]%elem_of_cons; [congruence|].
      by apply (map_find_None c m).
    + apply NoDup_cons in Hnd as [Hk' Hnd]. apply NoDup_cons; split; [|by apply IH].
      intros Hin. apply list_elem_of_fmap in Hin as [[k' x'] [Heq Hin]].
      simpl in Heq. subst k'.
      apply map_set_elem in Hin as [[= -> ->]|Hin]; [done|].
      apply Hk'. apply list_elem_of_fmap. by exists (k, x').
Qed.
End map_facts.

Section walk_facts.
Implicit Types (h : arena) (p q : nat) (w u v : str) (c : ascii).

Lemma walk_cons h p c w :
  walk h p (c :: w) = match h !! p with
                      | Some node => match map_find c (children node) with
                                     | Some q => walk h q w
                                     | None => None
                                     end
                      | None => None
                      end.
Proof. done. Qed.

Lemma walk_cons_Some h p c w q :
  walk h p (c :: w) = Some q ↔ ∃ m, child h p c m ∧ walk h m w = Some q.
Proof.
  rewrite walk_cons. unfold child. split.
  - destruct (h !! p) as [node|]; [|done].
    destruct (map_find c (children node)) as [m|] eqn:E; [|done]. eauto.
  - intros (m & (node & -> & ->) & Hw). done.
Qed.

Lemma walk_app h p u v :
  walk h p (u ++ v) = walk h p u ≫= λ q, walk h q v.
Proof.
  revert p. induction u as [|c u IH]; intros p; [done|].
  rewrite <- app_comm_cons, !walk_cons.
  destruct (h !! p) as [node|]; [|done].
  destruct (map_find c (children node)); [apply IH|done].
Qed.

Lemma walk_snoc h p w c q :
  walk h p (w ++ [c]) = Some q ↔ ∃ m, walk h p w = Some m ∧ child h m c q.
Proof.
  rewrite walk_app. split.
  - destruct (walk h p w) as [m|]; [|done]. intros H.
    assert (walk h m [c] = Some q) as H' by exact H.
    apply walk_cons_Some in H' as (m' & Hc & [= ->]). eauto.
  - intros (m & -> & Hc).
    change (walk h m [c] = Some q). apply walk_cons_Some. eauto.
Qed.

Lemma child_det h p c q q' : child h p c q → child h p c q' → q = q'.
Proof. intros (n & H1 & H2) (n' & H1' & H2'). congruence. Qed.

Lemma in_trie_app_l h u v : in_trie h (u ++ v) → in_trie h u.
Proof.
  unfold in_trie. rewrite walk_app.
  destruct (walk h 0 u); [eauto|]. by intros [? ?].
Qed.

Lemma in_trie_prefix h u w : u `prefix_of` w → in_trie h w → in_trie h u.
Proof. intros [k ->]. apply in_trie_app_l. Qed.

Lemma label_nil h : label h 0 [].
Proof. done. Qed.

Lemma label_fun h p q w : label h p w → label h q w → p = q.
Proof. unfold label. congruence. Qed.

Lemma label_snoc h q w c :
  label h q (w ++ [c]) ↔ ∃ m, label h m w ∧ child h m c q.
Proof. apply walk_snoc. Qed.
End walk_facts.

(** ** Well-formed tries *)

Section wf_facts.
Context (h : arena) (Hwf : trie_wf h).
Implicit Types (p q : nat) (w u v : str) (c : ascii).

Lemma label_lt q w : label h q w → q < length h.
Proof.
  revert q. induction w as [|c w IH] using rev_ind; intros q.
  - intros [= <-]. apply Hwf.
  - intros (m & _ & Hc)%label_snoc. apply (wf_child h Hwf) in Hc. lia.
Qed.

Lemma label_depth q w : label h q w → length w ≤ q.
Proof.
  revert q. induction w as [|c w IH] using rev_ind; intros q.
  - simpl. lia.
  - intros (m & Hm & Hc)%label_snoc. rewrite length_app. simpl.
    apply IH in Hm. apply (wf_child h Hwf) in Hc. lia.
Qed.

Lemma label_root_inv w : label h 0 w → w = [].
Proof.
  intros H%label_depth. by destruct w; [|simpl in H; lia].
Qed.

Lemma label_inj q w w' : label h q w → label h q w' → w = w'.
Proof.
  revert q w'. induction w as [|c w IH] using rev_ind; intros q w'.
  - intros [= <-] H. symmetry. by apply label_root_inv.
  - intros (m & Hm & Hc)%label_snoc Hw'.
    destruct w' as [|c' w' _] using rev_ind.
    + injection Hw' as <-. apply (wf_child h Hwf) in Hc. lia.
    + apply label_snoc in Hw' as (m' & Hm' & Hc').
      destruct (wf_parent h Hwf _ _ _ _ _ Hc Hc') as [<- <-].
      f_equal. by eapply IH.
Qed.

Lemma label_is_Some q w : label h q w → is_Some (h !! q).
Proof. intros H%label_lt. by apply lookup_lt_is_Some. Qed.

Lemma child_entry p node c q :
  h !! p = Some node → (c, q) ∈ children node → child h p c q.
Proof.
  intros Hp Hin. exists node. split; [done|].
  apply map_find_elem; [|done]. by eapply wf_keys.
Qed.
End wf_facts.

(** ** Growing the trie by one leaf *)

Section add_leaf_facts.
Context (h : arena) (cur : nat) (ch : ascii) (node : TrieNode).
Context (Hwf : trie_wf h).
Context (Hcur : h !! cur = Some node).
Context (Hnew : map_find ch (children node) = None).

Lemma add_leaf_length : length (add_leaf h cur ch node) = S (length h).
Proof. unfold add_leaf. rewrite length_insert, length_app. simpl. lia. Qed.

Lemma add_leaf_lookup_cur :
  (add_leaf h cur ch node) !! cur = Some (set_children (map_set ch (length h) (children node)) node).
Proof.
  unfold add_leaf. apply list_lookup_insert_eq.
  rewrite length_app. apply lookup_lt_Some in Hcur. lia.
Qed.

Lemma add_leaf_lookup_new : (add_leaf h cur ch node) !! length h = Some TrieNode_new.
Proof.
  unfold add_leaf. rewrite list_lookup_insert_ne.
  - by rewrite lookup_app_r, Nat.sub_diag by lia.
  - apply lookup_lt_Some in Hcur. lia.
Qed.

Lemma add_leaf_lookup_old p : p ≠ cur → p < length h → (add_leaf h cur ch node) !! p = h !! p.
Proof.
  intros Hne Hlt. unfold add_leaf.
  rewrite list_lookup_insert_ne by done. by apply lookup_app_l.
Qed.

Lemma add_leaf_child p c q :
  child (add_leaf h cur ch node) p c q ↔ child h p c q ∨ (p = cur ∧ c = ch ∧ q = length h).
Proof.
  unfold child. split.
  - intros (n & Hn & Hf).
    destruct (decide (p = cur)) as [->|Hne].
    + rewrite add_leaf_lookup_cur in Hn. injection Hn as <-. simpl in Hf.
      destruct (decide (ch = c)) as [->|Hc].
      * rewrite map_find_set_eq in Hf. injection Hf as <-. by right.
      * rewrite map_find_set_ne in Hf by done. left. eauto.
    + assert (p < length (add_leaf h cur ch node)) as Hlt by by eapply lookup_lt_Some.
      rewrite add_leaf_length in Hlt.
      destruct (decide (p = length h)) as [->|Hp].
      * rewrite add_leaf_lookup_new in Hn. injection Hn as <-. done.
      * rewrite add_leaf_lookup_old in Hn by lia. left. eauto.
  - intros [(n & Hn & Hf)|(-> & -> & ->)].
    + destruct (decide (p = cur)) as [->|Hne].
      * rewrite add_leaf_lookup_cur. eexists; split; [done|]. simpl.
        assert (n = node) as -> by congruence.
        rewrite map_find_set_ne; [done|]. congruence.
      * exists n. split; [|done]. rewrite add_leaf_lookup_old; [done..|].
        by eapply lookup_lt_Some.
    + rewrite add_leaf_lookup_cur. eexists; split; [done|]. simpl.
      apply map_find_set_eq.
Qed.

Lemma add_leaf_label_mono q w : label h q w → label (add_leaf h cur ch node) q w.
Proof.
  revert q. induction w as [|c w IH] using rev_ind; intros q; [done|].
  intros (m & Hm & Hc)%label_snoc. apply label_snoc. exists m. split; [by apply IH|].
  apply add_leaf_child. by left.
Qed.

Lemma add_leaf_label u q w :
  label h cur u →
  label (add_leaf h cur ch node) q w ↔ label h q w ∨ (w = u ++ [ch] ∧ q = length h).
Proof.
  intros Hu. split.
  - revert q. induction w as [|c w IH] using rev_ind; intros q; [by left|].
    intros (m & Hm & Hc)%label_snoc. apply add_leaf_child in Hc.
    destruct (IH _ Hm) as [Hm'|[-> ->]].
    + destruct Hc as [Hc|(-> & -> & ->)].
      * left. apply label_snoc. eauto.
      * right. split; [|done]. f_equal. by eapply label_inj.
    + exfalso. destruct Hc as [(n & Hn & _)|(Heq & _)].
      * apply lookup_lt_Some in Hn. lia.
      * apply lookup_lt_Some in Hcur. lia.
  - intros [H|[-> ->]]; [by apply add_leaf_label_mono|].
    apply label_snoc. exists cur. split; [by apply add_leaf_label_mono|].
    apply add_leaf_child. by right.
Qed.

Lemma add_leaf_wf : trie_wf (add_leaf h cur ch node).
Proof.
  assert (cur < length h) as Hlt by by eapply lookup_lt_Some.
  split.
  - rewrite add_leaf_length. lia.
  - intros p c q [Hc|(-> & -> & ->)]%add_leaf_child; rewrite add_leaf_length.
    + apply (wf_child h Hwf) in Hc. lia.
    + lia.
  - intros p p' c c' q [Hc|(Hp & Hc & Hq)]%add_leaf_child
      [Hc'|(Hp' & Hc' & Hq')]%add_leaf_child.
    + by eapply wf_parent.
    + apply (wf_child h Hwf) in Hc. lia.
    + apply (wf_child h Hwf) in Hc'. lia.
    + by subst.
  - intros q Hq. pose proof add_leaf_length as Hlen.
    destruct (wf_reach h Hwf cur Hlt) as [u Hu].
    destruct (decide (q = length h)) as [->|Hne].
    + exists (u ++ [ch]). apply (add_leaf_label u); [done|]. by right.
    + destruct (wf_reach h Hwf q) as [w Hw]; [lia|].
      exists w. by apply add_leaf_label_mono.
  - intros p n Hn.
    destruct (decide (p = cur)) as [->|Hne].
    + rewrite add_leaf_lookup_cur in Hn. injection Hn as <-. simpl.
      apply map_set_keys; [done|]. by eapply wf_keys.
    + assert (p < length (add_leaf h cur ch node)) as Hp by by eapply lookup_lt_Some.
      rewrite add_leaf_length in Hp.
      destruct (decide (p = length h)) as [->|Hp'].
      * rewrite add_leaf_lookup_new in Hn. injection Hn as <-. apply NoDup_nil_2.
      * rewrite add_leaf_lookup_old in Hn by lia. by eapply wf_keys.
Qed.
End add_leaf_facts.

(** ** Insertion *)

Lemma load_Some (h : arena) a n : h !! a = Some n → load h a = Ret n.
Proof. unfold load, deref. by intros ->. Qed.

Lemma positions_app w ps1 ps2 i0 :
  positions w (ps1 ++ ps2) i0 = positions w ps1 i0 ++ positions w ps2 (i0 + length ps1).
Proof.
  revert i0. induction ps1 as [|p ps1 IH]; intros i0; simpl.
  - by rewrite Nat.add_0_r.
  - rewrite IH, <- app_assoc. do 3 f_equal. lia.
Qed.

Lemma elem_of_positions w ps i0 i :
  i ∈ positions w ps i0 ↔ i0 ≤ i ∧ ps !! (i - i0) = Some w.
Proof.
  revert i0. induction ps as [|p ps IH]; intros i0; simpl.
  - rewrite elem_of_nil, lookup_nil. split; [done|]. by intros [_ ?].
  - rewrite elem_of_app, IH. destruct (decide (p = w)) as [->|Hne].
    + rewrite list_elem_of_singleton. split.
      * intros [->|[Hle Hl]].
        -- by rewrite Nat.sub_diag.
        -- split; [lia|]. by replace (i - i0) with (S (i - S i0)) by lia.
      * intros [Hle Hl]. destruct (decide (i = i0)) as [->|]; [by left|right].
        split; [lia|]. by replace (i - i0) with (S (i - S i0)) in Hl by lia.
    + rewrite elem_of_nil. split.
      * intros [[]|[Hle Hl]]. split; [lia|].
        by replace (i - i0) with (S (i - S i0)) by lia.
      * intros [Hle Hl]. right. destruct (decide (i = i0)) as [->|].
        -- rewrite Nat.sub_diag in Hl. simpl in Hl. congruence.
        -- split; [lia|]. by replace (i - i0) with (S (i - S i0)) in Hl by lia.
Qed.

Lemma positions_nil w ps i0 : w ∉ ps → positions w ps i0 = [].
Proof.
  intros Hw. apply elem_of_nil_inv. intros i [_ Hi]%elem_of_positions.
  apply Hw. by eapply list_elem_of_lookup_2.
Qed.

Lemma extends_refl h : extends h h.
Proof.
  split; [lia| |intros ?? ?%lookup_lt_Some; lia|done].
  intros q node ?. by exists node.
Qed.

Lemma extends_trans h1 h2 h3 : extends h1 h2 → extends h2 h3 → extends h1 h3.
Proof.
  intros H12 H23. split.
  - pose proof (ext_length _ _ H12). pose proof (ext_length _ _ H23). lia.
  - intros q node Hq.
    destruct (ext_old _ _ H12 _ _ Hq) as (n2 & Hn2 & ? & ? & ?).
    destruct (ext_old _ _ H23 _ _ Hn2) as (n3 & Hn3 & ? & ? & ?).
    exists n3. repeat split; congruence.
  - intros q n3 Hq Hle.
    destruct (decide (q < length h2)) as [Hlt|Hge].
    + apply lookup_lt_is_Some in Hlt as [n2 Hn2].
      destruct (ext_old _ _ H23 _ _ Hn2) as (n3' & Hn3 & ? & ? & ?).
      destruct (ext_new _ _ H12 _ _ Hn2 Hle) as (? & ? & ?).
      assert (n3' = n3) as -> by congruence. repeat split; congruence.
    + apply (ext_new _ _ H23 _ _ Hq). lia.
  - intros q w Hl. by apply (ext_label _ _ H23), (ext_label _ _ H12).
Qed.

Lemma add_leaf_extends h cur ch node :
  trie_wf h → h !! cur = Some node → map_find ch (children node) = None →
  extends h (add_leaf h cur ch node).
Proof.
  intros Hwf Hcur Hnew. split.
  - rewrite add_leaf_length by done. lia.
  - intros q n Hq. destruct (decide (q = cur)) as [->|Hne].
    + rewrite add_leaf_lookup_cur by done. eexists; split; [done|].
      assert (n = node) as -> by congruence. done.
    + exists n. split; [|done]. rewrite add_leaf_lookup_old; [done..|].
      by eapply lookup_lt_Some.
  - intros q n' Hq Hle.
    assert (q < length (add_leaf h cur ch node)) as Hlt by by eapply lookup_lt_Some.
    rewrite add_leaf_length in Hlt by done.
    assert (q = length h) as -> by lia.
    rewrite add_leaf_lookup_new in Hq by done. by injection Hq as <-.
  - intros q w. by apply add_leaf_label_mono.
Qed.

Lemma add_walk_spec pat : ∀ h cur u,
  trie_wf h → label h cur u →
  ∃ h' t, add_walk h cur pat = Ret (h', t) ∧ trie_wf h' ∧ label h' t (u ++ pat) ∧
          extends h h' ∧
          (∀ w, in_trie h' w → in_trie h w ∨ w `prefix_of` (u ++ pat)).
Proof.
  induction pat as [|ch rest IH]; intros h cur u Hwf Hu.
  - exists h, cur. rewrite app_nil_r. split_and!; [done|done|done|apply extends_refl|]. intros w ?. by left.
  - destruct (label_is_Some h Hwf _ _ Hu) as [node Hnode].
    simpl. rewrite (load_Some _ _ _ Hnode). simpl.
    destruct (map_find ch (children node)) as [next|] eqn:Hf.
    + assert (label h next (u ++ [ch])) as Hnext.
      { apply label_snoc. exists cur. split; [done|]. by exists node. }
      destruct (IH h next (u ++ [ch]) Hwf Hnext) as (h' & t & ? & ? & ? & ? & Hin).
      rewrite <- app_assoc in *. by exists h', t.
    + fold (add_leaf h cur ch node).
      assert (label (add_leaf h cur ch node) (length h) (u ++ [ch])) as Hnext.
      { apply (add_leaf_label h cur ch node Hwf Hnode Hf u); [done|]. by right. }
      destruct (IH _ _ _ (add_leaf_wf h cur ch node Hwf Hnode Hf) Hnext)
        as (h' & t & Ht & Hwf' & Hl' & Hext & Hin).
      rewrite <- app_assoc in *. exists h', t. split_and!; [done..| |].
      * eapply extends_trans; [|done]. by apply add_leaf_extends.
      * intros w [Hw|Hw]%Hin; [|by right].
        destruct Hw as [q Hq].
        apply (add_leaf_label h cur ch node Hwf Hnode Hf u q w Hu) in Hq as [Hq|[-> _]].
        -- left. by exists q.
        -- right. simpl. by apply prefix_app, prefix_cons, prefix_nil.
Qed.

(** ** Arenas with the same child links *)

Section same_shape_facts.
Implicit Types (h : arena).

Lemma same_shape_refl h : same_shape h h.
Proof. done. Qed.

Lemma same_shape_sym h h' : same_shape h h' → same_shape h' h.
Proof. done. Qed.

Lemma same_shape_trans h1 h2 h3 : same_shape h1 h2 → same_shape h2 h3 → same_shape h1 h3.
Proof. unfold same_shape. congruence. Qed.

Lemma same_shape_length h h' : same_shape h h' → length h = length h'.
Proof. intros H. by rewrite <- (length_fmap children h), H, length_fmap. Qed.

Lemma same_shape_lookup h h' p n :
  same_shape h h' → h !! p = Some n → ∃ n', h' !! p = Some n' ∧ children n' = children n.
Proof.
  intros Hs Hp.
  assert ((children <$> h') !! p = Some (children n)) as H.
  { rewrite <- Hs, list_lookup_fmap, Hp. done. }
  rewrite list_lookup_fmap in H. destruct (h' !! p) as [n'|]; [|done].
  injection H as H. eauto.
Qed.

Lemma same_shape_insert h p n n' :
  h !! p = Some n → children n' = children n → same_shape h (<[p:=n']> h).
Proof.
  intros Hp Hc. unfold same_shape. rewrite list_fmap_insert, Hc.
  symmetry. apply list_insert_id. by rewrite list_lookup_fmap, Hp.
Qed.

Lemma same_shape_child h h' p c q : same_shape h h' → child h p c q → child h' p c q.
Proof.
  intros Hs (n & Hn & Hf).
  destruct (same_shape_lookup _ _ _ _ Hs Hn) as (n' & Hn' & Hc).
  exists n'. by rewrite Hc.
Qed.

Lemma same_shape_walk h h' p w : same_shape h h' → walk h' p w = walk h p w.
Proof.
  intros Hs. revert p. induction w as [|c w IH]; intros p; [done|].
  rewrite !walk_cons.
  destruct (h !! p) as [n|] eqn:Hn.
  - destruct (same_shape_lookup _ _ _ _ Hs Hn) as (n' & -> & ->).
    destruct (map_find c (children n)); [apply IH|done].
  - destruct (h' !! p) as [n'|] eqn:Hn'; [|done].
    destruct (same_shape_lookup _ _ _ _ (same_shape_sym _ _ Hs) Hn') as (n & Hn2 & _).
    congruence.
Qed.

Lemma same_shape_label h h' p w : same_shape h h' → label h' p w ↔ label h p w.
Proof. intros Hs. unfold label. by rewrite (same_shape_walk h h'). Qed.

Lemma same_shape_in_trie h h' w : same_shape h h' → in_trie h' w ↔ in_trie h w.
Proof. intros Hs. unfold in_trie. by rewrite (same_shape_walk h h'). Qed.

Lemma same_shape_wf h h' : same_shape h h' → trie_wf h → trie_wf h'.
Proof.
  intros Hs Hwf. pose proof (same_shape_sym _ _ Hs) as Hs'. split.
  - rewrite <- (same_shape_length _ _ Hs). apply Hwf.
  - intros p c q Hc%(same_shape_child _ _ _ _ _ Hs').
    rewrite <- (same_shape_length _ _ Hs). by eapply wf_child.
  - intros p p' c c' q Hc%(same_shape_child _ _ _ _ _ Hs') Hc'%(same_shape_child _ _ _ _ _ Hs').
    by eapply wf_parent.
  - intros q Hq. rewrite <- (same_shape_length _ _ Hs) in Hq.
    destruct (wf_reach h Hwf q Hq) as [w Hw]. exists w. by apply (same_shape_label h h').
  - intros p n' Hn'.
    destruct (same_shape_lookup _ _ _ _ Hs' Hn') as (n & Hn & <-). by eapply wf_keys.
Qed.
End same_shape_facts.

(** ** The class invariant during the insertion phase *)

Lemma new_inv : ac_inv [] AhoCorasick_new.
Proof.
  assert (∀ p c q, ¬ child (heap AhoCorasick_new) p c q) as Hnc.
  { intros [|p] c q (n & Hn & Hf); simpl in Hn; [|done]. by injection Hn as <-. }
  assert (∀ w, in_trie (heap AhoCorasick_new) w → w = []) as Hw.
  { intros [|c w]; [done|]. by intros [q Hq]. }
  split; [done|done| | |].
  - split.
    + simpl. lia.
    + intros p c q Hc. by apply Hnc in Hc.
    + intros p p' c c' q Hc. by apply Hnc in Hc.
    + intros [|q] Hq; [|simpl in Hq; lia]. by exists [].
    + intros [|p] n Hn; simpl in Hn; [|done]. injection Hn as <-. apply NoDup_nil_2.
  - split.
    + intros w. split; [intros ?%Hw; by left|].
      intros [->|(p & []%elem_of_nil & _)]. by exists 0.
    + intros w [|q] n Hl Hn; simpl in Hn; [|done]. by injection Hn as <-.
  - eexists; split; [done|]. done.
Qed.

Lemma indices_of_snoc w ps p :
  indices_of w (ps ++ [p]) =
  indices_of w ps ++ (if decide (p = w) then [int_of_size (length ps)] else []).
Proof.
  unfold indices_of. rewrite positions_app, fmap_app. simpl.
  destruct (decide (p = w)); simpl; [|done]. done.
Qed.

Lemma addPattern_spec pats p ac :
  ac_inv pats ac →
  ∃ ac' t, addPattern p ac = Ret (tt, ac') ∧ ac_inv (pats ++ [p]) ac' ∧
           label (heap ac') t p.
Proof.
  intros [Hr Hp Hwf Hfor (rn & Hrn & Hrf & Hro)].
  destruct (add_walk_spec p (heap ac) 0 [] Hwf (label_nil _))
    as (h' & t & Hw & Hwf' & Ht & Hext & Hin).
  simpl in Ht, Hin.
  destruct (label_is_Some h' Hwf' _ _ Ht) as [node Hnode].
  unfold addPattern. rewrite Hr, Hw. simpl. rewrite (load_Some _ _ _ Hnode). simpl.
  set (h'' := <[t:=push_patternIndex (int_of_size (length (patterns ac))) node]> h').
  assert (same_shape h' h'') as Hs by by eapply same_shape_insert.
  assert (∀ q, q ≠ t → h'' !! q = h' !! q) as Hne.
  { intros q Hq. unfold h''. by rewrite list_lookup_insert_ne. }
  assert (h'' !! t = Some (push_patternIndex (int_of_size (length (patterns ac))) node)) as Heq.
  { unfold h''. apply list_lookup_insert_eq. by eapply lookup_lt_Some. }
  assert (∀ w q, label h' q w → q < length (heap ac) → label (heap ac) q w) as Hold.
  { intros w q Hq Hlt. destruct (wf_reach _ Hwf q Hlt) as [w' Hw'].
    pose proof (ext_label _ _ Hext _ _ Hw') as Hw''.
    by rewrite (label_inj h' Hwf' q w w'). }
  eexists _, t. split; [done|]. split.
  - split; simpl; [done|by rewrite Hp|by eapply same_shape_wf| |].
    + split.
      * intros w. rewrite (same_shape_in_trie h' h'') by done. split.
        -- intros [Hw'|Hw']%Hin.
           ++ apply (tf_words _ _ Hfor) in Hw' as [->|(p' & Hp' & Hpre)]; [by left|right].
              exists p'. split; [|done]. apply elem_of_app. by left.
           ++ right. exists p. split; [|done]. apply elem_of_app. right.
              by apply list_elem_of_singleton.
        -- intros [->|(p' & [Hp'|Hp']%elem_of_app & Hpre)].
           ++ by exists 0.
           ++ assert (in_trie (heap ac) w) as [q Hq].
              { apply (tf_words _ _ Hfor). right. eauto. }
              exists q. by apply (ext_label _ _ Hext).
           ++ apply list_elem_of_singleton in Hp' as ->.
              eapply in_trie_prefix; [done|]. by exists t.
      * intros w q n Hl Hn. apply (same_shape_label h' h'') in Hl; [|done].
        rewrite indices_of_snoc.
        destruct (decide (q = t)) as [->|Hqt].
        -- rewrite Heq in Hn. injection Hn as <-. simpl.
           assert (w = p) as -> by by eapply label_inj.
           rewrite decide_True by done. rewrite Hp. f_equal.
           destruct (decide (t < length (heap ac))) as [Hlt|Hge].
           ++ pose proof (Hold _ _ Ht Hlt) as Ht'.
              destruct (label_is_Some _ Hwf _ _ Ht') as [n0 Hn0].
              destruct (ext_old _ _ Hext _ _ Hn0) as (n1 & Hn1 & _ & _ & Hpi).
              assert (n1 = node) as -> by congruence. rewrite Hpi.
              by eapply tf_indices.
           ++ destruct (ext_new _ _ Hext _ _ Hnode) as (_ & _ & ->); [lia|].
              unfold indices_of. rewrite positions_nil; [done|].
              intros Hin'. apply Hge. eapply (label_lt _ Hwf t p).
              assert (in_trie (heap ac) p) as [q Hq].
              { apply (tf_words _ _ Hfor). right. by exists p. }
              by rewrite (label_fun h' t q p Ht (ext_label _ _ Hext _ _ Hq)).
        -- rewrite Hne in Hn by done.
           assert (p ≠ w) as Hpw.
           { intros ->. apply Hqt. by eapply label_fun. }
           rewrite decide_False, app_nil_r by done.
           destruct (decide (q < length (heap ac))) as [Hlt|Hge].
           ++ pose proof (Hold _ _ Hl Hlt) as Hl'.
              destruct (label_is_Some _ Hwf _ _ Hl') as [n0 Hn0].
              destruct (ext_old _ _ Hext _ _ Hn0) as (n1 & Hn1 & _ & _ & Hpi).
              assert (n1 = n) as -> by congruence. rewrite Hpi.
              by eapply tf_indices.
           ++ destruct (ext_new _ _ Hext _ _ Hn) as (_ & _ & ->); [lia|].
              unfold indices_of. rewrite positions_nil; [done|].
              intros Hin'. apply Hge. eapply (label_lt _ Hwf q w).
              assert (in_trie (heap ac) w) as [q' Hq'].
              { apply (tf_words _ _ Hfor). right. by exists w. }
              by rewrite (label_fun h' q q' w Hl (ext_label _ _ Hext _ _ Hq')).
    + destruct (ext_old _ _ Hext _ _ Hrn) as (rn' & Hrn' & Hf' & Ho' & _).
      destruct (decide (0 = t)) as [<-|Hne0].
      * rewrite Heq. eexists; split; [done|]. simpl.
        assert (rn' = node) as -> by congruence. split; congruence.
      * rewrite Hne by done. exists rn'. split; [done|]. split; congruence.
  - simpl. by apply (same_shape_label h' h'').
Qed.

Lemma addPatterns_spec ps : ∀ pats ac,
  ac_inv pats ac → ∃ ac', addPatterns ps ac = Ret ac' ∧ ac_inv (pats ++ ps) ac'.
Proof.
  induction ps as [|p ps IH]; intros pats ac Hinv.
  - exists ac. by rewrite app_nil_r.
  - destruct (addPattern_spec pats p ac Hinv) as (ac1 & t & Hadd & Hinv1 & _).
    destruct (IH _ _ Hinv1) as (ac' & Hps & Hinv').
    exists ac'. simpl. rewrite Hadd. simpl. by rewrite <- app_assoc in Hinv'.
Qed.

(** * Failure and output links: what they must be *)

Section suffix_facts.
Context (h : arena).
Implicit Types (w u v : str) (c : ascii).

Lemma suffix_snoc_cases v w c :
  v `suffix_of` w ++ [c] → v = [] ∨ ∃ v', v = v' ++ [c] ∧ v' `suffix_of` w.
Proof.
  destruct v as [|c' v' _] using rev_ind; [by left|].
  intros H. right. exists v'.
  pose proof (suffix_snoc_inv_1 _ _ _ _ H) as ->.
  split; [done|]. by eapply suffix_snoc_inv_2.
Qed.

Lemma suffix_shorter u v w :
  u `suffix_of` w → v `suffix_of` w → length v ≤ length u → v `suffix_of` u.
Proof.
  intros Hu Hv Hle. destruct (suffix_weak_total _ _ _ Hu Hv) as [H|H]; [|done].
  by rewrite (suffix_length_eq _ _ H Hle).
Qed.

Lemma is_lps_det w u u' : is_lps h w u → is_lps h w u' → u = u'.
Proof.
  intros (Hs & Hl & Hi & Hm) (Hs' & Hl' & Hi' & Hm').
  pose proof (Hm _ Hs' Hl' Hi'). pose proof (Hm' _ Hs Hl Hi).
  apply suffix_length_eq; [|lia]. apply (suffix_shorter _ _ w); [done..|lia].
Qed.

Lemma is_ls_det w u u' : is_ls h w u → is_ls h w u' → u = u'.
Proof.
  intros (Hs & Hi & Hm) (Hs' & Hi' & Hm').
  pose proof (Hm _ Hs' Hi'). pose proof (Hm' _ Hs Hi).
  apply suffix_length_eq; [|lia]. apply (suffix_shorter _ _ w); [done..|lia].
Qed.

Lemma is_ls_self w : in_trie h w → is_ls h w w.
Proof. intros Hw. split_and!; [done..|]. intros v Hv _. by apply suffix_length. Qed.

Lemma is_ls_single_nil c : ¬ in_trie h [c] → is_ls h [c] [].
Proof.
  intros Hc. split_and!; [apply suffix_nil|by exists 0|].
  intros v [->|(v' & -> & ->%suffix_nil_inv)]%(suffix_snoc_cases v []); [done..|].
  by intros ?.
Qed.

Lemma is_lps_single c : is_lps h [c] [].
Proof.
  split_and!; [apply suffix_nil|simpl; lia|by exists 0|].
  intros v Hv Hlen _. simpl in *. lia.
Qed.

(** Falling back from [w] to its longest proper suffix [u] loses no
    candidate once [w ++ [c]] is known not to be in the trie. *)
Lemma is_ls_fallback w u c v :
  is_lps h w u → ¬ in_trie h (w ++ [c]) → is_ls h (u ++ [c]) v → is_ls h (w ++ [c]) v.
Proof.
  intros (Hs & Hl & Hi & Hm) Hnot (Hvs & Hvi & Hvm). split_and!; [|done|].
  - etrans; [done|]. by apply suffix_app.
  - intros v' [->|(v'' & -> & Hv'')]%suffix_snoc_cases Hv'; [simpl; lia|].
    apply Hvm; [|done]. apply suffix_app.
    apply (suffix_shorter _ _ w); [done..|]. apply Hm; [done| |by eapply in_trie_app_l].
    destruct (decide (length v'' < length w)) as [|Hge]; [done|].
    exfalso. apply Hnot. by rewrite <- (suffix_length_eq _ _ Hv'') by lia.
Qed.

(** The failure link of a child, from the failure link of its parent. *)
Lemma is_lps_child w u c v :
  is_lps h w u → is_ls h (u ++ [c]) v → is_lps h (w ++ [c]) v.
Proof.
  intros (Hs & Hl & Hi & Hm) (Hvs & Hvi & Hvm). split_and!; [| |done|].
  - etrans; [done|]. by apply suffix_app.
  - apply suffix_length in Hvs. rewrite !length_app in *. simpl in *. lia.
  - intros v' [->|(v'' & -> & Hv'')]%suffix_snoc_cases Hlen Hv'; [simpl; lia|].
    apply Hvm; [|done]. apply suffix_app.
    apply (suffix_shorter _ _ w); [done..|]. apply Hm; [done| |by eapply in_trie_app_l].
    rewrite !length_app in Hlen. simpl in Hlen. lia.
Qed.

(** One step of the scan: the state after [T ++ [c]] from the state after [T]. *)
Lemma is_ls_step T w c v :
  is_ls h T w → is_ls h (w ++ [c]) v → is_ls h (T ++ [c]) v.
Proof.
  intros (Hs & Hi & Hm) (Hvs & Hvi & Hvm). split_and!; [|done|].
  - etrans; [done|]. by apply suffix_app.
  - intros v' [->|(v'' & -> & Hv'')]%suffix_snoc_cases Hv'; [simpl; lia|].
    apply Hvm; [|done]. apply suffix_app.
    apply (suffix_shorter _ _ T); [done..|]. apply Hm; [done|by eapply in_trie_app_l].
Qed.
End suffix_facts.

Lemma same_shape_is_lps h h' w u : same_shape h h' → is_lps h' w u ↔ is_lps h w u.
Proof.
  intros Hs. unfold is_lps. rewrite (same_shape_in_trie h h') by done.
  by setoid_rewrite (same_shape_in_trie h h' _ Hs).
Qed.

Lemma follow_failure_eq fuel (h : arena) r a c :
  follow_failure fuel h r (Some a) c =
  if decide (a = r) then Ret a
  else node ← load h a;
       match map_find c (children node) with
       | Some _ => Ret a
       | None => match fuel with
                 | 0 => OutOfFuel
                 | S fuel' => follow_failure fuel' h r (failureLink node) c
                 end
       end.
Proof. by destruct fuel. Qed.

Section follow_failure_facts.
Context (h : arena) (Hwf : trie_wf h) (c : ascii).

Lemma not_in_trie_snoc x n w :
  label h x w → h !! x = Some n → map_find c (children n) = None → ¬ in_trie h (w ++ [c]).
Proof.
  intros Hx Hn Hf [z (m & Hm & (n' & Hn' & Hf'))%label_snoc].
  assert (m = x) as -> by by eapply label_fun. congruence.
Qed.

Lemma follow_failure_spec fuel : ∀ x w,
  label h x w →
  (∀ p w', label h p w' → length w' ≤ length w → linked h p) →
  length w ≤ fuel →
  ∃ y ny, follow_failure fuel h 0 (Some x) c = Ret y ∧ h !! y = Some ny ∧
          match map_find c (children ny) with
          | Some z => ∃ v, label h z v ∧ is_ls h (w ++ [c]) v
          | None => y = 0 ∧ is_ls h (w ++ [c]) []
          end.
Proof.
  induction fuel as [|fuel IH]; intros x w Hx Hlow Hfuel;
    rewrite follow_failure_eq;
    destruct (label_is_Some h Hwf _ _ Hx) as [n Hn];
    (destruct (decide (x = 0)) as [->|Hx0];
     [ assert (w = []) as -> by by eapply label_root_inv
     | rewrite (load_Some _ _ _ Hn); simpl ]).
  1,3: exists 0, n; split_and!; [done..|];
       destruct (map_find c (children n)) as [z|] eqn:Hf;
       [ exists [c]; split; [apply (label_snoc h z [] c); exists 0; split; [done|by exists n]|];
         apply is_ls_self; exists z;
         apply (label_snoc h z [] c); exists 0; split; [done|by exists n]
       | split; [done|]; apply is_ls_single_nil;
         by apply (not_in_trie_snoc 0 n []) ].
  all: destruct (map_find c (children n)) as [z|] eqn:Hf.
  1,3: exists x, n; split_and!; [done..|]; rewrite Hf;
       assert (label h z (w ++ [c])) by (apply label_snoc; exists x; split; [done|by exists n]);
       exists (w ++ [c]); split; [done|]; apply is_ls_self; by exists z.
  all: destruct (Hlow x w Hx) as (n' & w' & f & nf & u & Hn' & Hw' & Hfl & Hnf & Hu & Hcase);
         [done|];
       assert (n' = n) as -> by congruence;
       assert (w' = w) as -> by by eapply label_inj.
  all: destruct Hcase as [(-> & _)|(Hlps & _)];
         [ exfalso; apply Hx0; by eapply label_fun |].
  - destruct Hlps as (_ & Hlt & _). lia.
  - rewrite Hfl.
    destruct (IH f u Hu) as (y & ny & Hy & Hny & Hres).
    { intros p w' Hp Hle. apply (Hlow p w' Hp). destruct Hlps as (_ & Hlt & _). lia. }
    { destruct Hlps as (_ & Hlt & _). lia. }
    exists y, ny. split_and!; [done..|].
    pose proof (not_in_trie_snoc x n w Hx Hn Hf) as Hnot.
    destruct (map_find c (children ny)) as [z|].
    + destruct Hres as (v & Hv & Hls). exists v. split; [done|].
      by eapply is_ls_fallback.
    + destruct Hres as [-> Hls]. split; [done|]. by eapply is_ls_fallback.
Qed.
End follow_failure_facts.

(** * [buildFailureLinks]: the breadth-first pass *)

Section relinked_facts.
Context (h h' : arena) (t : nat) (Hrl : relinked h h' t).

Lemma relinked_same_trie : same_trie h h'.
Proof.
  destruct Hrl as [Ho (n & n' & Hn & Hn' & Hc & Hp)].
  split; apply list_eq; intros i; rewrite !list_lookup_fmap;
    (destruct (decide (i = t)) as [->|Hne]; [by rewrite Hn, Hn'; simpl; f_equal|]);
    by rewrite Ho.
Qed.

Lemma relinked_same_shape : same_shape h h'.
Proof. apply relinked_same_trie. Qed.

Lemma relinked_length : length h' = length h.
Proof. symmetry. apply same_shape_length, relinked_same_shape. Qed.

Lemma relinked_label p w : label h' p w ↔ label h p w.
Proof. apply same_shape_label, relinked_same_shape. Qed.

Lemma relinked_child p c q : child h' p c q ↔ child h p c q.
Proof.
  split; apply same_shape_child; [apply same_shape_sym|]; apply relinked_same_shape.
Qed.

Lemma linked_frame p :
  trie_wf h → linked h p → p ≠ t →
  (∀ w wt, label h p w → label h t wt → length w ≤ length wt) →
  linked h' p.
Proof.
  intros Hwf (n & w & f & nf & u & Hn & Hw & Hfl & Hnf & Hu & Hcase) Hpt Hdepth.
  assert (f ≠ t) as Hft.
  { intros ->. pose proof (Hdepth _ _ Hw Hu) as Hle.
    destruct Hcase as [(-> & -> & _)|((_ & Hlt & _) & _)].
    - apply Hpt. by eapply label_fun.
    - lia. }
  exists n, w, f, nf, u.
  rewrite !(rl_other _ _ _ Hrl) by done. rewrite !relinked_label.
  split_and!; [done..|].
  destruct Hcase as [?|[Hlps ?]]; [by left|right]. split; [|done].
  by apply (same_shape_is_lps h h'); [apply relinked_same_shape|].
Qed.
End relinked_facts.

Lemma same_trie_refl h : same_trie h h.
Proof. done. Qed.

Lemma same_trie_trans h1 h2 h3 : same_trie h1 h2 → same_trie h2 h3 → same_trie h1 h3.
Proof. intros [? ?] [? ?]. split; [by eapply same_shape_trans|congruence]. Qed.

Lemma same_trie_lookup h h' p n :
  same_trie h h' → h !! p = Some n →
  ∃ n', h' !! p = Some n' ∧ children n' = children n ∧ patternIndices n' = patternIndices n.
Proof.
  intros [Hs Hp] Hn.
  destruct (same_shape_lookup _ _ _ _ Hs Hn) as (n' & Hn' & Hc).
  exists n'. split_and!; [done..|].
  assert ((patternIndices <$> h') !! p = Some (patternIndices n)) as H.
  { rewrite <- Hp, list_lookup_fmap, Hn. done. }
  rewrite list_lookup_fmap, Hn' in H. by injection H.
Qed.

Lemma bfs_inv_ex_iff h dn q d ex ex' :
  (∀ p c t, ex p c t ↔ ex' p c t) → bfs_inv h dn q d ex → bfs_inv h dn q d ex'.
Proof.
  intros Hex [? ? ? ? Hk ? ? ?]. split; [done..| |done|done|done].
  intros p c t Hc. rewrite (Hk p c t Hc). by rewrite Hex.
Qed.

Lemma bfs_inv_q_depth h dn q d ex p w :
  bfs_inv h dn q d ex → p ∈ q → label h p w → d ≤ length w ≤ S d.
Proof.
  intros Hinv Hp Hw. destruct (bi_sorted _ _ _ _ _ Hinv) as (A & B & -> & HA & HB).
  apply elem_of_app in Hp as [Hp|Hp].
  - destruct (HA _ Hp) as (w' & Hw' & <-).
    rewrite (label_inj h (bi_wf _ _ _ _ _ Hinv) p w w'); [lia|done..].
  - destruct (HB _ Hp) as (w' & Hw' & Hlen).
    rewrite (label_inj h (bi_wf _ _ _ _ _ Hinv) p w w'); [lia|done..].
Qed.

(** The inner loops link one more state [t] of depth [S d] and enqueue it. *)
Lemma bfs_inv_push h h' dn q d ex ex' t wt :
  bfs_inv h dn q d ex → relinked h h' t →
  label h t wt → length wt = S d → linked h' t →
  (∀ p c, child h p c t → (p = 0 ∨ p ∈ dn) ∧ ex p c t ∧ ¬ ex' p c t) →
  (∀ p c t', child h p c t' → t' ≠ t → (ex p c t' ↔ ex' p c t')) →
  bfs_inv h' dn (q ++ [t]) d ex'.
Proof.
  intros Hinv Hrl Ht Hlen Hlk Hext Hex.
  pose proof (bi_wf _ _ _ _ _ Hinv) as Hwf.
  assert (t ≠ 0) as Ht0.
  { intros ->. apply (label_root_inv h Hwf) in Ht. subst wt. simpl in Hlen. lia. }
  assert (∃ m c, child h m c t) as (m & c & Hmc).
  { destruct wt as [|c w' _] using rev_ind; [simpl in Hlen; lia|].
    apply label_snoc in Ht as (m & _ & Hc). eauto. }
  assert (t ∉ dn ++ q) as Hnew.
  { rewrite (bi_kids _ _ _ _ _ Hinv _ _ _ Hmc). destruct (Hext _ _ Hmc) as (_ & ? & _). tauto. }
  assert (∀ p, p ∈ dn ++ q ++ [t] ↔ p ∈ dn ++ q ∨ p = t) as Hmem.
  { intros p. rewrite !elem_of_app, list_elem_of_singleton. tauto. }
  split.
  - eapply same_shape_wf; [|done]. by eapply relinked_same_shape.
  - rewrite app_assoc. apply NoDup_app. split_and!.
    + apply Hinv.
    + intros x Hx ->%list_elem_of_singleton. done.
    + apply NoDup_singleton.
  - intros p [Hp| ->]%Hmem; rewrite (relinked_length h h' t) by done.
    + by apply (bi_pos _ _ _ _ _ Hinv).
    + split; [done|]. by eapply label_lt.
  - intros p Hp. destruct (decide (p = t)) as [->|Hpt]; [done|].
    apply (linked_frame h h' t); [done|done| |done|].
    + apply (bi_linked _ _ _ _ _ Hinv). destruct Hp as [?|[?| ->]%Hmem]; tauto.
    + intros w wt' Hw Hwt'.
      assert (wt' = wt) as -> by by eapply label_inj.
      destruct Hp as [->|[[Hp|Hp]%elem_of_app| ->]%Hmem]; [| | |done].
      * apply (label_root_inv h Hwf) in Hw. subst. simpl. lia.
      * pose proof (bi_dn _ _ _ _ _ Hinv _ _ Hp Hw). lia.
      * pose proof (bfs_inv_q_depth _ _ _ _ _ _ _ Hinv Hp Hw). lia.
  - intros p c' t' Hc%(relinked_child h h' t Hrl). rewrite Hmem.
    destruct (decide (t' = t)) as [->|Hne].
    + destruct (Hext _ _ Hc) as (? & ? & ?). tauto.
    + rewrite (bi_kids _ _ _ _ _ Hinv _ _ _ Hc), (Hex _ _ _ Hc Hne). tauto.
  - intros p w Hp Hw%(relinked_label h h' t Hrl). by eapply bi_dn.
  - destruct (bi_sorted _ _ _ _ _ Hinv) as (A & B & -> & HA & HB).
    exists A, (B ++ [t]). split_and!.
    + by rewrite app_assoc.
    + intros p Hp. destruct (HA p Hp) as (w & Hw & ?). exists w.
      by rewrite (relinked_label h h' t).
    + intros p [Hp| ->%list_elem_of_singleton]%elem_of_app.
      * destruct (HB p Hp) as (w & Hw & ?). exists w. by rewrite (relinked_label h h' t).
      * exists wt. by rewrite (relinked_label h h' t).
  - intros p w Hw%(relinked_label h h' t Hrl) Hle. rewrite Hmem.
    destruct (bi_low _ _ _ _ _ Hinv _ _ Hw Hle); tauto.
Qed.

(** Taking the head of the queue: its level becomes the current one. *)
Lemma bfs_inv_pop h dn s q d :
  bfs_inv h dn (s :: q) d (λ _ _ _, False) →
  ∃ d' ns w, h !! s = Some ns ∧ label h s w ∧ length w = d' ∧ 1 ≤ d' ∧
             bfs_inv h (dn ++ [s]) q d' (λ p c t, p = s ∧ (c, t) ∈ children ns).
Proof.
  intros Hinv. pose proof (bi_wf _ _ _ _ _ Hinv) as Hwf.
  assert (s ∈ dn ++ s :: q) as Hs by (apply elem_of_app; right; apply elem_of_cons; by left).
  destruct (bi_pos _ _ _ _ _ Hinv s Hs) as [Hs0 Hslt].
  destruct (lookup_lt_is_Some_2 _ _ Hslt) as [ns Hns].
  destruct (wf_reach h Hwf s Hslt) as [w Hw].
  assert (∀ p, p ∈ (dn ++ [s]) ++ q ↔ p ∈ dn ++ s :: q) as Hmem.
  { intros p. by rewrite <- app_assoc. }
  assert (s ∉ dn) as Hsdn.
  { pose proof (bi_nodup _ _ _ _ _ Hinv) as Hnd. apply NoDup_app in Hnd as (_ & Hd & _).
    intros Hin. apply (Hd s Hin). apply elem_of_cons. by left. }
  assert (1 ≤ length w) as Hw1.
  { destruct w; [|simpl; lia]. exfalso. apply Hs0. by eapply label_fun. }
  pose proof (bfs_inv_q_depth _ _ _ _ _ _ _ Hinv (list_elem_of_here s q) Hw) as Hwd.
  exists (length w), ns, w. split_and!; [done..|].
  destruct (bi_sorted _ _ _ _ _ Hinv) as (A & B & HAB & HA & HB).
  split.
  - done.
  - rewrite <- app_assoc. apply Hinv.
  - intros p Hp%Hmem. by apply (bi_pos _ _ _ _ _ Hinv).
  - intros p [->|Hp%Hmem]; apply (bi_linked _ _ _ _ _ Hinv); tauto.
  - intros p c t Hc. rewrite Hmem, (bi_kids _ _ _ _ _ Hinv _ _ _ Hc), elem_of_app,
      list_elem_of_singleton.
    destruct (decide (p = s)) as [->|Hne].
    + assert ((c, t) ∈ children ns).
      { destruct Hc as (n & Hn & Hf). apply map_find_Some. congruence. }
      tauto.
    + tauto.
  - intros p w' [Hp| ->%list_elem_of_singleton]%elem_of_app Hw'.
    + pose proof (bi_dn _ _ _ _ _ Hinv _ _ Hp Hw'). lia.
    + by rewrite (label_inj h Hwf s w' w).
  - destruct A as [|a A].
    + simpl in HAB. subst B. exists q, []. split_and!; [by rewrite app_nil_r| |].
      * intros p Hp. destruct (HB p) as (w' & Hw' & Hlen); [by apply elem_of_cons; right|].
        exists w'. split; [done|].
        destruct (HB s (list_elem_of_here _ _)) as (w'' & Hw'' & Hlen'').
        rewrite (label_inj h Hwf s w w'') by done. lia.
      * intros p []%elem_of_nil.
    + injection HAB as <- ->.
      destruct (HA s (list_elem_of_here _ _)) as (w'' & Hw'' & Hlen).
      assert (w'' = w) as -> by by eapply label_inj.
      exists A, B. split_and!; [done| |]; rewrite Hlen.
      * intros p Hp. apply HA. apply elem_of_cons. by right.
      * done.
  - intros p w' Hw' Hle. rewrite Hmem.
    destruct (decide (length w' ≤ d)) as [Hd|Hd]; [by eapply bi_low|].
    assert (length w' = S d) as Hlen by lia.
    destruct w' as [|c w0 _] using rev_ind; [simpl in Hlen; lia|].
    rewrite length_app in Hlen. simpl in Hlen.
    apply label_snoc in Hw' as (m & Hm & Hc).
    right. apply (bi_kids _ _ _ _ _ Hinv _ _ _ Hc). split; [|tauto].
    destruct (bi_low _ _ _ _ _ Hinv m w0 Hm) as [?|[?|Hmq]%elem_of_app]; [lia|tauto|tauto|].
    exfalso.
    (* every queued state is on level [S d] here, [m] is on level [d] *)
    assert (length w = S d) as HwS by lia.
    destruct A as [|a A].
    + simpl in HAB. subst B. destruct (HB m Hmq) as (w1 & Hw1' & Hlen1).
      rewrite (label_inj h Hwf m w0 w1) in Hlen by done. lia.
    + injection HAB as <- ->.
      destruct (HA s (list_elem_of_here _ _)) as (w'' & Hw'' & Hlen'').
      rewrite (label_inj h Hwf s w w'') in HwS by done. lia.
Qed.

Lemma load_lt (h : arena) a : a < length h → ∃ n, h !! a = Some n ∧ load h a = Ret n.
Proof.
  intros [n Hn]%lookup_lt_is_Some. exists n. split; [done|]. by apply load_Some.
Qed.

(** The body of the inner loop of [buildFailureLinks] gives the child its
    failure and output links. *)
Lemma link_child_spec fuel h dn q d ex s w c t :
  bfs_inv h dn q d ex → s ∈ dn → label h s w → length w = d → 1 ≤ d →
  child h s c t → length h ≤ fuel →
  ∃ h', link_child fuel 0 s c t h = Ret h' ∧ relinked h h' t ∧ linked h' t.
Proof.
  intros Hinv Hs Hw Hlen Hd Hc Hfuel.
  pose proof (bi_wf _ _ _ _ _ Hinv) as Hwf.
  assert (∀ p w', label h p w' → length w' ≤ d → linked h p) as Hlow.
  { intros p w' Hp Hle. apply (bi_linked _ _ _ _ _ Hinv). by eapply bi_low. }
  destruct (Hlow s w Hw) as (ns & w' & f & nf & u & Hns & Hw' & Hfl & Hnf & Hu & Hcase); [lia|].
  assert (w' = w) as -> by by eapply label_inj.
  destruct Hcase as [(-> & _)|(Hlps & _)]; [simpl in *; lia|].
  pose proof Hlps as (_ & Hult & _).
  destruct (follow_failure_spec h Hwf c fuel f u Hu) as (y & ny & Hy & Hny & Hres).
  { intros p w' Hp Hle. apply (Hlow p w' Hp). lia. }
  { pose proof (label_depth h Hwf _ _ Hu). pose proof (label_lt h Hwf _ _ Hu). lia. }
  assert (label h t (w ++ [c])) as Ht by (apply label_snoc; eauto).
  destruct (label_is_Some h Hwf _ _ Ht) as [nt Hnt].
  assert (t < length h) as Htlt by by eapply lookup_lt_Some.
  (* the failure link computed by the code, and its word *)
  set (fl := match map_find c (children ny) with Some x => x | None => 0 end).
  assert (∃ v, label h fl v ∧ is_lps h (w ++ [c]) v) as (v & Hv & Hvlps).
  { unfold fl. destruct (map_find c (children ny)) as [z|].
    - destruct Hres as (v & Hv & Hls). exists v. split; [done|]. by eapply is_lps_child.
    - destruct Hres as [-> Hls]. exists []. split; [done|]. by eapply is_lps_child. }
  assert (fl ≠ t) as Hflt.
  { intros Heq. rewrite Heq in Hv. destruct Hvlps as (_ & Hlt & _).
    rewrite (label_inj h Hwf t v (w ++ [c])) in Hlt by done. lia. }
  destruct (label_is_Some h Hwf _ _ Hv) as [nfl Hnfl].
  set (t2 := set_failureLink (Some fl) nt).
  set (h1 := <[t:=t2]> h).
  set (ol := out_of fl nfl).
  set (h2 := <[t:=set_outputLink ol t2]> h1).
  assert (h1 !! t = Some t2) as Hh1t by by apply list_lookup_insert_eq.
  assert (h1 !! fl = Some nfl) as Hh1fl by by (unfold h1; rewrite list_lookup_insert_ne).
  assert (link_child fuel 0 s c t h = Ret h2) as Hrun.
  { unfold link_child. rewrite (load_Some _ _ _ Hns). simpl. rewrite Hfl, Hy. simpl.
    rewrite (load_Some _ _ _ Hny). simpl. rewrite (load_Some _ _ _ Hnt). simpl.
    assert (match map_find c (children ny) with
            | Some x => <[t:=set_failureLink (Some x) nt]> h
            | None => <[t:=set_failureLink (Some 0) nt]> h
            end = h1) as ->.
    { unfold h1, t2, fl. by destruct (map_find c (children ny)). }
    rewrite (load_Some _ _ _ Hh1t). simpl. rewrite Hh1fl.
    unfold h2, ol, out_of. simpl. by destruct (patternIndices nfl). }
  assert (h2 !! t = Some (set_outputLink ol t2)) as Hh2t.
  { unfold h2. apply list_lookup_insert_eq. unfold h1. by rewrite length_insert. }
  assert (relinked h h2 t) as Hrl.
  { split.
    - intros p Hp. unfold h2, h1. by rewrite !list_lookup_insert_ne.
    - exists nt, (set_outputLink ol t2). by split_and!. }
  exists h2. split_and!; [done..|].
  exists (set_outputLink ol t2), (w ++ [c]), fl, nfl, v.
  rewrite !(relinked_label h h2 t Hrl). rewrite (rl_other _ _ _ Hrl fl Hflt).
  split_and!; [done..|]. right. split.
  - by apply (same_shape_is_lps h h2); [eapply relinked_same_shape|].
  - simpl. rewrite decide_False; [done|]. rewrite length_app. simpl. lia.
Qed.

Lemma init_child_spec h q ex c t n1 :
  bfs_inv h [] q 0 ex → child h 0 c t → h !! t = Some n1 →
  let h2 := <[t:=set_outputLink None (set_failureLink (Some 0) n1)]>
              (<[t:=set_failureLink (Some 0) n1]> h) in
  relinked h h2 t ∧ linked h2 t.
Proof.
  intros Hinv Hc Hn1 h2.
  pose proof (bi_wf _ _ _ _ _ Hinv) as Hwf.
  assert (t < length h) as Htlt by by eapply lookup_lt_Some.
  assert (t ≠ 0) as Ht0 by (apply (wf_child h Hwf) in Hc; lia).
  assert (label h t [c]) as Ht by (apply (label_snoc h t [] c); eauto using label_nil).
  assert (relinked h h2 t) as Hrl.
  { split.
    - intros p Hp. unfold h2. by rewrite !list_lookup_insert_ne.
    - exists n1, (set_outputLink None (set_failureLink (Some 0) n1)). split_and!; [done| |done..].
      unfold h2. apply list_lookup_insert_eq. by rewrite length_insert. }
  split; [done|].
  destruct (lookup_lt_is_Some_2 h 0 (wf_root h Hwf)) as [rn Hrn].
  pose proof (rl_other _ _ _ Hrl) as Ho.
  exists (set_outputLink None (set_failureLink (Some 0) n1)), [c], 0, rn, [].
  rewrite !(relinked_label h h2 t Hrl). rewrite (Ho 0) by done.
  split_and!; [|done..|].
  - unfold h2. apply list_lookup_insert_eq. by rewrite length_insert.
  - right. split; [|done].
    apply (same_shape_is_lps h h2); [by eapply relinked_same_shape|]. apply is_lps_single.
Qed.

Lemma pending_edge_step h s c t ks :
  trie_wf h → child h s c t → c ∉ ks.*1 →
  (∀ p c', child h p c' t →
     (p = s ∧ (c', t) ∈ (c, t) :: ks) ∧ ¬ (p = s ∧ (c', t) ∈ ks)) ∧
  (∀ p c' t', child h p c' t' → t' ≠ t →
     (p = s ∧ (c', t') ∈ (c, t) :: ks) ↔ (p = s ∧ (c', t') ∈ ks)).
Proof.
  intros Hwf Hc Hnew. split.
  - intros p c' Hc'. destruct (wf_parent h Hwf _ _ _ _ _ Hc Hc') as [<- <-]. split.
    + split; [done|]. apply elem_of_cons. by left.
    + intros [_ Hin]. apply Hnew. apply list_elem_of_fmap. by exists (c, t).
  - intros p c' t' _ Hne. rewrite elem_of_cons. split; [|tauto].
    intros [-> [[= -> ->]|?]]; done.
Qed.

Lemma link_children_spec fuel s d : ∀ ks h dn q w,
  bfs_inv h dn q d (λ p c t, p = s ∧ (c, t) ∈ ks) →
  s ∈ dn → label h s w → length w = d → 1 ≤ d →
  NoDup ks.*1 → (∀ c t, (c, t) ∈ ks → child h s c t) → length h ≤ fuel →
  ∃ h' q', link_children fuel 0 s ks h q = Ret (h', q') ∧ same_trie h h' ∧
           bfs_inv h' dn q' d (λ _ _ _, False).
Proof.
  induction ks as [|[c t] ks IH]; intros h dn q w Hinv Hs Hw Hlen Hd Hnd Hks Hfuel.
  - exists h, q. split_and!; [done..|].
    eapply bfs_inv_ex_iff; [|done]. intros p c t. simpl. rewrite elem_of_nil. tauto.
  - apply NoDup_cons in Hnd as [Hc Hnd].
    assert (child h s c t) as Hct by (apply Hks, elem_of_cons; by left).
    destruct (link_child_spec fuel h dn q d _ s w c t Hinv Hs Hw Hlen Hd Hct Hfuel)
      as (h1 & Hrun & Hrl & Hlk).
    pose proof (bi_wf _ _ _ _ _ Hinv) as Hwf.
    destruct (pending_edge_step h s c t ks Hwf Hct Hc) as [Hp1 Hp2].
    assert (bfs_inv h1 dn (q ++ [t]) d (λ p c t, p = s ∧ (c, t) ∈ ks)) as Hinv1.
    { eapply (bfs_inv_push h h1 dn q d _ _ t (w ++ [c])); [done|done| | |done| |done].
      - apply label_snoc. eauto.
      - rewrite length_app. simpl. lia.
      - intros p c' Hc'. destruct (Hp1 p c' Hc') as [[-> ?] ?]. tauto. }
    destruct (IH h1 dn (q ++ [t]) w Hinv1 Hs) as (h' & q' & Hrun' & Hst & Hinv');
      [by apply (relinked_label h h1 t)|done|done|done| |by rewrite (relinked_length h h1 t)|].
    { intros c' t' Hin. apply (relinked_child h h1 t Hrl). apply Hks, elem_of_cons. by right. }
    exists h', q'. simpl. rewrite Hrun. simpl. split_and!; [done| |done].
    eapply same_trie_trans; [|done]. by eapply relinked_same_trie.
Qed.

Lemma init_children_spec : ∀ ks h q,
  bfs_inv h [] q 0 (λ p c t, p = 0 ∧ (c, t) ∈ ks) →
  NoDup ks.*1 → (∀ c t, (c, t) ∈ ks → child h 0 c t) →
  ∃ h' q', init_children 0 ks h q = Ret (h', q') ∧ same_trie h h' ∧
           bfs_inv h' [] q' 0 (λ _ _ _, False).
Proof.
  induction ks as [|[c t] ks IH]; intros h q Hinv Hnd Hks.
  - exists h, q. split_and!; [done..|].
    eapply bfs_inv_ex_iff; [|done]. intros p c t. simpl. rewrite elem_of_nil. tauto.
  - apply NoDup_cons in Hnd as [Hc Hnd].
    assert (child h 0 c t) as Hct by (apply Hks, elem_of_cons; by left).
    pose proof (bi_wf _ _ _ _ _ Hinv) as Hwf.
    assert (t < length h) as Htlt by (apply (wf_child h Hwf) in Hct; lia).
    destruct (lookup_lt_is_Some_2 _ _ Htlt) as [n1 Hn1].
    destruct (init_child_spec h q _ c t n1 Hinv Hct Hn1) as [Hrl Hlk].
    assert (init_children 0 ((c, t) :: ks) h q =
            init_children 0 ks
              (<[t:=set_outputLink None (set_failureLink (Some 0) n1)]>
                 (<[t:=set_failureLink (Some 0) n1]> h)) (q ++ [t])) as Hstep.
    { simpl. rewrite (load_Some _ _ _ Hn1). simpl.
      rewrite (load_Some _ t (set_failureLink (Some 0) n1)); [done|].
      by apply list_lookup_insert_eq. }
    set (h1 := <[t:=set_failureLink (Some 0) n1]> h) in *.
    set (h2 := <[t:=set_outputLink None (set_failureLink (Some 0) n1)]> h1) in *.
    destruct (pending_edge_step h 0 c t ks Hwf Hct Hc) as [Hp1 Hp2].
    assert (bfs_inv h2 [] (q ++ [t]) 0 (λ p c t, p = 0 ∧ (c, t) ∈ ks)) as Hinv1.
    { eapply (bfs_inv_push h h2 [] q 0 _ _ t [c]); [done|done| |done|done| |done].
      - apply (label_snoc h t [] c). eauto using label_nil.
      - intros p c' Hc'. destruct (Hp1 p c' Hc') as [[-> ?] ?]. tauto. }
    destruct (IH h2 (q ++ [t]) Hinv1 Hnd) as (h' & q' & Hrun' & Hst & Hinv').
    { intros c' t' Hin. apply (relinked_child h h2 t Hrl). apply Hks, elem_of_cons. by right. }
    exists h', q'. rewrite Hstep. split_and!; [done| |done].
    eapply same_trie_trans; [|done]. by eapply relinked_same_trie.
Qed.

Lemma nodup_range_length (l : list nat) N :
  NoDup l → (∀ p, p ∈ l → p ≠ 0 ∧ p < N) → S (length l) ≤ N ∨ (l = [] ∧ N = 0).
Proof.
  intros Hnd Hr. destruct N as [|N].
  - right. split; [|done]. apply elem_of_nil_inv. intros p Hp%Hr. lia.
  - left. assert (l ⊆+ seq 1 N) as Hsub.
    { apply NoDup_submseteq; [done|]. intros p Hp%Hr. apply elem_of_seq. lia. }
    apply submseteq_length in Hsub. rewrite length_seq in Hsub. lia.
Qed.

Lemma bfs_spec fuel : ∀ n h dn q d,
  bfs_inv h dn q d (λ _ _ _, False) →
  length h ≤ S (n + length dn) → length h ≤ fuel →
  ∃ h', bfs n fuel 0 h q = Ret h' ∧ same_trie h h' ∧ trie_wf h' ∧
        ∀ p, p < length h' → linked h' p.
Proof.
  induction n as [|n IH]; intros h dn q d Hinv Hn Hfuel;
    pose proof (bi_wf _ _ _ _ _ Hinv) as Hwf.
  all: destruct q as [|s q].
  1,3: exists h; split_and!; [done|done|done|];
       intros p Hp; apply (bi_linked _ _ _ _ _ Hinv); rewrite app_nil_r;
       destruct (wf_reach h Hwf p Hp) as [w Hw]; clear Hp;
       revert p Hw; induction w as [|c w IHw] using rev_ind; intros p Hw;
       [ left; by eapply label_fun |];
       apply label_snoc in Hw as (m & Hm & Hc);
       pose proof (bi_kids _ _ _ _ _ Hinv _ _ _ Hc) as Hk; rewrite app_nil_r in Hk;
       right; apply Hk; split; [by apply IHw|tauto].
  - exfalso.
    destruct (nodup_range_length (dn ++ s :: q) (length h)) as [Hl|[Hl _]].
    + apply Hinv.
    + apply Hinv.
    + rewrite length_app in Hl. simpl in *. lia.
    + by destruct dn.
  - destruct (bfs_inv_pop h dn s q d Hinv) as (d' & ns & w & Hns & Hw & Hlen & Hd' & Hinv').
    destruct (link_children_spec fuel s d' (children ns) h (dn ++ [s]) q w Hinv')
      as (h1 & q1 & Hrun & Hst & Hinv1); [|done..| | |done|].
    { apply elem_of_app. right. by apply list_elem_of_singleton. }
    { by eapply wf_keys. }
    { intros c t Hin. by eapply child_entry. }
    destruct (IH h1 (dn ++ [s]) q1 d' Hinv1) as (h' & Hbfs & Hst' & Hwf' & Hall).
    { rewrite <- (same_shape_length h h1) by apply Hst. rewrite length_app. simpl. lia. }
    { by rewrite <- (same_shape_length h h1) by apply Hst. }
    exists h'. simpl. rewrite (load_Some _ _ _ Hns). simpl. rewrite Hrun. simpl.
    split_and!; [done| |done..]. by eapply same_trie_trans.
Qed.

(** ** The automaton after [buildFailureLinks] *)

Lemma same_trie_for pats h h' : trie_wf h → same_trie h h' → trie_for pats h → trie_for pats h'.
Proof.
  intros Hwf Hst [Hw Hi]. split.
  - intros w. rewrite (same_shape_in_trie h h') by apply Hst. apply Hw.
  - intros w q n' Hl Hn'. apply (same_shape_label h h') in Hl; [|apply Hst].
    destruct (label_is_Some h Hwf _ _ Hl) as [n Hn].
    destruct (same_trie_lookup _ _ _ _ Hst Hn) as (n'' & Hn'' & _ & Hp).
    assert (n'' = n') as -> by congruence. rewrite Hp. by eapply Hi.
Qed.

Lemma buildFailureLinks_spec fuel pats ac :
  ac_inv pats ac → length (heap ac) ≤ fuel →
  ∃ ac', buildFailureLinks fuel ac = Ret (tt, ac') ∧ built pats ac' ∧
         same_trie (heap ac) (heap ac').
Proof.
  intros [Hr Hp Hwf Hfor (rn & Hrn & Hrf & Hro)] Hfuel.
  assert (bfs_inv (heap ac) [] [] 0 (λ p c t, p = 0 ∧ (c, t) ∈ children rn)) as Hinv0.
  { split; [done|apply NoDup_nil_2|by intros p []%elem_of_nil| | |by intros p w []%elem_of_nil| |].
    - intros p [->|[]%elem_of_nil].
      exists rn, [], 0, rn, []. split_and!; [done..|]. by left.
    - intros p c t (n & Hn & Hf). simpl. split; [by intros []%elem_of_nil|].
      intros [[->|[]%elem_of_nil] Hex]. exfalso. apply Hex. split; [done|].
      apply map_find_Some. congruence.
    - exists [], []. split_and!; [done|by intros p []%elem_of_nil..].
    - intros p w Hw Hle. left. destruct w; [|simpl in Hle; lia]. by eapply label_fun. }
  destruct (init_children_spec (children rn) (heap ac) [] Hinv0) as (h1 & q1 & Hrun1 & Hst1 & Hinv1).
  { by eapply wf_keys. }
  { intros c t Hin. by eapply child_entry. }
  destruct (bfs_spec fuel fuel h1 [] q1 0 Hinv1) as (h2 & Hrun2 & Hst2 & Hwf2 & Hall).
  { rewrite <- (same_shape_length (heap ac) h1) by apply Hst1. simpl. lia. }
  { by rewrite <- (same_shape_length (heap ac) h1) by apply Hst1. }
  eexists. unfold buildFailureLinks. rewrite Hr, (load_Some _ _ _ Hrn). simpl.
  rewrite Hrun1. simpl. rewrite Hrun2. simpl. split; [done|].
  assert (same_trie (heap ac) h2) as Hst by by eapply same_trie_trans.
  split; [|done]. split; simpl; [done|done|done| |apply Hall].
  exact (same_trie_for pats (heap ac) h2 Hwf Hst Hfor).
Qed.

(** * [search] *)

Lemma emits_cons h a l i :
  emits h (a :: l) i = ((λ patternIndex, (patternIndex, i)) <$> pats_at h a) ++ emits h l i.
Proof. done. Qed.

Lemma out_chain_fun h o l l' : out_chain h o l → out_chain h o l' → l = l'.
Proof.
  intros H. revert l'. induction H as [|a n l Hn _ IH]; intros l' H'; inversion H'; subst; [done|].
  f_equal. apply IH. congruence.
Qed.

Lemma collect_outputs_chain h o l :
  out_chain h o l → ∀ fuel i ms, length l ≤ fuel →
  collect_outputs fuel h o i ms = Ret (ms ++ emits h l i).
Proof.
  induction 1 as [|a n l Hn _ IH]; intros fuel i ms Hfuel.
  - destruct fuel; simpl; by rewrite app_nil_r.
  - destruct fuel as [|fuel]; [simpl in Hfuel; lia|].
    rewrite emits_cons. unfold pats_at. rewrite Hn.
    change (collect_outputs (S fuel) h (Some a) i ms) with
      (node ← load h a;
       collect_outputs fuel h (outputLink node) i
         (ms ++ ((λ patternIndex, (patternIndex, i)) <$> patternIndices node))).
    rewrite (load_Some _ _ _ Hn). simpl in Hfuel.
    change (collect_outputs fuel h (outputLink n) i
              (ms ++ ((λ patternIndex, (patternIndex, i)) <$> patternIndices n)) =
            Ret (ms ++ ((λ patternIndex, (patternIndex, i)) <$> patternIndices n) ++ emits h l i)).
    rewrite IH by lia. by rewrite <- app_assoc.
Qed.

Lemma descending_weaken h w w' l :
  descending h w l → w `suffix_of` w' → descending h w' l.
Proof.
  intros H Hs. destruct H as [|w a na v l Ha Hv Hlt Hna Hp Hd]; [constructor|].
  econstructor; [done| |..|done]; [by etrans| |done..].
  apply suffix_length in Hs. lia.
Qed.

Lemma descending_length h w l : descending h w l → length l ≤ length w.
Proof. induction 1; simpl; lia. Qed.

Lemma descending_elem h w l x :
  descending h w l → x ∈ l →
  ∃ v nx, label h x v ∧ v `suffix_of` w ∧ length v < length w ∧
          h !! x = Some nx ∧ patternIndices nx ≠ [].
Proof.
  induction 1 as [|w a na v l Ha Hv Hlt Hna Hp Hd IH]; [by intros ?%elem_of_nil|].
  intros [->|Hx]%elem_of_cons.
  - by exists v, na.
  - destruct (IH Hx) as (v' & nx & ? & ? & ? & ? & ?).
    exists v', nx. split_and!; [done| |lia|done..]. by etrans.
Qed.

Lemma descending_NoDup h w l : trie_wf h → descending h w l → NoDup l.
Proof.
  intros Hwf. induction 1 as [|w a na v l Ha Hv Hlt Hna Hp Hd IH]; [apply NoDup_nil_2|].
  apply NoDup_cons. split; [|done].
  intros Hin. destruct (descending_elem _ _ _ _ Hd Hin) as (v' & _ & Hv' & _ & Hlt' & _).
  rewrite (label_inj h Hwf a v v') in Hlt' by done. lia.
Qed.

Section chain_facts.
Context (h : arena) (Hwf : trie_wf h).
Context (Hlinked : ∀ p, p < length h → linked h p).

(** The output chain of a state: it exists, descends, and misses no state
    below the root that ends a pattern and whose word is a proper suffix. *)
Lemma out_chain_exists : ∀ k w p n,
  length w ≤ k → label h p w → h !! p = Some n →
  ∃ l, out_chain h (outputLink n) l ∧ descending h w l ∧
       ∀ x v nx, label h x v → v ≠ [] → v `suffix_of` w → length v < length w →
                 h !! x = Some nx → patternIndices nx ≠ [] → x ∈ l.
Proof.
  induction k as [|k IH]; intros w p n Hk Hw Hn;
    destruct (Hlinked p (label_lt h Hwf _ _ Hw))
      as (n' & w' & f & nf & u & Hn' & Hw' & Hfl & Hnf & Hu & Hcase);
    assert (n' = n) as -> by congruence;
    assert (w' = w) as -> by (by eapply label_inj).
  all: destruct Hcase as [(-> & -> & Ho)|(Hlps & Ho)].
  1,3: rewrite Ho; exists []; split_and!; [constructor|constructor|];
       intros x v nx _ _ _ Hlt; simpl in Hlt; lia.
  { destruct Hlps as (_ & Hlt & _). lia. }
  rewrite Ho. destruct (decide (length w ≤ 1)) as [Hw1|Hw1].
  { exists []. split_and!; [constructor|constructor|].
    intros x v nx _ Hv _ Hlt. destruct v; [done|]. simpl in Hlt. lia. }
  pose proof Hlps as (Hus & Hult & Hui & Hmax).
  destruct (IH u f nf) as (lf & Hchain & Hdesc & Hcompl); [lia|done|done|].
  assert (∀ x v nx, label h x v → v ≠ [] → v `suffix_of` w → length v < length w →
                    h !! x = Some nx → patternIndices nx ≠ [] → x = f ∨ x ∈ lf) as Hcases.
  { intros x v nx Hx Hv Hvs Hvlt Hnx Hpx.
    assert (v `suffix_of` u) as Hvu.
    { apply (suffix_shorter _ _ w); [done..|]. apply Hmax; [done..|]. by exists x. }
    destruct (decide (length v < length u)) as [Hlt|Hge].
    - right. by eapply Hcompl.
    - left. rewrite (suffix_length_eq _ _ Hvu) in Hx by lia. by eapply label_fun. }
  unfold out_of. destruct (patternIndices nf) as [|i0 is0] eqn:Hpf.
  - exists lf. split_and!; [done|by eapply descending_weaken|].
    intros x v nx Hx Hv Hvs Hvlt Hnx Hpx.
    destruct (Hcases x v nx) as [->|?]; [done..| |done]. congruence.
  - exists (f :: lf). split_and!.
    + by econstructor.
    + econstructor; [done..| |done]. by rewrite Hpf.
    + intros x v nx Hx Hv Hvs Hvlt Hnx Hpx. apply elem_of_cons.
      by eapply Hcases.
Qed.

Lemma out_chain_at p w n :
  label h p w → h !! p = Some n →
  ∃ l, out_chain h (Some p) (p :: l) ∧ descending h w l ∧ length (p :: l) ≤ length h ∧
       ∀ x v nx, label h x v → v ≠ [] → v `suffix_of` w →
                 h !! x = Some nx → patternIndices nx ≠ [] → x ∈ p :: l.
Proof.
  intros Hw Hn.
  destruct (out_chain_exists (length w) w p n) as (l & Hc & Hd & Hcompl); [done..|].
  exists l. split_and!; [by econstructor|done| |].
  - pose proof (descending_length _ _ _ Hd). pose proof (label_depth h Hwf _ _ Hw).
    pose proof (label_lt h Hwf _ _ Hw). simpl. lia.
  - intros x v nx Hx Hv Hvs Hnx Hpx. apply elem_of_cons.
    destruct (decide (length v < length w)) as [Hlt|Hge].
    + right. by eapply Hcompl.
    + left. pose proof (suffix_length _ _ Hvs).
      rewrite (suffix_length_eq _ _ Hvs) in Hx by lia. by eapply label_fun.
Qed.
End chain_facts.

Lemma elem_of_emits h l i x :
  x ∈ emits h l i ↔ ∃ a, a ∈ l ∧ x.1 ∈ pats_at h a ∧ x.2 = i.
Proof.
  unfold emits. rewrite list_elem_of_bind. split.
  - intros (a & Hx & Ha). exists a. split; [done|].
    apply list_elem_of_fmap in Hx as (k & -> & Hk). done.
  - intros (a & Ha & Hk & Hi). exists a. split; [|done].
    apply list_elem_of_fmap. exists x.1. split; [|done]. destruct x; simpl in *. by subst.
Qed.

Section search_facts.
Context (h : arena) (Hwf : trie_wf h).
Context (Hlinked : ∀ p, p < length h → linked h p).

Lemma search_step_spec fuel cur w c i ms :
  label h cur w → length h ≤ fuel →
  ∃ next v nn l,
    search_step fuel h 0 cur c i ms = Ret (next, ms ++ emits h (next :: l) i) ∧
    label h next v ∧ is_ls h (w ++ [c]) v ∧ h !! next = Some nn ∧
    out_chain h (outputLink nn) l ∧ descending h v l.
Proof.
  intros Hw Hfuel.
  destruct (follow_failure_spec h Hwf c fuel cur w Hw) as (y & ny & Hy & Hny & Hres).
  { intros p w' Hp _. apply Hlinked. by eapply label_lt. }
  { pose proof (label_depth h Hwf _ _ Hw). pose proof (label_lt h Hwf _ _ Hw). lia. }
  set (next := match map_find c (children ny) with Some x => x | None => y end).
  assert (∃ v, label h next v ∧ is_ls h (w ++ [c]) v) as (v & Hv & Hls).
  { unfold next. destruct (map_find c (children ny)) as [z|]; [done|].
    destruct Hres as [-> Hls]. by exists []. }
  destruct (label_is_Some h Hwf _ _ Hv) as [nn Hnn].
  destruct (out_chain_at h Hwf Hlinked next v nn Hv Hnn) as (l & Hc & Hd & Hlen & _).
  exists next, v, nn, l. split_and!; [|done..| |done].
  - unfold search_step. rewrite Hy. simpl. rewrite (load_Some _ _ _ Hny). simpl.
    fold next. rewrite (collect_outputs_chain h _ _ Hc) by lia. done.
  - inversion Hc; subst. congruence.
Qed.

(** On a text of at most [int_max] symbols the counter is the position. *)
Lemma search_loop_spec fuel : ∀ text T cur w ms,
  label h cur w → is_ls h T w → length h ≤ fuel →
  (Z.of_nat (length T + length text) ≤ int_max)%Z →
  ∃ res, search_loop fuel h 0 text (Z.of_nat (length T)) cur ms = Ret (ms ++ res) ∧
         scanned h T text res.
Proof.
  induction text as [|c text IH]; intros T cur w ms Hw Hls Hfuel Hmax.
  - exists []. split; [by rewrite app_nil_r|constructor].
  - destruct (search_step_spec fuel cur w c (Z.of_nat (length T)) ms Hw Hfuel)
      as (next & v & nn & l & Hstep & Hv & Hlsv & Hnn & Hc & Hd).
    assert (is_ls h (T ++ [c]) v) as Hls' by by eapply is_ls_step.
    destruct (IH (T ++ [c]) next v (ms ++ emits h (next :: l) (Z.of_nat (length T))) Hv Hls' Hfuel)
      as (res & Hloop & Hsc).
    { rewrite length_app. simpl in *. lia. }
    exists (emits h (next :: l) (Z.of_nat (length T)) ++ res). split.
    + simpl. replace (Z.of_nat (length T) <? 0)%Z with false by (symmetry; apply Z.ltb_ge; lia).
      rewrite Hstep. simpl.
      replace (to_int (Z.of_nat (length T) + 1)) with (Z.of_nat (length (T ++ [c]))).
      * rewrite Hloop. by rewrite <- app_assoc.
      * rewrite length_app. unfold to_int, int_max in *. simpl in *.
        rewrite Z.mod_small by lia. lia.
    + by econstructor.
Qed.

(** Whatever the length of the text, the scan returns, and what it pushes
    are pattern indices held by states of the trie. *)
Lemma search_loop_returns fuel : ∀ text i cur w ms,
  label h cur w → length h ≤ fuel →
  ∃ res, search_loop fuel h 0 text i cur ms = Ret (ms ++ res) ∧
         ∀ x, x ∈ res → ∃ a, x.1 ∈ pats_at h a.
Proof.
  induction text as [|c text IH]; intros i cur w ms Hw Hfuel.
  - exists []. split; [by rewrite app_nil_r|by intros x ?%elem_of_nil].
  - simpl. destruct (i <? 0)%Z.
    { exists []. split; [by rewrite app_nil_r|by intros x ?%elem_of_nil]. }
    destruct (search_step_spec fuel cur w c i ms Hw Hfuel)
      as (next & v & nn & l & Hstep & Hv & _).
    destruct (IH (to_int (i + 1)) next v (ms ++ emits h (next :: l) i) Hv Hfuel)
      as (res & Hloop & Hres).
    exists (emits h (next :: l) i ++ res). rewrite Hstep. simpl. rewrite Hloop.
    split; [by rewrite <- app_assoc|].
    intros x [Hx|Hx]%elem_of_app; [|by apply Hres].
    apply elem_of_emits in Hx as (a & _ & Ha & _). by exists a.
Qed.
Lemma current_after_spec fuel : ∀ text T cur w,
  label h cur w → is_ls h T w → length h ≤ fuel →
  ∃ a v, current_after fuel h 0 text cur = Ret a ∧ label h a v ∧ is_ls h (T ++ text) v.
Proof.
  induction text as [|c text IH]; intros T cur w Hw Hls Hfuel.
  - exists cur, w. by rewrite app_nil_r.
  - destruct (search_step_spec fuel cur w c 0%Z [] Hw Hfuel)
      as (next & v & nn & l & Hstep & Hv & Hlsv & _).
    assert (is_ls h (T ++ [c]) v) as Hls' by by eapply is_ls_step.
    destruct (IH (T ++ [c]) next v Hv Hls' Hfuel) as (a & va & Ha & Hva & Hlsa).
    exists a, va. simpl. rewrite Hstep. simpl. rewrite <- app_assoc in Hlsa. done.
Qed.
End search_facts.

Section scanned_facts.
Context (h : arena).

Lemma scanned_range T text res x :
  scanned h T text res → x ∈ res →
  (Z.of_nat (length T) ≤ x.2 < Z.of_nat (length T + length text))%Z.
Proof.
  induction 1 as [|T c text a v n l res Ha Hls Hn Hc Hd Hsc IH]; [by intros ?%elem_of_nil|].
  intros [Hx|Hx]%elem_of_app.
  - apply elem_of_emits in Hx as (_ & _ & _ & ->). simpl. lia.
  - apply IH in Hx. rewrite length_app in Hx. simpl in *. lia.
Qed.

Lemma filter_emits_eq l i : filter (λ x : Z * Z, x.2 = i) (emits h l i) = emits h l i.
Proof.
  assert (∀ r : list (Z * Z), (∀ x, x ∈ r → x.2 = i) → filter (λ x : Z * Z, x.2 = i) r = r) as H.
  { induction r as [|y r IHr]; intros Hr; [done|].
    rewrite filter_cons_True by (apply Hr, elem_of_cons; by left).
    f_equal. apply IHr. intros x Hx. apply Hr, elem_of_cons. by right. }
  apply H. by intros x (_ & _ & _ & ?)%elem_of_emits.
Qed.

Lemma filter_none {A} (P : A → Prop) `{∀ x, Decision (P x)} (r : list A) :
  (∀ x, x ∈ r → ¬ P x) → filter P r = [].
Proof.
  intros Hr. apply elem_of_nil_inv. intros x [HP Hx]%list_elem_of_filter. by apply (Hr x).
Qed.

(** The matches with end position [length T + m] are those of the [m]-th
    step, in the order of its output chain. *)
Lemma scanned_at T text res :
  scanned h T text res → ∀ m, m < length text →
  ∃ a v n l, label h a v ∧ is_ls h (T ++ take (S m) text) v ∧ h !! a = Some n ∧
             out_chain h (outputLink n) l ∧ descending h v l ∧
             filter (λ x : Z * Z, x.2 = Z.of_nat (length T + m)) res =
             emits h (a :: l) (Z.of_nat (length T + m)).
Proof.
  induction 1 as [|T c text a v n l res Ha Hls Hn Hc Hd Hsc IH]; intros m Hm;
    [simpl in Hm; lia|].
  rewrite filter_app. destruct m as [|m].
  - exists a, v, n, l. rewrite Nat.add_0_r. simpl. rewrite take_0.
    split_and!; [done..|].
    rewrite filter_emits_eq, filter_none, app_nil_r; [done|].
    intros x Hx%(scanned_range _ _ _ _ Hsc). rewrite length_app in Hx. simpl in Hx. lia.
  - destruct (IH m) as (a' & v' & n' & l' & Ha' & Hls' & Hn' & Hc' & Hd' & Hf);
      [simpl in Hm; lia|].
    exists a', v', n', l'.
    rewrite length_app in Hf. simpl in Hf.
    replace (length T + 1 + m) with (length T + S m) in Hf by lia.
    rewrite <- app_assoc in Hls'. split_and!; [done..|].
    rewrite filter_none; [done|].
    intros x (_ & _ & _ & ->)%elem_of_emits. lia.
Qed.

Lemma scanned_sorted T text res :
  scanned h T text res → StronglySorted (λ x y : Z * Z, (x.2 ≤ y.2)%Z) res.
Proof.
  induction 1 as [|T c text a v n l res Ha Hls Hn Hc Hd Hsc IH]; [constructor|].
  apply StronglySorted_app_2; [| |done].
  - intros x y (_ & _ & _ & ->)%elem_of_emits Hy%(scanned_range _ _ _ _ Hsc).
    rewrite length_app in Hy. simpl in Hy. lia.
  - generalize (emits h (a :: l) (Z.of_nat (length T))),
      (λ x, proj1 (elem_of_emits h (a :: l) (Z.of_nat (length T)) x)).
    intros r Hr. induction r as [|y r IHr]; constructor.
    + apply IHr. intros x Hx. apply Hr, elem_of_cons. by right.
    + apply Forall_forall. intros x Hx.
      destruct (Hr y) as (_ & _ & _ & ->); [apply elem_of_cons; by left|].
      destruct (Hr x) as (_ & _ & _ & ->); [apply elem_of_cons; by right|]. done.
Qed.
End scanned_facts.

(** * The automaton of a pattern list *)

Lemma total_length_app ps1 ps2 :
  total_length (ps1 ++ ps2) = total_length ps1 + total_length ps2.
Proof. induction ps1 as [|p ps1 IH]; simpl; lia. Qed.

Lemma add_walk_length pat : ∀ (h : arena) cur h' t,
  add_walk h cur pat = Ret (h', t) → length h' ≤ length h + length pat.
Proof.
  induction pat as [|ch rest IH]; intros h cur h' t; simpl.
  - intros [= <- <-]. lia.
  - unfold load, deref. destruct (h !! cur) as [node|]; [|done]. simpl.
    destruct (map_find ch (children node)) as [next|].
    + intros Hw%IH. lia.
    + intros Hw%IH. rewrite length_insert, length_app in Hw. simpl in Hw. lia.
Qed.

Lemma addPattern_length p ac r ac' :
  addPattern p ac = Ret (r, ac') → length (heap ac') ≤ length (heap ac) + length p.
Proof.
  unfold addPattern.
  destruct (add_walk (heap ac) (root ac) p) as [[h t]| |] eqn:Hw; [|done..]. simpl.
  unfold load, deref. destruct (h !! t) as [node|]; [|done]. simpl.
  intros [= <- <-]. simpl. rewrite length_insert. by eapply add_walk_length.
Qed.

Lemma addPatterns_length ps : ∀ ac ac',
  addPatterns ps ac = Ret ac' → length (heap ac') ≤ length (heap ac) + total_length ps.
Proof.
  induction ps as [|p ps IH]; intros ac ac'; simpl.
  - intros [= <-]. lia.
  - destruct (addPattern p ac) as [[[] ac1]| |] eqn:Hadd; [|done..]. simpl.
    intros H%IH. apply addPattern_length in Hadd. lia.
Qed.

Lemma addPatterns_new pats :
  ∃ ac, addPatterns pats AhoCorasick_new = Ret ac ∧ ac_inv pats ac ∧
        length (heap ac) ≤ trie_bound pats.
Proof.
  destruct (addPatterns_spec pats [] AhoCorasick_new new_inv) as (ac & Hadd & Hinv).
  exists ac. split_and!; [done..|]. apply addPatterns_length in Hadd. simpl in Hadd.
  unfold trie_bound. lia.
Qed.

Lemma automaton_spec fuel pats :
  trie_bound pats ≤ fuel →
  ∃ ac, automaton fuel pats = Ret ac ∧ built pats ac ∧ length (heap ac) ≤ fuel.
Proof.
  intros Hfuel. destruct (addPatterns_new pats) as (ac & Hadd & Hinv & Hlen).
  destruct (buildFailureLinks_spec fuel pats ac Hinv) as (ac' & Hb & Hbuilt & Hst); [lia|].
  exists ac'. unfold automaton. rewrite Hadd. simpl. rewrite Hb. simpl.
  split_and!; [done..|]. rewrite <- (same_shape_length (heap ac) (heap ac')) by apply Hst. lia.
Qed.

Lemma search_spec fuel pats ac text :
  built pats ac → length (heap ac) ≤ fuel → (Z.of_nat (length text) ≤ int_max)%Z →
  ∃ res, search fuel ac text = Ret res ∧ scanned (heap ac) [] text res.
Proof.
  intros [Hr Hp Hwf Hfor Hl] Hfuel Hmax. unfold search. rewrite Hr.
  destruct (search_loop_spec (heap ac) Hwf Hl fuel text [] 0 [] []) as (res & Hres & Hsc);
    [done|by apply is_ls_self; exists 0|done|done|].
  by exists res.
Qed.

Lemma search_returns fuel pats ac text :
  built pats ac → length (heap ac) ≤ fuel →
  ∃ res, search fuel ac text = Ret res ∧ ∀ x, x ∈ res → ∃ a, x.1 ∈ pats_at (heap ac) a.
Proof.
  intros [Hr Hp Hwf Hfor Hl] Hfuel. unfold search. rewrite Hr.
  destruct (search_loop_returns (heap ac) Hwf Hl fuel text 0%Z 0 [] [])
    as (res & Hres & Hin); [apply label_nil|done|].
  by exists res.
Qed.

Lemma run_spec fuel pats text :
  trie_bound pats ≤ fuel → (Z.of_nat (length text) ≤ int_max)%Z →
  ∃ ac res, automaton fuel pats = Ret ac ∧ built pats ac ∧
            search fuel ac text = Ret res ∧ run fuel pats text = Ret res ∧
            scanned (heap ac) [] text res.
Proof.
  intros Hfuel Hmax. destruct (automaton_spec fuel pats Hfuel) as (ac & Ha & Hb & Hlen).
  destruct (search_spec fuel pats ac text Hb Hlen Hmax) as (res & Hs & Hsc).
  exists ac, res. unfold run. rewrite Ha. simpl. by rewrite Hs.
Qed.

(** * Facts about the built automaton and its scans *)

Lemma buildFailureLinks_patterns fuel ac r ac' :
  buildFailureLinks fuel ac = Ret (r, ac') → patterns ac' = patterns ac ∧ root ac' = root ac.
Proof.
  unfold buildFailureLinks.
  destruct (load (heap ac) (root ac)) as [rt| |]; [|done..]. simpl.
  destruct (init_children _ _ _ _) as [[h q]| |]; [|done..]. simpl.
  destruct (bfs _ _ _ _ _) as [h'| |]; [|done..]. simpl.
  by intros [= <- <-].
Qed.

Lemma int_of_size_small n : (Z.of_nat n ≤ int_max)%Z → int_of_size n = Z.of_nat n.
Proof.
  unfold int_of_size, to_int, int_max. intros H. rewrite Z.mod_small; lia.
Qed.

Lemma scanned_no_patterns h T text res :
  (∀ a, pats_at h a = []) → scanned h T text res → res = [].
Proof.
  intros Hp. induction 1 as [|T c text a v n l res Ha Hls Hn Hc Hd Hsc IH]; [done|].
  rewrite IH, app_nil_r. apply elem_of_nil_inv. intros x (a' & _ & Hx & _)%elem_of_emits.
  rewrite Hp in Hx. by apply elem_of_nil in Hx.
Qed.

Lemma scanned_single_empty ac T text res :
  built [[]] ac → scanned (heap ac) T text res →
  res = (λ j, (0%Z, Z.of_nat (length T + j))) <$> seq 0 (length text).
Proof.
  intros Hb. pose proof (b_wf _ _ Hb) as Hwf.
  assert (∀ a v, label (heap ac) a v → a = 0 ∧ v = []) as Honly.
  { intros a v Ha.
    assert (v = []) as ->.
    { destruct (proj1 (tf_words _ _ (b_for _ _ Hb) v)) as [?|(p & Hp & Hpre)];
        [by exists a|done|].
      apply list_elem_of_singleton in Hp as ->. by apply prefix_nil_inv. }
    split; [|done]. by eapply label_fun. }
  induction 1 as [|T c text a v n l res Ha Hls Hn Hc Hd Hsc IH]; [done|].
  destruct (Honly a v Ha) as [-> ->].
  apply descending_length in Hd. destruct l; [|simpl in Hd; lia].
  assert (emits (heap ac) [0] (Z.of_nat (length T)) = [(0%Z, Z.of_nat (length T))]) as ->.
  { unfold emits. simpl. unfold pats_at. rewrite Hn.
    by rewrite (tf_indices _ _ (b_for _ _ Hb) [] 0 n). }
  rewrite IH. simpl. rewrite Nat.add_0_r. f_equal.
  rewrite <- fmap_S_seq, <- list_fmap_compose. apply list_fmap_ext.
  intros i j _. simpl. rewrite length_app. simpl. do 2 f_equal. lia.
Qed.

Lemma in_trie_pattern_prefix pats h v :
  trie_for pats h → pats ≠ [] → in_trie h v ↔ pattern_prefix pats v.
Proof.
  intros Hfor Hne. rewrite (tf_words _ _ Hfor). split; [|by right].
  intros [->|?]; [|done]. destruct pats as [|p pats]; [done|].
  exists p. split; [apply list_elem_of_here|apply prefix_nil].
Qed.

Lemma is_lps_patterns pats h w u :
  trie_for pats h → in_trie h w → is_lps h w u →
  u `suffix_of` w ∧ length u < length w ∧ pattern_prefix pats u ∧
  ∀ v, v `suffix_of` w → length v < length w → pattern_prefix pats v → length v ≤ length u.
Proof.
  intros Hfor Hw (Hs & Hlt & Hu & Hmax).
  assert (pats ≠ []) as Hne.
  { intros ->. apply (tf_words _ _ Hfor) in Hw as [->|(p & []%elem_of_nil & _)].
    simpl in Hlt. lia. }
  split_and!; [done..|by apply (in_trie_pattern_prefix pats h)|].
  intros v Hv Hvlt Hpp. apply Hmax; [done..|]. by apply (in_trie_pattern_prefix pats h).
Qed.

Lemma fail_iter_root h : trie_wf h → (∀ p, p < length h → linked h p) →
  ∀ k p w, length w ≤ k → label h p w → ∃ j, j ≤ length w ∧ fail_iter h j p = Some 0.
Proof.
  intros Hwf Hl. induction k as [|k IH]; intros p w Hk Hw.
  - destruct w; [|simpl in Hk; lia]. exists 0. split; [done|]. simpl. f_equal.
    by eapply label_fun.
  - destruct (Hl p (label_lt h Hwf _ _ Hw))
      as (n & w' & f & nf & u & Hn & Hw' & Hfl & Hnf & Hu & Hcase).
    assert (w' = w) as -> by by eapply label_inj.
    destruct Hcase as [(-> & _)|((_ & Hlt & _) & _)].
    + exists 0. split; [done|]. simpl. f_equal. by eapply label_fun.
    + destruct (IH f u) as (j & Hj & Hit); [lia|done|].
      exists (S j). split; [lia|]. simpl. by rewrite Hn, Hfl.
Qed.

Section built_facts.
Context (pats : list str) (ac : AhoCorasick) (Hb : built pats ac).

Lemma elem_of_pats_at a v k :
  label (heap ac) a v →
  k ∈ pats_at (heap ac) a ↔ ∃ i, pats !! i = Some v ∧ k = int_of_size i.
Proof.
  intros Ha. destruct (label_is_Some _ (b_wf _ _ Hb) _ _ Ha) as [n Hn].
  unfold pats_at. rewrite Hn, (tf_indices _ _ (b_for _ _ Hb) v a n Ha Hn).
  unfold indices_of. rewrite list_elem_of_fmap. split.
  - intros (i & -> & [_ Hi]%elem_of_positions). rewrite Nat.sub_0_r in Hi. eauto.
  - intros (i & Hi & ->). exists i. split; [done|].
    apply elem_of_positions. rewrite Nat.sub_0_r. split; [lia|done].
Qed.

Lemma pattern_state i p :
  pats !! i = Some p →
  ∃ t n, label (heap ac) t p ∧ heap ac !! t = Some n ∧
         int_of_size i ∈ patternIndices n.
Proof.
  intros Hi.
  assert (in_trie (heap ac) p) as [t Ht].
  { apply (tf_words _ _ (b_for _ _ Hb)). right. exists p. split; [|done].
    by eapply list_elem_of_lookup_2. }
  destruct (label_is_Some _ (b_wf _ _ Hb) _ _ Ht) as [n Hn].
  exists t, n. split_and!; [done..|].
  assert (int_of_size i ∈ pats_at (heap ac) t) as Hin
    by (apply (elem_of_pats_at t p); eauto).
  unfold pats_at in Hin. by rewrite Hn in Hin.
Qed.

(** The indices pushed while walking a chain from a state of prefix [w]
    belong to patterns that are suffixes of [w]; every non-empty such
    pattern is among them. *)
Lemma chain_indices_sound a w l k :
  label (heap ac) a w → descending (heap ac) w l →
  k ∈ (a :: l) ≫= pats_at (heap ac) →
  ∃ i p, pats !! i = Some p ∧ k = int_of_size i ∧ p `suffix_of` w.
Proof.
  intros Ha Hd (x & Hk & [->|Hx]%elem_of_cons)%list_elem_of_bind.
  - apply (elem_of_pats_at a w) in Hk as (i & Hi & ->); [|done]. by exists i, w.
  - destruct (descending_elem _ _ _ _ Hd Hx) as (v & nx & Hv & Hs & _).
    apply (elem_of_pats_at x v) in Hk as (i & Hi & ->); [|done]. by exists i, v.
Qed.

Lemma chain_indices_complete a w n l i p :
  label (heap ac) a w → heap ac !! a = Some n → out_chain (heap ac) (outputLink n) l →
  pats !! i = Some p → p ≠ [] → p `suffix_of` w →
  int_of_size i ∈ (a :: l) ≫= pats_at (heap ac).
Proof.
  intros Ha Hn Hc Hi Hp Hs.
  destruct (out_chain_at _ (b_wf _ _ Hb) (b_linked _ _ Hb) a w n Ha Hn)
    as (l' & Hc' & _ & _ & Hcompl).
  inversion Hc' as [|a' n' l'' Hn' Hc'']; subst.
  assert (n' = n) as -> by congruence.
  rewrite (out_chain_fun _ _ _ _ Hc Hc'').
  destruct (pattern_state i p Hi) as (t & nt & Ht & Hnt & Hin).
  apply list_elem_of_bind. exists t. split.
  - unfold pats_at. by rewrite Hnt.
  - eapply Hcompl; [done..|]. intros Hnil. rewrite Hnil in Hin. by apply elem_of_nil in Hin.
Qed.
End built_facts.

Lemma occurs_at_suffix p text m :
  m < length text →
  occurs_at p text (Z.of_nat m) ↔ p `suffix_of` take (S m) text.
Proof.
  intros Hm. unfold occurs_at. rewrite Nat2Z.id. split.
  - intros (_ & Hlen & Heq). exists (take (S m - length p) text).
    rewrite <- Heq at 2. rewrite take_take_drop. f_equal. lia.
  - intros [k Hk]. split; [lia|].
    assert (length (take (S m) text) = S m) as Hl by (rewrite length_take; lia).
    rewrite Hk, length_app in Hl. split; [lia|].
    rewrite <- (take_drop (S m) text), Hk.
    replace (S m - length p) with (length k) by lia.
    rewrite <- app_assoc, drop_app_length. apply take_app_length.
Qed.

Section match_facts.
Context (pats : list str) (ac : AhoCorasick) (Hb : built pats ac).
Context (text : str) (res : list (Z * Z)).
Context (Hsc : scanned (heap ac) [] text res).

(** Every pair reported is an occurrence. *)
Lemma match_sound k j :
  (k, j) ∈ res →
  ∃ i p, k = int_of_size i ∧ pats !! i = Some p ∧ occurs_at p text j.
Proof.
  intros Hin. pose proof (scanned_range _ _ _ _ _ Hsc Hin) as Hr. simpl in Hr.
  assert (j = Z.of_nat (Z.to_nat j)) as Hj by lia.
  destruct (scanned_at _ _ _ _ Hsc (Z.to_nat j)) as (a & v & n & l & Ha & Hls & Hn & Hc & Hd & Hf);
    [lia|].
  simpl in Hf, Hls. rewrite <- Hj in Hf.
  assert ((k, j) ∈ emits (heap ac) (a :: l) j) as Hem.
  { rewrite <- Hf. by apply list_elem_of_filter. }
  apply elem_of_emits in Hem as (x & Hx & Hk & _). simpl in Hk.
  destruct (chain_indices_sound pats ac Hb a v l k Ha Hd) as (i & p & Hi & -> & Hs).
  { apply list_elem_of_bind. eauto. }
  exists i, p. split_and!; [done..|]. rewrite Hj. apply occurs_at_suffix; [lia|].
  etrans; [done|]. apply Hls.
Qed.

(** Every occurrence of a non-empty pattern is reported. *)
Lemma match_complete i p j :
  pats !! i = Some p → p ≠ [] → occurs_at p text j → (int_of_size i, j) ∈ res.
Proof.
  intros Hi Hp Hocc. pose proof Hocc as (Hr & _).
  assert (j = Z.of_nat (Z.to_nat j)) as Hj by lia.
  rewrite Hj in Hocc. apply occurs_at_suffix in Hocc; [|lia].
  destruct (scanned_at _ _ _ _ Hsc (Z.to_nat j)) as (a & v & n & l & Ha & Hls & Hn & Hc & Hd & Hf);
    [lia|].
  simpl in Hf, Hls. rewrite <- Hj in Hf.
  assert ((int_of_size i, j) ∈ filter (λ x : Z * Z, x.2 = j) res) as Hin; [|by apply list_elem_of_filter in Hin as [_ ?]].
  rewrite Hf. apply elem_of_emits.
  assert (p `suffix_of` v) as Hpv.
  { destruct Hls as (Hvs & _ & Hmax). apply (suffix_shorter _ _ (take (S (Z.to_nat j)) text)); [done..|].
    apply Hmax; [done|].
    destruct (pattern_state pats ac Hb i p Hi) as (t & _ & Ht & _). by exists t. }
  pose proof (chain_indices_complete pats ac Hb a v n l i p Ha Hn Hc Hi Hp Hpv) as Hk.
  apply list_elem_of_bind in Hk as (x & Hk & Hx). by exists x.
Qed.
End match_facts.

Lemma positions_NoDup w ps i0 : NoDup (positions w ps i0).
Proof.
  revert i0. induction ps as [|p ps IH]; intros i0; simpl; [apply NoDup_nil_2|].
  destruct (decide (p = w)); simpl; [|apply IH].
  apply NoDup_cons. split; [|apply IH]. intros [Hle _]%elem_of_positions. lia.
Qed.

Lemma positions_length w ps i0 :
  length (positions w ps i0) = length (filter (λ q, q = w) ps).
Proof.
  revert i0. induction ps as [|p ps IH]; intros i0; simpl; [done|].
  rewrite filter_cons. destruct (decide (p = w)); simpl; by rewrite IH.
Qed.

Lemma filter_all {A} (P : A → Prop) `{∀ x, Decision (P x)} (r : list A) :
  (∀ x, x ∈ r → P x) → filter P r = r.
Proof.
  induction r as [|y r IHr]; intros Hr; [done|].
  rewrite filter_cons_True by (apply Hr, elem_of_cons; by left).
  f_equal. apply IHr. intros x Hx. apply Hr, elem_of_cons. by right.
Qed.

Section index_facts.
Context (pats : list str) (ac : AhoCorasick) (Hb : built pats ac).
Context (Hfit : (Z.of_nat (length pats) ≤ int_max)%Z).

Lemma index_small i p : pats !! i = Some p → int_of_size i = Z.of_nat i.
Proof. intros Hi%lookup_lt_Some. apply int_of_size_small. lia. Qed.

Lemma index_inj i i' p p' :
  pats !! i = Some p → pats !! i' = Some p' → int_of_size i = int_of_size i' → i = i'.
Proof.
  intros Hi Hi'. rewrite (index_small i p Hi), (index_small i' p' Hi'). lia.
Qed.

Lemma getPattern_index i p : pats !! i = Some p → getPattern ac (int_of_size i) = p.
Proof.
  intros Hi. rewrite (index_small i p Hi). unfold getPattern.
  rewrite (b_patterns _ _ Hb). pose proof (lookup_lt_Some _ _ _ Hi).
  rewrite andb_true_intro by (split; [apply Z.leb_le|apply Z.ltb_lt]; lia).
  by rewrite Nat2Z.id, nth_lookup, Hi.
Qed.

(** An index is on one state only. *)
Lemma index_state a v a' v' k :
  label (heap ac) a v → label (heap ac) a' v' →
  k ∈ pats_at (heap ac) a → k ∈ pats_at (heap ac) a' → a = a'.
Proof.
  intros Ha Ha' (i & Hi & ->)%(elem_of_pats_at pats ac Hb a v _ Ha)
    (i' & Hi' & Heq)%(elem_of_pats_at pats ac Hb a' v' _ Ha').
  pose proof (index_inj _ _ _ _ Hi Hi' Heq) as ->.
  assert (v = v') as -> by congruence. by eapply label_fun.
Qed.

Lemma pats_at_NoDup a v : label (heap ac) a v → NoDup (pats_at (heap ac) a).
Proof.
  intros Ha. destruct (label_is_Some _ (b_wf _ _ Hb) _ _ Ha) as [n Hn].
  unfold pats_at. rewrite Hn, (tf_indices _ _ (b_for _ _ Hb) v a n Ha Hn).
  apply NoDup_fmap_2_strong; [|apply positions_NoDup].
  intros i i' [_ Hi]%elem_of_positions [_ Hi']%elem_of_positions.
  rewrite Nat.sub_0_r in Hi, Hi'. by eapply index_inj.
Qed.

Lemma chain_labelled a v l x :
  label (heap ac) a v → descending (heap ac) v l → x ∈ a :: l →
  ∃ vx, label (heap ac) x vx.
Proof.
  intros Ha Hd [->|Hx]%elem_of_cons; [by exists v|].
  destruct (descending_elem _ _ _ _ Hd Hx) as (vx & _ & ? & _). by exists vx.
Qed.

Lemma chain_NoDup a v l :
  label (heap ac) a v → descending (heap ac) v l → NoDup (a :: l).
Proof.
  intros Ha Hd. apply NoDup_cons. split; [|by eapply descending_NoDup, Hd; apply Hb].
  intros Hin. destruct (descending_elem _ _ _ _ Hd Hin) as (v' & _ & Hv' & _ & Hlt & _).
  rewrite (label_inj _ (b_wf _ _ Hb) a v v') in Hlt by done. lia.
Qed.

Lemma emits_NoDup a v l j :
  label (heap ac) a v → descending (heap ac) v l → NoDup (emits (heap ac) (a :: l) j).
Proof.
  intros Ha Hd. unfold emits. apply NoDup_bind; [| |by eapply chain_NoDup].
  - intros x1 x2 y Hx1 Hx2 (k1 & -> & Hk1)%list_elem_of_fmap (k2 & [= <-] & Hk2)%list_elem_of_fmap.
    destruct (chain_labelled a v l x1 Ha Hd Hx1) as [v1 Hv1].
    destruct (chain_labelled a v l x2 Ha Hd Hx2) as [v2 Hv2].
    by eapply index_state.
  - intros x Hx. destruct (chain_labelled a v l x Ha Hd Hx) as [vx Hvx].
    apply NoDup_fmap_2_strong; [|by eapply pats_at_NoDup].
    by intros k k' _ _ [= ->].
Qed.

Lemma scanned_NoDup T text res : scanned (heap ac) T text res → NoDup res.
Proof.
  induction 1 as [|T c text a v n l res Ha Hls Hn Hc Hd Hsc IH]; [apply NoDup_nil_2|].
  apply NoDup_app. split_and!; [by eapply emits_NoDup| |done].
  intros x (_ & _ & _ & Hx)%elem_of_emits Hin%(scanned_range _ _ _ _ _ Hsc).
  rewrite length_app in Hin. simpl in Hin. lia.
Qed.

(** Two indices pushed on the same state are reported together. *)
Lemma same_state_reported text res t p k1 k2 j :
  scanned (heap ac) [] text res → label (heap ac) t p →
  k1 ∈ pats_at (heap ac) t → k2 ∈ pats_at (heap ac) t →
  (k1, j) ∈ res → (k2, j) ∈ res.
Proof.
  intros Hsc Ht Hk1 Hk2 Hin.
  pose proof (scanned_range _ _ _ _ _ Hsc Hin) as Hr. simpl in Hr.
  assert (j = Z.of_nat (Z.to_nat j)) as Hj by lia.
  destruct (scanned_at _ _ _ _ Hsc (Z.to_nat j)) as (a & v & n & l & Ha & Hls & Hn & Hc & Hd & Hf);
    [lia|].
  simpl in Hf. rewrite <- Hj in Hf.
  assert ((k1, j) ∈ emits (heap ac) (a :: l) j) as Hem.
  { rewrite <- Hf. by apply list_elem_of_filter. }
  apply elem_of_emits in Hem as (x & Hx & Hk & _). simpl in Hk.
  destruct (chain_labelled a v l x Ha Hd Hx) as [vx Hvx].
  assert (x = t) as -> by by eapply index_state.
  assert ((k2, j) ∈ filter (λ x : Z * Z, x.2 = j) res) as Hin2;
    [|by apply list_elem_of_filter in Hin2 as [_ ?]].
  rewrite Hf. apply elem_of_emits. by exists t.
Qed.

(** Among the pairs pushed along a chain, those whose pattern is [p] are
    the ones of the state of [p]. *)
Lemma filter_emits_content t p j : label (heap ac) t p → ∀ chain,
  (∀ x, x ∈ chain → ∃ vx, label (heap ac) x vx) → NoDup chain →
  filter (λ x : Z * Z, getPattern ac x.1 = p) (emits (heap ac) chain j) =
  if decide (t ∈ chain) then (λ k, (k, j)) <$> pats_at (heap ac) t else [].
Proof.
  intros Ht. induction chain as [|x chain IH]; intros Hlab Hnd.
  - rewrite decide_False; [done|]. apply not_elem_of_nil.
  - apply NoDup_cons in Hnd as [Hx Hnd].
    rewrite emits_cons, filter_app, IH; [|intros y Hy; apply Hlab, elem_of_cons; by right|done].
    destruct (Hlab x) as [vx Hvx]; [apply elem_of_cons; by left|].
    assert (∀ y, y ∈ (λ k, (k, j)) <$> pats_at (heap ac) x → getPattern ac y.1 = vx) as Hcontent.
    { intros y (k & -> & Hk)%list_elem_of_fmap. simpl.
      apply (elem_of_pats_at pats ac Hb x vx k Hvx) in Hk as (i & Hi & ->).
      by apply getPattern_index. }
    destruct (decide (x = t)) as [->|Hne].
    + assert (vx = p) as -> by by eapply label_inj, Ht; [apply Hb|].
      rewrite filter_all by done.
      rewrite (decide_True (P := t ∈ t :: chain)) by (apply elem_of_cons; by left).
      rewrite decide_False by done. by rewrite app_nil_r.
    + rewrite filter_none.
      * simpl. apply decide_ext. rewrite elem_of_cons.
        split; [by right|]. by intros [->|?].
      * intros y Hy Hp. apply Hne. apply Hcontent in Hy. rewrite Hy in Hp.
        rewrite Hp in Hvx. exact (label_fun _ _ _ _ Hvx Ht).
Qed.
End index_facts.

(** * The properties of the specification *)

(** C1 (as the code has it).  After all insertions and one build, for every
    text: every pair [(i, j)] returned by [search] is an occurrence
    (patterns[i] occurs in the text ending at [j]); for every non-empty
    patterns[i], [search] returns [(i, j)] if and only if patterns[i] occurs
    ending at [j]; no pair is returned twice, so that the pairs ending at [j]
    whose pattern has the content of an occurring non-empty pattern are as
    many as the insertions of that content, one for each of its indices.
    (The pattern indices and the end positions are [int]s: the number of
    patterns and the length of the text are at most [int_max].) *)
Theorem search_reports_occurrences fuel (pats : list str) (text : str) :
  trie_bound pats ≤ fuel → (Z.of_nat (length pats) ≤ int_max)%Z →
  (Z.of_nat (length text) ≤ int_max)%Z →
  ∃ ac res,
    automaton fuel pats = Ret ac ∧ search fuel ac text = Ret res ∧
    (∀ i j, (i, j) ∈ res →
       ∃ k p, i = Z.of_nat k ∧ pats !! k = Some p ∧ occurs_at p text j) ∧
    (∀ k p j, pats !! k = Some p → p ≠ [] →
       (Z.of_nat k, j) ∈ res ↔ occurs_at p text j) ∧
    NoDup res ∧
    (∀ k p j, pats !! k = Some p → p ≠ [] → occurs_at p text j →
       length (filter (λ x : Z * Z, getPattern ac x.1 = p ∧ x.2 = j) res) =
       length (filter (λ q, q = p) pats)).
Proof.
  intros Hfuel Hfit Htext.
  destruct (run_spec fuel pats text Hfuel Htext) as (ac & res & Ha & Hb & Hs & _ & Hsc).
  exists ac, res. split_and!; [done..| | | |].
  - intros i j Hin.
    destruct (match_sound pats ac Hb text res Hsc i j Hin) as (k & p & -> & Hk & Hocc).
    exists k, p. split_and!; [|done..]. by eapply index_small.
  - intros k p j Hk Hp. split.
    + intros Hin.
      destruct (match_sound pats ac Hb text res Hsc _ j Hin) as (k' & p' & Heq & Hk' & Hocc).
      rewrite <- (index_small pats Hfit k p Hk) in Heq.
      pose proof (index_inj pats Hfit _ _ _ _ Hk Hk' Heq) as <-. congruence.
    + intros Hocc. rewrite <- (index_small pats Hfit k p Hk).
      by eapply match_complete.
  - by eapply scanned_NoDup.
  - intros k p j Hk Hp Hocc. pose proof Hocc as (Hr & _).
    assert (j = Z.of_nat (Z.to_nat j)) as Hj by lia.
    rewrite Hj in Hocc. apply occurs_at_suffix in Hocc; [|lia].
    destruct (scanned_at _ _ _ _ Hsc (Z.to_nat j))
      as (a & v & n & l & Hav & Hls & Hn & Hc & Hd & Hf); [lia|].
    simpl in Hf, Hls. rewrite <- Hj in Hf.
    rewrite <- list_filter_filter, Hf.
    destruct (pattern_state pats ac Hb k p Hk) as (t & nt & Ht & Hnt & Hin).
    rewrite (filter_emits_content pats ac Hb Hfit t p j Ht).
    + assert (p `suffix_of` v) as Hpv.
      { destruct Hls as (Hvs & _ & Hmax).
        apply (suffix_shorter _ _ (take (S (Z.to_nat j)) text)); [done..|].
        apply Hmax; [done|]. by exists t. }
      destruct (out_chain_at _ (b_wf _ _ Hb) (b_linked _ _ Hb) a v n Hav Hn)
        as (l' & Hc' & _ & _ & Hcompl).
      inversion Hc' as [|a' n' l'' Hn' Hc'']; subst.
      assert (n' = n) as -> by congruence.
      rewrite (out_chain_fun _ _ _ _ Hc Hc'').
      rewrite decide_True.
      * rewrite length_fmap. unfold pats_at.
        rewrite Hnt, (tf_indices _ _ (b_for _ _ Hb) p t nt Ht Hnt).
        unfold indices_of. by rewrite length_fmap, positions_length.
      * apply (Hcompl t p nt Ht Hp Hpv Hnt). intros Hnil. rewrite Hnil in Hin.
        by apply elem_of_nil in Hin.
    + intros x Hx. exact (chain_labelled ac a v l x Hav Hd Hx).
    + exact (chain_NoDup pats ac Hb a v l Hav Hd).
Qed.

Lemma search_reports_occurrences_witness :
  ∃ ac res,
    automaton 13 [s "he"; s "she"; s "his"; s "hers"] = Ret ac ∧
    search 13 ac (s "ushers") = Ret res ∧
    (∀ i j, (i, j) ∈ res →
       ∃ k p, i = Z.of_nat k ∧ [s "he"; s "she"; s "his"; s "hers"] !! k = Some p ∧
              occurs_at p (s "ushers") j) ∧
    (∀ k p j, [s "he"; s "she"; s "his"; s "hers"] !! k = Some p → p ≠ [] →
       (Z.of_nat k, j) ∈ res ↔ occurs_at p (s "ushers") j) ∧
    NoDup res ∧
    (∀ k p j, [s "he"; s "she"; s "his"; s "hers"] !! k = Some p → p ≠ [] →
       occurs_at p (s "ushers") j →
       length (filter (λ x : Z * Z, getPattern ac x.1 = p ∧ x.2 = j) res) =
       length (filter (λ q, q = p) [s "he"; s "she"; s "his"; s "hers"])).
Proof.
  apply (search_reports_occurrences 13).
  - unfold trie_bound. simpl. lia.
  - unfold int_max. simpl. lia.
  - unfold int_max. simpl. lia.
Defined.

(** C1, as stated, fails.  With the patterns [""], ["a"], ["a"] and the text
    ["a"], pattern 0 occurs ending at position 0 (the empty slice) and
    [search] returns no pair for it.  Read to the letter, the multiplicity
    fails too: the pair (1, 0) is returned once although the content ["a"]
    was inserted twice; the second insertion has its own pair (2, 0). *)
Lemma search_misses_empty_pattern :
  ∃ res,
    run 3 [[]; s "a"; s "a"] (s "a") = Ret res ∧
    (occurs_at [] (s "a") 0 ∧ (0%Z, 0%Z) ∉ res) ∧
    (occurs_at (s "a") (s "a") 0 ∧
     length (filter (λ x : Z * Z, x = (1%Z, 0%Z)) res) = 1 ∧
     length (filter (λ q, q = s "a") [[]; s "a"; s "a"]) = 2).
Proof.
  exists [(1%Z, 0%Z); (2%Z, 0%Z)]. split_and!; [done| | | |done..].
  - unfold occurs_at. simpl. split_and!; [lia..|done].
  - intros [[=]|[=]%list_elem_of_singleton]%elem_of_cons.
  - unfold occurs_at. simpl. split_and!; [lia..|done].
Qed.

(** C2.  The pairs returned by [search] are non-decreasing in end position;
    the pairs with end position [j] are the indices of the state reached
    after the symbol at [j] ([currentNode] then, the state whose prefix is
    the longest suffix of the text read so far that is in the trie),
    followed by those of the states of its output chain, whose prefixes are
    shorter and shorter suffixes.  (The end positions are [int]s: the text
    has at most [int_max] symbols.) *)
Theorem search_order fuel (pats : list str) (text : str) :
  trie_bound pats ≤ fuel → (Z.of_nat (length text) ≤ int_max)%Z →
  ∃ ac res,
    automaton fuel pats = Ret ac ∧ search fuel ac text = Ret res ∧
    StronglySorted (λ x y : Z * Z, (x.2 ≤ y.2)%Z) res ∧
    (∀ x, x ∈ res → (0 ≤ x.2 < Z.of_nat (length text))%Z) ∧
    ∀ j, j < length text →
      ∃ a v n l,
        current_after fuel (heap ac) (root ac) (take (S j) text) (root ac) = Ret a ∧
        label (heap ac) a v ∧ is_ls (heap ac) (take (S j) text) v ∧
        heap ac !! a = Some n ∧ out_chain (heap ac) (outputLink n) l ∧
        descending (heap ac) v l ∧
        filter (λ x : Z * Z, x.2 = Z.of_nat j) res = emits (heap ac) (a :: l) (Z.of_nat j).
Proof.
  intros Hfuel Hmax.
  destruct (run_spec fuel pats text Hfuel Hmax) as (ac & res & Ha & Hb & Hs & _ & Hsc).
  destruct (automaton_spec fuel pats Hfuel) as (ac' & Ha' & _ & Hlen).
  assert (ac' = ac) as -> by congruence.
  exists ac, res. split_and!; [done..|by eapply scanned_sorted| |].
  - intros x Hx. apply (scanned_range _ _ _ _ _ Hsc Hx).
  - intros j Hj.
    destruct (scanned_at _ _ _ _ Hsc j Hj) as (a & v & n & l & Hv & Hls & Hn & Hc & Hd & Hf).
    exists a, v, n, l. split_and!; [|done..].
    destruct (current_after_spec _ (b_wf _ _ Hb) (b_linked _ _ Hb) fuel
                (take (S j) text) [] 0 [] (label_nil _))
      as (a' & v' & Hrun & Hv' & Hls'); [by apply is_ls_self; exists 0|done|].
    rewrite (b_root _ _ Hb), Hrun. f_equal.
    simpl in Hls, Hls'. rewrite (is_ls_det _ _ _ _ Hls Hls') in Hv.
    by eapply label_fun.
Qed.

Lemma search_order_witness :
  ∃ ac res,
    automaton 7 [s "a"; s "ba"; s "cba"] = Ret ac ∧ search 7 ac (s "dcba") = Ret res ∧
    StronglySorted (λ x y : Z * Z, (x.2 ≤ y.2)%Z) res ∧
    (∀ x, x ∈ res → (0 ≤ x.2 < Z.of_nat (length (s "dcba")))%Z) ∧
    ∀ j, j < length (s "dcba") →
      ∃ a v n l,
        current_after 7 (heap ac) (root ac) (take (S j) (s "dcba")) (root ac) = Ret a ∧
        label (heap ac) a v ∧ is_ls (heap ac) (take (S j) (s "dcba")) v ∧
        heap ac !! a = Some n ∧ out_chain (heap ac) (outputLink n) l ∧
        descending (heap ac) v l ∧
        filter (λ x : Z * Z, x.2 = Z.of_nat j) res = emits (heap ac) (a :: l) (Z.of_nat j).
Proof.
  apply (search_order 7).
  - unfold trie_bound. simpl. lia.
  - unfold int_max. simpl. lia.
Defined.

(** C3.  After [buildFailureLinks], every state has a failure link; for a
    state other than the root it leads to the state whose prefix is the
    longest proper suffix of the state's prefix that is a prefix of some
    inserted pattern; for the root (which has no proper suffix) and for
    every state of depth one it leads to the root. *)
Theorem failure_links_correct fuel (pats : list str) :
  trie_bound pats ≤ fuel →
  ∃ ac, automaton fuel pats = Ret ac ∧
    ∀ p, p < length (heap ac) →
    ∃ n w f u,
      heap ac !! p = Some n ∧ label (heap ac) p w ∧
      failureLink n = Some f ∧ label (heap ac) f u ∧
      (length w ≤ 1 → f = root ac) ∧
      (w ≠ [] →
         u `suffix_of` w ∧ length u < length w ∧ pattern_prefix pats u ∧
         ∀ v, v `suffix_of` w → length v < length w → pattern_prefix pats v →
              length v ≤ length u).
Proof.
  intros Hfuel. destruct (automaton_spec fuel pats Hfuel) as (ac & Ha & Hb & _).
  exists ac. split; [done|]. intros p Hp.
  destruct (b_linked _ _ Hb p Hp) as (n & w & f & nf & u & Hn & Hw & Hfl & Hnf & Hu & Hcase).
  exists n, w, f, u. split_and!; [done..| |].
  - intros Hlen. rewrite (b_root _ _ Hb).
    assert (u = []) as ->; [|by eapply label_fun].
    destruct Hcase as [(_ & -> & _)|((_ & Hlt & _) & _)]; [done|].
    destruct u; [done|]. simpl in Hlt. lia.
  - intros Hne. destruct Hcase as [(-> & _)|(Hlps & _)]; [done|].
    eapply is_lps_patterns; [apply Hb| |done]. by exists p.
Qed.

Lemma failure_links_correct_witness :
  ∃ ac, automaton 13 [s "he"; s "she"; s "his"; s "hers"] = Ret ac ∧
    ∀ p, p < length (heap ac) →
    ∃ n w f u,
      heap ac !! p = Some n ∧ label (heap ac) p w ∧
      failureLink n = Some f ∧ label (heap ac) f u ∧
      (length w ≤ 1 → f = root ac) ∧
      (w ≠ [] →
         u `suffix_of` w ∧ length u < length w ∧
         pattern_prefix [s "he"; s "she"; s "his"; s "hers"] u ∧
         ∀ v, v `suffix_of` w → length v < length w →
              pattern_prefix [s "he"; s "she"; s "his"; s "hers"] v →
              length v ≤ length u).
Proof. apply (failure_links_correct 13). unfold trie_bound. simpl. lia. Defined.

(** C4 (as the code has it).  After [buildFailureLinks], the output link of
    every state of depth two or more is its failure link when that state has
    a non-empty [patternIndices], and the output link of its failure link
    otherwise; the root and the states of depth one have no output link,
    which is the same rule whenever no inserted pattern is empty.  Every
    output chain ends at an absent reference and holds only states with a
    non-empty [patternIndices].  Walking the chain from a state, the state
    included, gives only indices of patterns that are suffixes of the
    state's prefix, and the index of every non-empty such pattern: exactly
    the patterns that are suffixes of the prefix when no inserted pattern is
    empty. *)
Theorem output_links_correct fuel (pats : list str) :
  trie_bound pats ≤ fuel →
  ∃ ac, automaton fuel pats = Ret ac ∧
    ∀ p, p < length (heap ac) →
    ∃ n w f nf l,
      heap ac !! p = Some n ∧ label (heap ac) p w ∧
      failureLink n = Some f ∧ heap ac !! f = Some nf ∧
      (2 ≤ length w ∨ [] ∉ pats → outputLink n = out_of f nf) ∧
      (length w ≤ 1 → outputLink n = None) ∧
      out_chain (heap ac) (outputLink n) l ∧
      (∀ a, a ∈ l → pats_at (heap ac) a ≠ []) ∧
      (∀ k, k ∈ (p :: l) ≫= pats_at (heap ac) →
         ∃ i pat, pats !! i = Some pat ∧ k = int_of_size i ∧ pat `suffix_of` w) ∧
      (∀ i pat, pats !! i = Some pat → pat ≠ [] → pat `suffix_of` w →
         int_of_size i ∈ (p :: l) ≫= pats_at (heap ac)).
Proof.
  intros Hfuel. destruct (automaton_spec fuel pats Hfuel) as (ac & Ha & Hb & _).
  exists ac. split; [done|]. intros p Hp.
  pose proof (b_wf _ _ Hb) as Hwf. pose proof (b_linked _ _ Hb) as Hl.
  destruct (lookup_lt_is_Some_2 _ _ Hp) as [n Hn].
  destruct (wf_reach _ Hwf p Hp) as [w Hw].
  destruct (Hl p (label_lt _ Hwf _ _ Hw))
    as (n' & w' & f & nf & u & Hn' & Hw' & Hfl & Hnf & Hu & Hcase).
  assert (n' = n) as -> by congruence.
  assert (w' = w) as -> by by eapply label_inj.
  destruct (out_chain_at _ Hwf Hl p w n Hw Hn) as (l & Hc & Hd & _ & _).
  inversion Hc as [|a' n' l'' Hn'' Hc'']; subst.
  assert (n' = n) as -> by congruence.
  assert ([] ∉ pats → ∀ rn, heap ac !! 0 = Some rn → out_of 0 rn = None) as Hroot.
  { intros Hne rn Hrn. unfold out_of.
    rewrite (tf_indices _ _ (b_for _ _ Hb) [] 0 rn (label_nil _) Hrn).
    unfold indices_of. rewrite positions_nil by done. simpl.
    destruct (Hl 0 (wf_root _ Hwf)) as (rn' & w0 & f0 & nf0 & u0 & Hrn' & Hw0 & _ & _ & _ & Hc0).
    assert (rn' = rn) as -> by congruence.
    apply (label_root_inv _ Hwf) in Hw0 as ->.
    destruct Hc0 as [(_ & _ & ?)|((_ & Hlt & _) & _)]; [done|simpl in Hlt; lia]. }
  assert (length w ≤ 1 → f = 0 ∧ outputLink n = None) as Hshallow.
  { intros Hlen. destruct Hcase as [(_ & -> & ?)|((_ & Hlt & _) & Ho)].
    - split; [by eapply label_fun|done].
      - rewrite decide_True in Ho by done. split; [|done].
        destruct u; [by eapply label_fun|simpl in Hlt; lia]. }
  exists n, w, f, nf, l. split_and!; [done|done|done|done| | |done| | |].
  - intros [Hlen|Hne].
    + destruct Hcase as [(-> & _)|(_ & Ho)]; [simpl in Hlen; lia|].
      by rewrite decide_False in Ho by lia.
    + destruct (Nat.le_gt_cases (length w) 1) as [Hlen|Hlen].
      * destruct (Hshallow Hlen) as [-> ->]. symmetry. by apply Hroot.
      * destruct Hcase as [(-> & _)|(_ & Ho)]; [simpl in Hlen; lia|].
        by rewrite decide_False in Ho by lia.
  - intros Hlen. by destruct (Hshallow Hlen).
  - intros a Hin. destruct (descending_elem _ _ _ _ Hd Hin) as (v & na & _ & _ & _ & Hna & Hpa).
    unfold pats_at. by rewrite Hna.
  - intros k Hk. by eapply chain_indices_sound.
  - intros i pat Hi Hpat Hs. by eapply chain_indices_complete.
Qed.

Lemma output_links_correct_witness :
  ∃ ac, automaton 7 [s "a"; s "ba"; s "cba"] = Ret ac ∧
    ∀ p, p < length (heap ac) →
    ∃ n w f nf l,
      heap ac !! p = Some n ∧ label (heap ac) p w ∧
      failureLink n = Some f ∧ heap ac !! f = Some nf ∧
      (2 ≤ length w ∨ [] ∉ [s "a"; s "ba"; s "cba"] → outputLink n = out_of f nf) ∧
      (length w ≤ 1 → outputLink n = None) ∧
      out_chain (heap ac) (outputLink n) l ∧
      (∀ a, a ∈ l → pats_at (heap ac) a ≠ []) ∧
      (∀ k, k ∈ (p :: l) ≫= pats_at (heap ac) →
         ∃ i pat, [s "a"; s "ba"; s "cba"] !! i = Some pat ∧ k = int_of_size i ∧
                  pat `suffix_of` w) ∧
      (∀ i pat, [s "a"; s "ba"; s "cba"] !! i = Some pat → pat ≠ [] → pat `suffix_of` w →
         int_of_size i ∈ (p :: l) ≫= pats_at (heap ac)).
Proof. apply (output_links_correct 7). unfold trie_bound. simpl. lia. Defined.

(** C4, as stated, fails when the empty pattern is inserted.  With the
    patterns [""] and ["a"], the failure link of the state of ["a"] is the
    root, the root has a non-empty [patternIndices], yet the output link of
    the state is absent; walking from the state gives index 1 only, although
    pattern 0 is a suffix of ["a"] too. *)
Lemma output_link_misses_empty_pattern :
  ∃ ac n1 n0,
    automaton 2 [[]; s "a"] = Ret ac ∧
    heap ac !! 1 = Some n1 ∧ label (heap ac) 1 (s "a") ∧
    failureLink n1 = Some 0 ∧ heap ac !! 0 = Some n0 ∧
    patternIndices n0 = [0%Z] ∧ outputLink n1 = None ∧
    out_chain (heap ac) (outputLink n1) [] ∧
    [1] ≫= pats_at (heap ac) = [1%Z] ∧
    [] `suffix_of` s "a".
Proof.
  eexists _, _, _. split_and!; [reflexivity..| | |].
  - constructor.
  - reflexivity.
  - apply suffix_nil.
Qed.

(** C5 (as the code has it).  A string inserted twice gets two distinct
    indices, both on the [patternIndices] of the state of the string.  For
    every text of at most [int_max] symbols (the end positions are [int]s),
    [search] returns no pair twice and returns a pair for one of the two
    indices exactly at the end positions where it returns one for the other;
    when the string is not empty, it returns both at every occurrence of the
    string. *)
Theorem duplicate_insertions_both_reported fuel (pats : list str) (text : str) i k p :
  trie_bound pats ≤ fuel → (Z.of_nat (length pats) ≤ int_max)%Z →
  (Z.of_nat (length text) ≤ int_max)%Z →
  pats !! i = Some p → pats !! k = Some p → i ≠ k →
  ∃ ac res t n,
    automaton fuel pats = Ret ac ∧ search fuel ac text = Ret res ∧
    label (heap ac) t p ∧ heap ac !! t = Some n ∧
    Z.of_nat i ∈ patternIndices n ∧ Z.of_nat k ∈ patternIndices n ∧
    Z.of_nat i ≠ Z.of_nat k ∧
    NoDup res ∧
    (∀ j, (Z.of_nat i, j) ∈ res ↔ (Z.of_nat k, j) ∈ res) ∧
    (p ≠ [] → ∀ j, occurs_at p text j →
       (Z.of_nat i, j) ∈ res ∧ (Z.of_nat k, j) ∈ res).
Proof.
  intros Hfuel Hfit Hmax Hi Hk Hik.
  destruct (run_spec fuel pats text Hfuel Hmax) as (ac & res & Ha & Hb & Hs & _ & Hsc).
  destruct (pattern_state pats ac Hb i p Hi) as (t & n & Ht & Hn & Hin).
  destruct (pattern_state pats ac Hb k p Hk) as (t' & n' & Ht' & Hn' & Hin').
  assert (t' = t) as -> by by eapply label_fun.
  assert (n' = n) as -> by congruence.
  rewrite (index_small pats Hfit i p Hi) in Hin.
  rewrite (index_small pats Hfit k p Hk) in Hin'.
  assert (∀ x, x ∈ patternIndices n → x ∈ pats_at (heap ac) t) as Hat.
  { intros x Hx. unfold pats_at. by rewrite Hn. }
  exists ac, res, t, n. split_and!; [done..|lia|by eapply scanned_NoDup| |].
  - intros j. split; eapply (same_state_reported pats ac Hb Hfit text res t p); eauto.
  - intros Hp j Hocc.
    rewrite <- (index_small pats Hfit i p Hi), <- (index_small pats Hfit k p Hk).
    split; by eapply match_complete.
Qed.

Lemma duplicate_insertions_both_reported_witness :
  ∃ ac res t n,
    automaton 5 [s "ab"; s "ab"] = Ret ac ∧ search 5 ac (s "abab") = Ret res ∧
    label (heap ac) t (s "ab") ∧ heap ac !! t = Some n ∧
    Z.of_nat 0 ∈ patternIndices n ∧ Z.of_nat 1 ∈ patternIndices n ∧
    Z.of_nat 0 ≠ Z.of_nat 1 ∧
    NoDup res ∧
    (∀ j, (Z.of_nat 0, j) ∈ res ↔ (Z.of_nat 1, j) ∈ res) ∧
    (s "ab" ≠ [] → ∀ j, occurs_at (s "ab") (s "abab") j →
       (Z.of_nat 0, j) ∈ res ∧ (Z.of_nat 1, j) ∈ res).
Proof.
  apply (duplicate_insertions_both_reported 5 [s "ab"; s "ab"] (s "abab") 0 1 (s "ab")).
  - unfold trie_bound. simpl. lia.
  - unfold int_max. simpl. lia.
  - unfold int_max. simpl. lia.
  - done.
  - done.
  - lia.
Defined.

(** C5, as stated, fails for the empty string.  Inserted twice (indices 0
    and 1) beside ["a"], it occurs in the text ["a"] ending at position 0,
    and [search] returns neither (0, 0) nor (1, 0). *)
Lemma duplicate_empty_pattern_not_reported :
  ∃ res,
    run 2 [[]; []; s "a"] (s "a") = Ret res ∧
    occurs_at [] (s "a") 0 ∧ ((0%Z, 0%Z) ∉ res) ∧ ((1%Z, 0%Z) ∉ res).
Proof.
  exists [(2%Z, 0%Z)]. split_and!; [done| | |].
  - unfold occurs_at. simpl. split_and!; [lia..|done].
  - by intros [=]%list_elem_of_singleton.
  - by intros [=]%list_elem_of_singleton.
Qed.

(** C6.  With no pattern inserted, [search] returns the empty sequence for
    every text; for every pattern list, [search] of the empty text returns
    the empty sequence. *)
Theorem search_empty_inputs fuel (pats : list str) (text : str) :
  trie_bound pats ≤ fuel → pats = [] ∨ text = [] → run fuel pats text = Ret [].
Proof.
  intros Hfuel Hcase.
  destruct (automaton_spec fuel pats Hfuel) as (ac & Ha & Hb & Hlen).
  destruct (search_returns fuel pats ac text Hb Hlen) as (res & Hs & Hres).
  unfold run. rewrite Ha. simpl. rewrite Hs. f_equal. destruct Hcase as [->| ->].
  - destruct res as [|x res]; [done|]. exfalso.
    destruct (Hres x) as [a Hx]; [left|]. unfold pats_at in Hx.
    destruct (heap ac !! a) as [n|] eqn:Hn; [|by apply elem_of_nil in Hx].
    destruct (wf_reach _ (b_wf _ _ Hb) a) as [w Hw]; [by eapply lookup_lt_Some|].
    rewrite (tf_indices _ _ (b_for _ _ Hb) w a n Hw Hn) in Hx.
    by apply elem_of_nil in Hx.
  - unfold search in Hs. simpl in Hs. by injection Hs as <-.
Qed.

Lemma search_empty_inputs_witness :
  run 1 [] (s "abc") = Ret [] ∧ run 3 [s "a"; s "b"] [] = Ret [].
Proof.
  split.
  - apply search_empty_inputs; [unfold trie_bound; simpl; lia|by left].
  - apply search_empty_inputs; [unfold trie_bound; simpl; lia|by right].
Defined.

(** C7.  [getPattern] is a total function that signals no error: for every
    index in [0, patternCount) it returns the pattern inserted at that index
    (the index counting the insertions before it), and for every other index,
    negative ones included, it returns the empty string.  This holds after
    the insertions and still after [buildFailureLinks]. *)
Theorem getPattern_total (pats : list str) :
  ∃ ac, addPatterns pats AhoCorasick_new = Ret ac ∧
    ∀ fuel ac', ac' = ac ∨ buildFailureLinks fuel ac = Ret (tt, ac') →
    ∀ index : Z,
      ((0 ≤ index < Z.of_nat (length pats))%Z →
         pats !! Z.to_nat index = Some (getPattern ac' index)) ∧
      (¬ (0 ≤ index < Z.of_nat (length pats))%Z → getPattern ac' index = []).
Proof.
  destruct (addPatterns_new pats) as (ac & Hadd & Hinv & _). exists ac. split; [done|].
  intros fuel ac' Hac' index.
  assert (patterns ac' = pats) as Hp.
  { destruct Hac' as [->|[-> _]%buildFailureLinks_patterns]; apply Hinv. }
  unfold getPattern. rewrite Hp. split.
  - intros Hi. rewrite andb_true_intro by (split; [apply Z.leb_le|apply Z.ltb_lt]; lia).
    rewrite nth_lookup.
    destruct (lookup_lt_is_Some_2 pats (Z.to_nat index)) as [p ->]; [lia|done].
  - intros Hi. destruct (0 <=? index)%Z eqn:H0; [|done].
    destruct (index <? Z.of_nat (length pats))%Z eqn:H1; [|done].
    apply Z.leb_le in H0. apply Z.ltb_lt in H1. lia.
Qed.

(** C8 (as the code has it).  [addPattern] returns nothing.  It gives the
    inserted pattern the [int] index equal to the number of patterns inserted
    before it: the pattern is stored at that position of [patterns], and the
    index is pushed last on the [patternIndices] of the state the pattern
    ends in. *)
Theorem addPattern_assigns_index (pats : list str) (p : str) :
  ∃ ac ac' t n,
    addPatterns pats AhoCorasick_new = Ret ac ∧
    addPattern p ac = Ret (tt, ac') ∧
    patterns ac' = pats ++ [p] ∧
    label (heap ac') t p ∧ heap ac' !! t = Some n ∧
    last (patternIndices n) = Some (int_of_size (length pats)) ∧
    ((Z.of_nat (length pats) ≤ int_max)%Z →
       int_of_size (length pats) = Z.of_nat (length pats) ∧
       getPattern ac' (Z.of_nat (length pats)) = p).
Proof.
  destruct (addPatterns_new pats) as (ac & Hadd & Hinv & _).
  destruct (addPattern_spec pats p ac Hinv) as (ac' & t & Hp & Hinv' & Ht).
  destruct (label_is_Some _ (inv_wf _ _ Hinv') _ _ Ht) as [n Hn].
  exists ac, ac', t, n. split_and!; [done|done|apply Hinv'|done|done| |].
  - rewrite (tf_indices _ _ (inv_for _ _ Hinv') p t n Ht Hn), indices_of_snoc.
    rewrite decide_True by done. apply last_snoc.
  - intros Hfit. split; [by apply int_of_size_small|].
    unfold getPattern. rewrite (inv_patterns _ _ Hinv'), length_app. simpl.
    rewrite andb_true_intro by (split; [apply Z.leb_le|apply Z.ltb_lt]; lia).
    rewrite Nat2Z.id, nth_lookup, lookup_app_r, Nat.sub_diag by lia. done.
Qed.

(** C8, as stated, fails: what [addPattern] returns carries no index.  The
    first and the second insertion of ["a"] return the same value, while
    their indices, pushed on the state of ["a"], are 0 and 1. *)
Lemma addPattern_returns_no_index :
  ∃ r1 ac1 r2 ac2 n,
    addPattern (s "a") AhoCorasick_new = Ret (r1, ac1) ∧
    addPattern (s "a") ac1 = Ret (r2, ac2) ∧
    r1 = r2 ∧
    heap ac2 !! 1 = Some n ∧ patternIndices n = [0; 1]%Z.
Proof. by eexists _, _, _, _, _. Qed.

(** C9.  After [buildFailureLinks], the failure link of every state other
    than the root leads to a state of strictly smaller depth, and the
    failure link of the root is the root.  So following failure links from
    any state reaches the root within as many steps as the state is deep, and
    every failure walk terminates: the ones of [buildFailureLinks] (it
    returns), the walk for any state and symbol, and the ones of [search]
    (it returns for every text). *)
Theorem failure_walks_terminate fuel (pats : list str) :
  trie_bound pats ≤ fuel →
  ∃ ac, automaton fuel pats = Ret ac ∧
    (∃ rn, heap ac !! root ac = Some rn ∧ failureLink rn = Some (root ac)) ∧
    (∀ p, p < length (heap ac) →
       ∃ n w, heap ac !! p = Some n ∧ label (heap ac) p w ∧
         (p ≠ root ac →
            ∃ f u, failureLink n = Some f ∧ label (heap ac) f u ∧ length u < length w) ∧
         ∃ k, k ≤ length w ∧ fail_iter (heap ac) k p = Some (root ac)) ∧
    (∀ p c, p < length (heap ac) →
       ∃ y, follow_failure fuel (heap ac) (root ac) (Some p) c = Ret y) ∧
    (∀ text, ∃ res, search fuel ac text = Ret res).
Proof.
  intros Hfuel. destruct (automaton_spec fuel pats Hfuel) as (ac & Ha & Hb & Hlen).
  pose proof (b_wf _ _ Hb) as Hwf. pose proof (b_linked _ _ Hb) as Hl.
  exists ac. rewrite (b_root _ _ Hb). split_and!; [done| | | |].
  - destruct (Hl 0 (wf_root _ Hwf)) as (n & w & f & nf & u & Hn & Hw & Hfl & Hnf & Hu & Hcase).
    exists n. split; [done|]. rewrite Hfl. f_equal.
    apply (label_root_inv _ Hwf) in Hw as ->.
    destruct Hcase as [(_ & -> & _)|((_ & Hlt & _) & _)]; [|simpl in Hlt; lia].
    by eapply label_fun.
  - intros p Hp.
    destruct (Hl p Hp) as (n & w & f & nf & u & Hn & Hw & Hfl & Hnf & Hu & Hcase).
    exists n, w. split_and!; [done..| |].
    + intros Hp0. destruct Hcase as [(-> & _)|((_ & Hlt & _) & _)].
      * exfalso. apply Hp0. by eapply label_fun.
      * by exists f, u.
    + by eapply (fail_iter_root _ Hwf Hl (length w)).
  - intros p c Hp. destruct (wf_reach _ Hwf p Hp) as [w Hw].
    destruct (follow_failure_spec _ Hwf c fuel p w Hw) as (y & _ & Hy & _).
    + intros q w' Hq _. apply Hl. by eapply label_lt.
    + pose proof (label_depth _ Hwf _ _ Hw). lia.
    + by exists y.
  - intros text. destruct (search_returns fuel pats ac text Hb Hlen) as (res & Hs & _).
    by exists res.
Qed.

Lemma failure_walks_terminate_witness :
  ∃ ac, automaton 7 [s "a"; s "ba"; s "cba"] = Ret ac ∧
    (∃ rn, heap ac !! root ac = Some rn ∧ failureLink rn = Some (root ac)) ∧
    (∀ p, p < length (heap ac) →
       ∃ n w, heap ac !! p = Some n ∧ label (heap ac) p w ∧
         (p ≠ root ac →
            ∃ f u, failureLink n = Some f ∧ label (heap ac) f u ∧ length u < length w) ∧
         ∃ k, k ≤ length w ∧ fail_iter (heap ac) k p = Some (root ac)) ∧
    (∀ p c, p < length (heap ac) →
       ∃ y, follow_failure 7 (heap ac) (root ac) (Some p) c = Ret y) ∧
    (∀ text, ∃ res, search 7 ac text = Ret res).
Proof. apply (failure_walks_terminate 7). unfold trie_bound. simpl. lia. Defined.

(** C10.  With the empty string as the only pattern (index 0), [search]
    returns, for every text of length [n], exactly the pairs (0,0), (0,1),
    ..., (0,n-1) in that order: one match per symbol consumed, none before
    the first symbol, and nothing for the empty text.  (The end positions
    are [int]s: [n] is at most [int_max].) *)
Theorem search_single_empty_pattern fuel (text : str) :
  1 ≤ fuel → (Z.of_nat (length text) ≤ int_max)%Z →
  run fuel [[]] text = Ret ((λ j, (0%Z, Z.of_nat j)) <$> seq 0 (length text)).
Proof.
  intros Hfuel Hmax.
  destruct (run_spec fuel [[]] text) as (ac & res & _ & Hb & _ & -> & Hsc); [done..|].
  f_equal. by apply (scanned_single_empty ac []).
Qed.

Lemma search_single_empty_pattern_witness :
  run 1 [[]] (s "abc") = Ret [(0, 0); (0, 1); (0, 2)]%Z.
Proof.
  apply (search_single_empty_pattern 1 (s "abc")).
  - lia.
  - unfold int_max. simpl. lia.
Defined.

(** * Further properties of the code *)

(** ** The destructor *)

Section delete_facts.
Context (h : arena) (Hwf : trie_wf h).

Lemma walk_ge : ∀ v a q, walk h a v = Some q → a ≤ q ∧ (a = q → v = []).
Proof.
  induction v as [|c v IH]; intros a q Hw.
  - simpl in Hw. by simplify_eq.
  - rewrite walk_cons in Hw.
    destruct (h !! a) as [n|] eqn:Hn; [|done]. simpl in Hw.
    destruct (map_find c (children n)) as [t|] eqn:Hc; [|done]. simpl in Hw.
    assert (child h a c t) as Hch by by exists n.
    apply (wf_child _ Hwf) in Hch. apply IH in Hw. lia.
Qed.

Lemma below_label a w q : label h a w → below h a q ↔ ∃ v, label h q (w ++ v).
Proof.
  intros Ha. unfold below, label. split; intros [v Hv]; exists v.
  - rewrite walk_app. unfold label in Ha. by rewrite Ha.
  - rewrite walk_app in Hv. unfold label in Ha. by rewrite Ha in Hv.
Qed.

Lemma below_child a n q :
  h !! a = Some n →
  below h a q ↔ q = a ∨ ∃ c t, (c, t) ∈ children n ∧ below h t q.
Proof.
  intros Hn. split.
  - intros [[|c v] Hv].
    + left. simpl in Hv. by simplify_eq.
    + right. rewrite walk_cons, Hn in Hv. simpl in Hv.
      destruct (map_find c (children n)) as [t|] eqn:Hc; [|done]. simpl in Hv.
      exists c, t. split; [by apply map_find_Some|by exists v].
  - intros [->|(c & t & Hin & v & Hv)]; [by exists []|].
    exists (c :: v). rewrite walk_cons, Hn. simpl.
    rewrite (map_find_elem c t (children n)); [done| |done].
    by eapply wf_keys.
Qed.

Lemma below_siblings a w n c t c' t' q :
  label h a w → h !! a = Some n → (c, t) ∈ children n → (c', t') ∈ children n →
  c ≠ c' → below h t q → below h t' q → False.
Proof.
  intros Ha Hn Hin Hin' Hne Hq Hq'.
  assert (NoDup (children n).*1) as Hnd by by eapply wf_keys.
  assert (label h t (w ++ [c])) as Ht.
  { apply label_snoc. exists a. split; [done|]. exists n. split; [done|].
    by apply map_find_elem. }
  assert (label h t' (w ++ [c'])) as Ht'.
  { apply label_snoc. exists a. split; [done|]. exists n. split; [done|].
    by apply map_find_elem. }
  apply (below_label _ _ _ Ht) in Hq as [v Hv].
  apply (below_label _ _ _ Ht') in Hq' as [v' Hv'].
  pose proof (label_inj _ Hwf _ _ _ Hv Hv') as Heq.
  rewrite <- !app_assoc in Heq. apply app_inv_head in Heq. simpl in Heq. congruence.
Qed.

Lemma deleteTrie_spec : ∀ fuel a w freed,
  label h a w → length h ≤ fuel + length w →
  (∀ q, below h a q → q ∉ freed) →
  ∃ l, deleteTrie fuel h (Some a) freed = Ret (freed ++ l) ∧ NoDup l ∧
       last l = Some a ∧ ∀ q, q ∈ l ↔ below h a q.
Proof.
  induction fuel as [|fuel IH]; intros a w freed Ha Hfuel Hfr.
  - pose proof (label_depth _ Hwf _ _ Ha). pose proof (label_lt _ Hwf _ _ Ha). lia.
  - destruct (label_is_Some _ Hwf _ _ Ha) as [n Hn].
    assert (NoDup (children n).*1) as Hnd by by eapply wf_keys.
    assert (∀ kids fr0, kids ⊆ children n → NoDup kids.*1 →
              (∀ c t q, (c, t) ∈ kids → below h t q → q ∉ fr0) →
              ∃ l, for_children (deleteTrie fuel h) kids fr0 = Ret (fr0 ++ l) ∧ NoDup l ∧
                   ∀ q, q ∈ l ↔ ∃ c t, (c, t) ∈ kids ∧ below h t q) as Hloop.
    { induction kids as [|[c t] kids IHk]; intros fr0 Hsub Hndk Hfr0.
      - exists []. rewrite app_nil_r. split_and!; [done|constructor|].
        intros q. split; [by intros ?%elem_of_nil|].
        by intros (c & t & ?%elem_of_nil & _).
      - assert ((c, t) ∈ children n) as Hin by (apply Hsub; left).
        assert (label h t (w ++ [c])) as Ht.
        { apply label_snoc. exists a. split; [done|]. exists n. split; [done|].
          by apply map_find_elem. }
        destruct (IH t (w ++ [c]) fr0 Ht) as (l1 & Hl1 & Hnd1 & _ & Hin1).
        { rewrite length_app. simpl. lia. }
        { intros q Hq. eapply Hfr0; [left|done]. }
        rewrite fmap_cons in Hndk. apply NoDup_cons in Hndk as [Hc Hndk].
        destruct (IHk (fr0 ++ l1)) as (l2 & Hl2 & Hnd2 & Hin2).
        { intros x Hx. apply Hsub. by right. }
        { done. }
        { intros c' t' q Hin' Hq. apply not_elem_of_app. split.
          - eapply Hfr0; [right|]; done.
          - rewrite Hin1. intros Hq'.
            assert (c ≠ c') as Hne.
            { intros ->. apply Hc. apply list_elem_of_fmap. by exists (c', t'). }
            eapply (below_siblings a w n c t c' t' q); eauto. apply Hsub. by right. }
        exists (l1 ++ l2). simpl. rewrite Hl1. simpl. rewrite Hl2, app_assoc.
        split_and!; [done| |].
        + apply NoDup_app. split_and!; [done| |done].
          intros q Hq1 Hq2. apply Hin1 in Hq1. apply Hin2 in Hq2 as (c' & t' & Hin' & Hq2).
          assert (c ≠ c') as Hne.
          { intros ->. apply Hc. apply list_elem_of_fmap. by exists (c', t'). }
          eapply (below_siblings a w n c t c' t' q); eauto. apply Hsub. by right.
        + intros q. rewrite elem_of_app, Hin1, Hin2. split.
          * intros [Hq|(c' & t' & Hin' & Hq)]; [exists c, t; split; [left|done]|].
            exists c', t'. split; [by right|done].
          * intros (c' & t' & [Heq|Hin']%elem_of_cons & Hq); [left; by simplify_eq|].
            right. by exists c', t'. }
    destruct (Hloop (children n) freed) as (l & Hl & Hndl & Hinl); [done..| |].
    { intros c t q Hin Hq. apply Hfr. apply (below_child a n q Hn). right. by exists c, t. }
    assert (a ∉ l) as Hal.
    { rewrite Hinl. intros (c & t & Hin & v & Hv).
      assert (child h a c t) as Hch.
      { exists n. split; [done|]. by apply map_find_elem. }
      apply (wf_child _ Hwf) in Hch. apply walk_ge in Hv. lia. }
    assert (a ∉ freed) as Haf by (apply Hfr; by exists []).
    exists (l ++ [a]). simpl. rewrite decide_False by done.
    rewrite (load_Some _ _ _ Hn). simpl. rewrite Hl. simpl.
    rewrite decide_False by (by apply not_elem_of_app).
    rewrite app_assoc. split_and!; [done| |apply last_snoc|].
    + apply NoDup_app. split_and!; [done| |apply NoDup_singleton].
      intros q Hq ->%list_elem_of_singleton. done.
    + intros q. rewrite (below_child a n q Hn), elem_of_app, Hinl, list_elem_of_singleton.
      tauto.
Qed.

Lemma delete_all fuel :
  length h ≤ fuel →
  ∃ l, deleteTrie fuel h (Some 0) [] = Ret l ∧ l ≡ₚ seq 0 (length h) ∧ last l = Some 0.
Proof.
  intros Hfuel.
  destruct (deleteTrie_spec fuel 0 [] [] (label_nil h)) as (l & Hl & Hnd & Hlast & Hin).
  { simpl. lia. }
  { intros q _. apply not_elem_of_nil. }
  exists l. split_and!; [done| |done].
  apply NoDup_Permutation; [done|apply NoDup_seq|].
  intros q. rewrite Hin, elem_of_seq. split.
  - intros [v Hv]. pose proof (label_lt _ Hwf q v Hv). lia.
  - intros [_ Hq]. destruct (wf_reach _ Hwf q) as [w Hw]; [lia|]. by exists w.
Qed.
End delete_facts.

(** X1.  The destructor deletes every node of the automaton exactly once,
    the root last, and neither reads nor deletes a node it has already
    deleted; this holds before and after [buildFailureLinks]. *)
Theorem destructor_deletes_every_node fuel (pats : list str) :
  trie_bound pats ≤ fuel →
  ∃ ac ac' l l',
    addPatterns pats AhoCorasick_new = Ret ac ∧
    buildFailureLinks fuel ac = Ret (tt, ac') ∧
    AhoCorasick_delete fuel ac = Ret l ∧
    l ≡ₚ seq 0 (length (heap ac)) ∧ last l = Some (root ac) ∧
    AhoCorasick_delete fuel ac' = Ret l' ∧
    l' ≡ₚ seq 0 (length (heap ac')) ∧ last l' = Some (root ac').
Proof.
  intros Hfuel.
  destruct (addPatterns_new pats) as (ac & Hac & Hinv & Hlen).
  destruct (buildFailureLinks_spec fuel pats ac Hinv) as (ac' & Hb & Hbuilt & Hst); [lia|].
  destruct (delete_all (heap ac) (inv_wf _ _ Hinv) fuel) as (l & Hl & Hperm & Hlast); [lia|].
  destruct (delete_all (heap ac') (b_wf _ _ Hbuilt) fuel) as (l' & Hl' & Hperm' & Hlast').
  { rewrite <- (same_shape_length (heap ac) (heap ac')) by apply Hst. lia. }
  exists ac, ac', l, l'. unfold AhoCorasick_delete.
  rewrite (inv_root _ _ Hinv), (b_root _ _ Hbuilt). done.
Qed.

Lemma destructor_deletes_every_node_witness :
  ∃ ac ac' l l',
    addPatterns [s "ab"; s "c"] AhoCorasick_new = Ret ac ∧
    buildFailureLinks 4 ac = Ret (tt, ac') ∧
    AhoCorasick_delete 4 ac = Ret l ∧
    l ≡ₚ seq 0 (length (heap ac)) ∧ last l = Some (root ac) ∧
    AhoCorasick_delete 4 ac' = Ret l' ∧
    l' ≡ₚ seq 0 (length (heap ac')) ∧ last l' = Some (root ac').
Proof.
  apply (destructor_deletes_every_node 4 [s "ab"; s "c"]).
  unfold trie_bound. simpl. lia.
Defined.

(** ** Building again *)

Lemma built_ac_inv pats ac : built pats ac → ac_inv pats ac.
Proof.
  intros [Hr Hp Hwf Hfor Hl]. split; [done..|].
  destruct (Hl 0 (wf_root _ Hwf)) as (n & w & f & nf & u & Hn & Hw & Hf & Hnf & Hu & Hcase).
  pose proof (label_root_inv _ Hwf _ Hw) as ->.
  exists n. destruct Hcase as [(_ & -> & Ho)|[(_ & Hlt & _) _]]; [|simpl in Hlt; lia].
  split_and!; [done| |done]. rewrite Hf. f_equal. eapply label_fun; [done|apply label_nil].
Qed.

Lemma same_trie_sym h h' : same_trie h h' → same_trie h' h.
Proof. by intros [? ?]. Qed.

(** The links [buildFailureLinks] computes are determined by the child maps
    and the pattern indices. *)
Lemma linked_unique h h' :
  trie_wf h → same_trie h h' →
  (∀ p, p < length h → linked h p) → (∀ p, p < length h' → linked h' p) →
  h = h'.
Proof.
  intros Hwf Hst Hl Hl'.
  assert (same_shape h h') as Hsh by apply Hst.
  assert (trie_wf h') as Hwf' by by eapply same_shape_wf.
  assert (length h = length h') as Hlen by by apply same_shape_length.
  assert (∀ k p w n n', length w ≤ k → label h p w → h !! p = Some n → h' !! p = Some n' → n = n')
    as Hnode.
  { induction k as [|k IH]; intros p w n n' Hk Hw Hn Hn'.
    - destruct w; [|simpl in Hk; lia].
      assert (p = 0) as -> by (eapply label_fun; [done|apply label_nil]).
      destruct (same_trie_lookup _ _ _ _ Hst Hn) as (n2 & Hn2 & Hc & Hp).
      assert (n2 = n') as -> by congruence.
      destruct (Hl 0 (wf_root _ Hwf)) as (m & w & f & nf & u & Hm & Hw0 & Hf & Hnf & Hu & Hcase).
      destruct (Hl' 0 (wf_root _ Hwf')) as (m' & w' & f' & nf' & u' & Hm' & Hw0' & Hf' & Hnf' & Hu' & Hcase').
      assert (m = n) as -> by congruence. assert (m' = n') as -> by congruence.
      pose proof (label_root_inv _ Hwf _ Hw0) as ->.
      pose proof (label_root_inv _ Hwf' _ Hw0') as ->.
      destruct Hcase as [(_ & -> & Ho)|[(_ & Hlt & _) _]]; [|simpl in Hlt; lia].
      destruct Hcase' as [(_ & -> & Ho')|[(_ & Hlt & _) _]]; [|simpl in Hlt; lia].
      assert (f = 0) as -> by (eapply label_fun; [done|apply label_nil]).
      assert (f' = 0) as -> by (eapply label_fun; [done|apply label_nil]).
      destruct n, n'; simpl in *; congruence.
    - destruct (decide (length w ≤ k)) as [Hle|Hgt]; [by eapply IH|].
      assert (length w = S k) as Hwk by lia.
      destruct (same_trie_lookup _ _ _ _ Hst Hn) as (n2 & Hn2 & Hc & Hp).
      assert (n2 = n') as -> by congruence.
      assert (p < length h) as Hlt by by eapply label_lt.
      destruct (Hl p Hlt) as (m & w1 & f & nf & u & Hm & Hw1 & Hf & Hnf & Hu & Hcase).
      destruct (Hl' p ltac:(lia)) as (m' & w1' & f' & nf' & u' & Hm' & Hw1' & Hf' & Hnf' & Hu' & Hcase').
      assert (m = n) as -> by congruence. assert (m' = n') as -> by congruence.
      assert (w1 = w) as -> by by eapply (label_inj h Hwf).
      apply (same_shape_label h h') in Hw1'; [|done].
      assert (w1' = w) as -> by by eapply (label_inj h Hwf).
      destruct Hcase as [(-> & _)|[Hlps Ho]]; [simpl in Hwk; lia|].
      destruct Hcase' as [(-> & _)|[Hlps' Ho']]; [simpl in Hwk; lia|].
      apply (same_shape_is_lps h h') in Hlps'; [|done].
      assert (u' = u) as -> by by eapply is_lps_det.
      apply (same_shape_label h h') in Hu'; [|done].
      assert (f' = f) as -> by by eapply label_fun.
      assert (nf = nf') as <-.
      { eapply (IH f u); [|done..]. destruct Hlps as (_ & Hlu & _). lia. }
      destruct n, n'; simpl in *. congruence. }
  apply list_eq. intros p.
  destruct (h !! p) as [n|] eqn:Hn.
  - assert (p < length h) as Hlt by by eapply lookup_lt_Some.
    destruct (wf_reach _ Hwf p Hlt) as [w Hw].
    destruct (lookup_lt_is_Some_2 h' p) as [n' Hn']; [lia|].
    rewrite Hn'. f_equal. by eapply Hnode.
  - apply lookup_ge_None in Hn. symmetry. apply lookup_ge_None. lia.
Qed.

Lemma same_trie_app h1 h2 n1 n2 :
  same_trie h1 h2 → children n1 = children n2 → patternIndices n1 = patternIndices n2 →
  same_trie (h1 ++ [n1]) (h2 ++ [n2]).
Proof.
  intros [Hs Hp] Hc Hi. split; [unfold same_shape|]; rewrite !fmap_app; simpl; congruence.
Qed.

Lemma same_trie_insert h1 h2 a n1 n2 :
  same_trie h1 h2 → children n1 = children n2 → patternIndices n1 = patternIndices n2 →
  same_trie (<[a:=n1]> h1) (<[a:=n2]> h2).
Proof.
  intros [Hs Hp] Hc Hi. split; [unfold same_shape|]; rewrite !list_fmap_insert; congruence.
Qed.

Lemma add_walk_same_trie pat : ∀ h1 h2 cur h1' t,
  same_trie h1 h2 → add_walk h1 cur pat = Ret (h1', t) →
  ∃ h2', add_walk h2 cur pat = Ret (h2', t) ∧ same_trie h1' h2'.
Proof.
  induction pat as [|ch pat IH]; intros h1 h2 cur h1' t Hst Hrun.
  - simpl in *. exists h2. by simplify_eq.
  - simpl in Hrun. simpl.
    unfold load, deref in *.
    destruct (h1 !! cur) as [n1|] eqn:Hn1; [|done].
    destruct (same_trie_lookup _ _ _ _ Hst Hn1) as (n2 & Hn2 & Hc & Hp).
    rewrite Hn2. simpl in *. rewrite Hc.
    destruct (map_find ch (children n1)) as [next|] eqn:Hf.
    + by eapply IH.
    + rewrite <- (same_shape_length h1 h2) by apply Hst.
      eapply IH; [|done].
      apply same_trie_insert; [by apply same_trie_app|simpl; congruence|done].
Qed.

Lemma addPattern_same_trie p ac1 ac2 r ac1' :
  same_trie (heap ac1) (heap ac2) → root ac1 = root ac2 → patterns ac1 = patterns ac2 →
  addPattern p ac1 = Ret (r, ac1') →
  ∃ ac2', addPattern p ac2 = Ret (r, ac2') ∧ same_trie (heap ac1') (heap ac2') ∧
          root ac1' = root ac2' ∧ patterns ac1' = patterns ac2'.
Proof.
  intros Hst Hr Hp Hrun. unfold addPattern in *.
  destruct (add_walk (heap ac1) (root ac1) p) as [[h1 t]| |] eqn:Hw; [|done..].
  rewrite Hr in Hw.
  destruct (add_walk_same_trie _ _ _ _ _ _ Hst Hw) as (h2 & Hw2 & Hst2).
  rewrite Hw2. simpl in *. unfold load, deref in *.
  destruct (h1 !! t) as [n1|] eqn:Hn1; [|done].
  destruct (same_trie_lookup _ _ _ _ Hst2 Hn1) as (n2 & Hn2 & Hc & Hi).
  rewrite Hn2. simpl in *. simplify_eq. eexists. split; [done|]. simpl.
  split_and!; [|done|congruence].
  rewrite Hp. apply same_trie_insert; [done|done|simpl; congruence].
Qed.

Lemma addPatterns_same_trie ps : ∀ ac1 ac2 ac1',
  same_trie (heap ac1) (heap ac2) → root ac1 = root ac2 → patterns ac1 = patterns ac2 →
  addPatterns ps ac1 = Ret ac1' →
  ∃ ac2', addPatterns ps ac2 = Ret ac2' ∧ same_trie (heap ac1') (heap ac2') ∧
          root ac1' = root ac2' ∧ patterns ac1' = patterns ac2'.
Proof.
  induction ps as [|p ps IH]; intros ac1 ac2 ac1' Hst Hr Hp Hrun.
  - simpl in *. exists ac2. by simplify_eq.
  - simpl in *. destruct (addPattern p ac1) as [[[] a1]| |] eqn:Ha; [|done..].
    destruct (addPattern_same_trie _ _ _ _ _ Hst Hr Hp Ha) as (a2 & Ha2 & Hst' & Hr' & Hp').
    rewrite Ha2. simpl in *. by eapply IH.
Qed.

Lemma addPatterns_app ps1 : ∀ ps2 ac,
  addPatterns (ps1 ++ ps2) ac = (ac' ← addPatterns ps1 ac; addPatterns ps2 ac').
Proof.
  induction ps1 as [|p ps1 IH]; intros ps2 ac; [done|].
  simpl. destruct (addPattern p ac) as [[[] a1]| |]; [|done..]. simpl. apply IH.
Qed.

(** X2.  [buildFailureLinks] may be called again: inserting further
    patterns into a built automaton and building once more gives the very
    automaton obtained by inserting all the patterns first and building
    once.  With no further pattern: building twice is building once. *)
Theorem rebuild_after_insertions fuel (ps1 ps2 : list str) :
  trie_bound (ps1 ++ ps2) ≤ fuel →
  ∃ ac1 ac2 ac3,
    automaton fuel ps1 = Ret ac1 ∧
    addPatterns ps2 ac1 = Ret ac2 ∧
    buildFailureLinks fuel ac2 = Ret (tt, ac3) ∧
    automaton fuel (ps1 ++ ps2) = Ret ac3.
Proof.
  intros Hfuel.
  assert (trie_bound ps1 ≤ fuel) as Hfuel1.
  { unfold trie_bound in *. rewrite total_length_app in Hfuel. lia. }
  (* the automaton of [ps1] *)
  destruct (addPatterns_new ps1) as (a0 & Ha0 & Hinv0 & Hlen0).
  destruct (buildFailureLinks_spec fuel ps1 a0 Hinv0) as (ac1 & Hb1 & Hbuilt1 & Hst1); [lia|].
  (* the automaton of [ps1 ++ ps2] *)
  destruct (addPatterns_spec ps2 ps1 a0 Hinv0) as (a2 & Ha2 & Hinv2).
  pose proof (addPatterns_length _ _ _ Ha2) as Hlen2.
  assert (length (heap a2) ≤ fuel) as Hlen2'.
  { unfold trie_bound in *. rewrite total_length_app in Hfuel. lia. }
  destruct (buildFailureLinks_spec fuel _ a2 Hinv2 Hlen2') as (a3 & Hb3 & Hbuilt3 & Hst3).
  (* the insertions after the first build *)
  destruct (buildFailureLinks_patterns _ _ _ _ Hb1) as [Hp1 Hr1].
  destruct (addPatterns_same_trie ps2 a0 ac1 a2 Hst1 (eq_sym Hr1) (eq_sym Hp1) Ha2)
    as (ac2 & Hac2 & Hst2 & Hr2 & Hp2).
  destruct (addPatterns_spec ps2 ps1 ac1 (built_ac_inv _ _ Hbuilt1)) as (ac2' & Hac2' & Hinv2').
  assert (ac2' = ac2) as -> by congruence.
  assert (length (heap ac2) ≤ fuel) as Hlenac2.
  { rewrite <- (same_shape_length (heap a2) (heap ac2)) by apply Hst2. done. }
  destruct (buildFailureLinks_spec fuel _ ac2 Hinv2' Hlenac2) as (ac3 & Hb3' & Hbuilt3' & Hst3').
  assert (ac3 = a3) as ->.
  { assert (heap ac3 = heap a3) as Hh.
    { apply linked_unique; [apply Hbuilt3'| |apply Hbuilt3'|apply Hbuilt3].
      eapply same_trie_trans; [apply same_trie_sym, Hst3'|].
      eapply same_trie_trans; [apply same_trie_sym, Hst2|done]. }
    destruct ac3 as [h3 r3 p3], a3 as [h3' r3' p3']. simpl in Hh. subst.
    pose proof (b_root _ _ Hbuilt3). pose proof (b_root _ _ Hbuilt3').
    pose proof (b_patterns _ _ Hbuilt3). pose proof (b_patterns _ _ Hbuilt3').
    simpl in *. congruence. }
  exists ac1, ac2, a3. split_and!; [|done|done|].
  - unfold automaton. rewrite Ha0. simpl. by rewrite Hb1.
  - unfold automaton. rewrite addPatterns_app, Ha0. simpl. rewrite Ha2. simpl. by rewrite Hb3.
Qed.

Lemma rebuild_after_insertions_witness :
  ∃ ac1 ac2 ac3,
    automaton 7 [s "ab"; s "b"] = Ret ac1 ∧
    addPatterns [s "bab"] ac1 = Ret ac2 ∧
    buildFailureLinks 7 ac2 = Ret (tt, ac3) ∧
    automaton 7 ([s "ab"; s "b"] ++ [s "bab"]) = Ret ac3.
Proof.
  apply (rebuild_after_insertions 7 [s "ab"; s "b"] [s "bab"]).
  unfold trie_bound. simpl. lia.
Defined.

(** ** Scans on an automaton that is not built *)

(** What [addPattern] does to the links and to the words of the trie. *)
Lemma addPattern_links pats p ac r ac' :
  ac_inv pats ac → addPattern p ac = Ret (r, ac') →
  length (heap ac) ≤ length (heap ac') ∧
  (∀ q n, heap ac !! q = Some n →
     ∃ n', heap ac' !! q = Some n' ∧ failureLink n' = failureLink n ∧
           outputLink n' = outputLink n) ∧
  (∀ q n', heap ac' !! q = Some n' → length (heap ac) ≤ q →
     failureLink n' = None ∧ outputLink n' = None) ∧
  (∀ q w, label (heap ac) q w → label (heap ac') q w) ∧
  (∀ w, in_trie (heap ac') w → in_trie (heap ac) w ∨ w `prefix_of` p).
Proof.
  intros [Hr Hp Hwf Hfor _] Hrun.
  destruct (add_walk_spec p (heap ac) 0 [] Hwf (label_nil _))
    as (h' & t & Hw & Hwf' & Ht & Hext & Hin).
  simpl in Ht, Hin.
  destruct (label_is_Some h' Hwf' _ _ Ht) as [node Hnode].
  unfold addPattern in Hrun. rewrite Hr, Hw in Hrun. simpl in Hrun.
  rewrite (load_Some _ _ _ Hnode) in Hrun. simpl in Hrun. injection Hrun as <- <-. simpl.
  set (x := push_patternIndex (int_of_size (length (patterns ac))) node).
  assert (same_shape h' (<[t:=x]> h')) as Hs by by eapply same_shape_insert.
  assert (t < length h') as Htlt by by eapply lookup_lt_Some.
  split_and!.
  - rewrite length_insert. apply Hext.
  - intros q n Hn. destruct (ext_old _ _ Hext _ _ Hn) as (n1 & Hn1 & Hf & Ho & _).
    destruct (decide (q = t)) as [->|Hne].
    + exists x. rewrite list_lookup_insert_eq by done. split; [done|].
      assert (n1 = node) as -> by congruence. done.
    + exists n1. by rewrite list_lookup_insert_ne.
  - intros q n' Hn' Hq.
    destruct (decide (q = t)) as [->|Hne].
    + rewrite list_lookup_insert_eq in Hn' by done. injection Hn' as <-. simpl.
      destruct (ext_new _ _ Hext _ _ Hnode Hq) as (? & ? & _). done.
    + rewrite list_lookup_insert_ne in Hn' by done.
      destruct (ext_new _ _ Hext _ _ Hn' Hq) as (? & ? & _). done.
  - intros q w Hq. apply (same_shape_label h' _); [done|]. by apply (ext_label _ _ Hext).
  - intros w Hw'. apply (same_shape_in_trie h' _) in Hw'; [|done]. by apply Hin.
Qed.

Lemma addPatterns_unlinked ps : ∀ pats ac ac',
  ac_inv pats ac → unlinked (heap ac) → addPatterns ps ac = Ret ac' → unlinked (heap ac').
Proof.
  induction ps as [|p ps IH]; intros pats ac ac' Hinv Hun Hrun.
  - simpl in Hrun. by simplify_eq.
  - simpl in Hrun.
    destruct (addPattern_spec pats p ac Hinv) as (a1 & t & Ha1 & Hinv1 & _).
    rewrite Ha1 in Hrun. simpl in Hrun.
    eapply (IH _ a1); [done| |done].
    destruct (addPattern_links _ _ _ _ _ Hinv Ha1) as (Hlen & Hold & Hnew & _).
    intros a n Hn Ha0.
    destruct (decide (a < length (heap ac))) as [Hlt|Hge].
    + destruct (lookup_lt_is_Some_2 _ _ Hlt) as [n0 Hn0].
      destruct (Hold _ _ Hn0) as (n' & Hn' & Hf & Ho).
      assert (n' = n) as -> by congruence.
      destruct (Hun _ _ Hn0 Ha0). split; congruence.
    + apply (Hnew _ _ Hn). lia.
Qed.

Lemma out_chain_keep h h' :
  (∀ q n, h !! q = Some n → ∃ n', h' !! q = Some n' ∧ outputLink n' = outputLink n) →
  ∀ o l, out_chain h o l → out_chain h' o l.
Proof.
  intros Hk o l Hc. induction Hc as [|a n l Hn Hc IH]; [constructor|].
  destruct (Hk _ _ Hn) as (n' & Hn' & Ho). econstructor; [done|]. by rewrite Ho.
Qed.

(** A scan along child links that ends in a state without failure link. *)
Lemma search_loop_fault fuel h : 1 ≤ fuel →
  ∀ u cur t nt c rest i ms,
  (0 ≤ i)%Z → (i + Z.of_nat (length u) ≤ int_max)%Z →
  walk h cur u = Some t →
  (∀ v a, v ≠ [] → v `prefix_of` u → walk h cur v = Some a →
     ∃ l, out_chain h (Some a) l ∧ length l ≤ fuel) →
  t ≠ 0 → h !! t = Some nt → map_find c (children nt) = None → failureLink nt = None →
  search_loop fuel h 0 (u ++ c :: rest) i cur ms = Fault.
Proof.
  intros Hfuel. induction u as [|x u IH];
    intros cur t nt c rest i ms Hi Hmax Hw Hch Ht Hnt Hc Hf.
  - simpl in Hw. injection Hw as ->. simpl.
    replace (i <? 0)%Z with false by (symmetry; apply Z.ltb_ge; lia).
    unfold search_step.
    rewrite follow_failure_eq, decide_False by done.
    rewrite (load_Some _ _ _ Hnt). simpl. rewrite Hc.
    destruct fuel as [|fuel]; [lia|]. rewrite Hf. by destruct fuel.
  - rewrite walk_cons in Hw.
    destruct (h !! cur) as [n|] eqn:Hn; [|done].
    destruct (map_find x (children n)) as [y|] eqn:Hx; [|done].
    destruct (Hch [x] y) as (l & Hl & Hlen); [done|by exists u| |].
    { by rewrite walk_cons, Hn, Hx. }
    rewrite <- app_comm_cons.
    change (search_loop fuel h 0 (x :: u ++ c :: rest) i cur ms)
      with (if (i <? 0)%Z then Ret ms
            else '(next, ms') ← search_step fuel h 0 cur x i ms;
                 search_loop fuel h 0 (u ++ c :: rest) (to_int (i + 1)) next ms').
    replace (i <? 0)%Z with false by (symmetry; apply Z.ltb_ge; lia).
    assert (to_int (i + 1) = (i + 1)%Z) as ->.
    { unfold to_int, int_max in *. simpl in Hmax. rewrite Z.mod_small by lia. lia. }
    assert (search_step fuel h 0 cur x i ms = Ret (y, ms ++ emits h l i)) as ->.
    { unfold search_step. rewrite follow_failure_eq.
      destruct (decide (cur = 0)) as [->|Hne].
      - simpl. rewrite (load_Some _ _ _ Hn). simpl. rewrite Hx.
        by rewrite (collect_outputs_chain _ _ _ Hl).
      - rewrite (load_Some _ _ _ Hn). simpl. rewrite Hx. simpl.
        rewrite (load_Some _ _ _ Hn). simpl. rewrite Hx.
        by rewrite (collect_outputs_chain _ _ _ Hl). }
    simpl. eapply (IH y t nt); [lia|simpl in Hmax; lia|done| |done..].
    intros v a Hv Hpre Hwa. apply (Hch (x :: v) a); [done| |].
    + by apply prefix_cons.
    + by rewrite walk_cons, Hn, Hx.
Qed.

Lemma walk_prefix_Some h cur u t v :
  walk h cur u = Some t → v `prefix_of` u → is_Some (walk h cur v).
Proof.
  intros Hw [k ->]. rewrite walk_app in Hw. destruct (walk h cur v); [eauto|done].
Qed.

(** X3.  [search] before [buildFailureLinks] follows a null failure link:
    when the text starts with a non-empty prefix [u] of a pattern (of at
    most [int_max] symbols) followed by a symbol [c] such that [u ++ [c]] is
    the prefix of no pattern, the scan reaches the state of [u], finds no
    child for [c], takes the null [failureLink] of that state and
    dereferences it. *)
Theorem search_before_build_faults fuel (pats : list str) (u : str) (c : ascii) (rest : str) :
  1 ≤ fuel → (Z.of_nat (length u) ≤ int_max)%Z →
  u ≠ [] → pattern_prefix pats u → ¬ pattern_prefix pats (u ++ [c]) →
  (ac ← addPatterns pats AhoCorasick_new; search fuel ac (u ++ c :: rest)) = Fault.
Proof.
  intros Hfuel Hmax Hu Hin Hnot.
  destruct (addPatterns_new pats) as (ac & Hac & Hinv & _).
  rewrite Hac. simpl. unfold search. rewrite (inv_root _ _ Hinv).
  assert (unlinked (heap ac)) as Hun.
  { eapply (addPatterns_unlinked pats [] AhoCorasick_new); [apply new_inv| |done].
    intros a n Hn Ha. destruct a; [done|]. done. }
  pose proof (inv_wf _ _ Hinv) as Hwf. pose proof (inv_for _ _ Hinv) as Hfor.
  assert (in_trie (heap ac) u) as [t Ht].
  { apply (tf_words _ _ Hfor). by right. }
  destruct (label_is_Some _ Hwf _ _ Ht) as [nt Hnt].
  assert (t ≠ 0) as Ht0.
  { intros ->. by apply (label_root_inv _ Hwf) in Ht. }
  eapply (search_loop_fault fuel (heap ac) Hfuel u 0 t nt); [lia|lia|done| |done|done| |].
  - intros v a Hv Hpre Ha.
    destruct (label_is_Some _ Hwf a v Ha) as [na Hna].
    assert (a ≠ 0) as Ha0.
    { intros ->. by apply (label_root_inv _ Hwf) in Ha. }
    exists [a]. split; [|simpl; lia]. econstructor; [done|].
    destruct (Hun _ _ Hna Ha0) as [_ ->]. constructor.
  - destruct (map_find c (children nt)) as [y|] eqn:Hy; [|done].
    exfalso. apply Hnot.
    assert (in_trie (heap ac) (u ++ [c])) as Hi.
    { exists y. apply label_snoc. exists t. split; [done|]. by exists nt. }
    apply (tf_words _ _ Hfor) in Hi as [Hnil|Hp]; [|done].
    by destruct u.
  - by destruct (Hun _ _ Hnt Ht0).
Qed.

(** X4.  A pattern inserted after [buildFailureLinks] needs a new build:
    if the non-empty pattern [p] (of at most [int_max] symbols) is the prefix
    of no earlier pattern, then on any text that starts with [p] and goes
    on, [search] reaches the new state of [p], whose [failureLink] is still
    null, and dereferences it. *)
Theorem search_after_late_insertion_faults fuel (pats : list str) (p : str) (c : ascii)
    (rest : str) :
  trie_bound pats ≤ fuel → (Z.of_nat (length p) ≤ int_max)%Z →
  p ≠ [] → ¬ pattern_prefix pats p →
  (ac ← automaton fuel pats; '(_, ac') ← addPattern p ac; search fuel ac' (p ++ c :: rest))
  = Fault.
Proof.
  intros Hfuel Hmax Hp Hnot.
  destruct (automaton_spec fuel pats Hfuel) as (ac & Hac & Hb & Hlen).
  rewrite Hac. simpl.
  pose proof (built_ac_inv _ _ Hb) as Hinv.
  destruct (addPattern_spec pats p ac Hinv) as (ac' & t & Ha' & Hinv' & Ht).
  rewrite Ha'. simpl. unfold search. rewrite (inv_root _ _ Hinv').
  destruct (addPattern_links _ _ _ _ _ Hinv Ha') as (Hlen' & Hold & Hnew & Hlab & Hwords).
  pose proof (inv_wf _ _ Hinv') as Hwf'. pose proof (b_wf _ _ Hb) as Hwf.
  destruct (label_is_Some _ Hwf' _ _ Ht) as [nt Hnt].
  assert (¬ in_trie (heap ac) p) as Hnotin.
  { intros [Hnil|Hpp]%(tf_words _ _ (b_for _ _ Hb)); done. }
  assert (length (heap ac) ≤ t) as Htnew.
  { apply Nat.le_ngt. intros Hlt. destruct (wf_reach _ Hwf t Hlt) as [w Hw].
    pose proof (Hlab _ _ Hw) as Hw'.
    assert (w = p) as -> by by eapply (label_inj _ Hwf').
    apply Hnotin. by exists t. }
  assert (1 ≤ fuel) as Hfuel1 by (unfold trie_bound in Hfuel; lia).
  eapply (search_loop_fault fuel (heap ac') Hfuel1 p 0 t nt); [lia|lia|done| | |done| |].
  - intros v a Hv Hpre Ha.
    destruct (label_is_Some _ Hwf' a v Ha) as [na Hna].
    destruct (decide (a < length (heap ac))) as [Hlt|Hge].
    + destruct (wf_reach _ Hwf a Hlt) as [w Hw].
      destruct (label_is_Some _ Hwf _ _ Hw) as [n0 Hn0].
      destruct (out_chain_at _ Hwf (b_linked _ _ Hb) a w n0 Hw Hn0) as (l & Hl & _ & Hll & _).
      exists (a :: l). split; [|lia].
      eapply out_chain_keep; [|done].
      intros q n Hn. destruct (Hold _ _ Hn) as (n' & Hn' & _ & Ho). eauto.
    + exists [a]. split; [|simpl; lia]. econstructor; [done|].
      destruct (Hnew _ _ Hna) as [_ ->]; [lia|]. constructor.
  - intros ->. pose proof (wf_root _ Hwf). lia.
  - destruct (map_find c (children nt)) as [y|] eqn:Hy; [|done].
    exfalso.
    assert (in_trie (heap ac') (p ++ [c])) as Hi.
    { exists y. apply label_snoc. exists t. split; [done|]. by exists nt. }
    apply Hwords in Hi as [Hi|Hpre].
    + apply Hnotin. by eapply in_trie_app_l.
    + apply prefix_length in Hpre. rewrite length_app in Hpre. simpl in Hpre. lia.
  - destruct (Hnew _ _ Hnt Htnew) as [-> _]. done.
Qed.

Lemma search_before_build_faults_witness :
  (ac ← addPatterns [s "ab"] AhoCorasick_new; search 1 ac (s "a" ++ "a"%char :: s "b")) = Fault.
Proof.
  apply (search_before_build_faults 1 [s "ab"] (s "a") "a"%char (s "b")).
  - lia.
  - unfold int_max. simpl. lia.
  - done.
  - exists (s "ab"). split; [by left|by exists (s "b")].
  - intros (p & ->%list_elem_of_singleton & [k Hk]). vm_compute in Hk. congruence.
Defined.

Lemma search_after_late_insertion_faults_witness :
  (ac ← automaton 2 [s "a"]; '(_, ac') ← addPattern (s "b") ac;
   search 2 ac' (s "b" ++ "a"%char :: []))
  = Fault.
Proof.
  apply (search_after_late_insertion_faults 2 [s "a"] (s "b") "a"%char []).
  - unfold trie_bound. simpl. lia.
  - unfold int_max. simpl. lia.
  - done.
  - intros (p & ->%list_elem_of_singleton & [k Hk]). vm_compute in Hk. congruence.
Defined.

(** ** Scans of a text in parts *)

Lemma scanned_fun h T text r r' :
  trie_wf h → scanned h T text r → scanned h T text r' → r = r'.
Proof.
  intros Hwf Hs. revert r'. induction Hs as [T|T c text a v n l res Ha Hls Hn Hc Hd Hs IH];
    intros r' Hs'; inversion Hs' as [|T' c' text' a' v' n' l' res' Ha' Hls' Hn' Hc' Hd' Hs'']; subst.
  - done.
  - assert (v' = v) as -> by by eapply is_ls_det.
    assert (a' = a) as -> by by eapply label_fun.
    assert (n' = n) as -> by congruence.
    assert (l' = l) as -> by by eapply out_chain_fun.
    f_equal. by apply IH.
Qed.

Lemma scanned_app h : ∀ t1 T t2 res,
  scanned h T (t1 ++ t2) res →
  ∃ r1 r2, res = r1 ++ r2 ∧ scanned h T t1 r1 ∧ scanned h (T ++ t1) t2 r2.
Proof.
  induction t1 as [|c t1 IH]; intros T t2 res Hs.
  - exists [], res. rewrite app_nil_r. split_and!; [done|constructor|done].
  - simpl in Hs. inversion Hs as [|T' c' text' a v n l res' Ha Hls Hn Hc Hd Hs']; subst.
    destruct (IH _ _ _ Hs') as (r1 & r2 & -> & H1 & H2).
    exists (emits h (a :: l) (Z.of_nat (length T)) ++ r1), r2.
    split_and!; [by rewrite app_assoc|by econstructor|].
    by rewrite <- app_assoc in H2.
Qed.

(** X5.  [search] works from left to right: the matches of a text (of at
    most [int_max] symbols) are the matches of any prefix of it, followed by
    matches that end after the prefix; and these are what the loop of
    [search] pushes when it is resumed on the rest of the text from the node
    reached at the end of the prefix. *)
Theorem search_prefix_stable fuel (pats : list str) (t1 t2 : str) :
  trie_bound pats ≤ fuel → (Z.of_nat (length (t1 ++ t2)) ≤ int_max)%Z →
  ∃ ac a r1 r2,
    automaton fuel pats = Ret ac ∧
    search fuel ac t1 = Ret r1 ∧
    search fuel ac (t1 ++ t2) = Ret (r1 ++ r2) ∧
    (∀ x, x ∈ r2 → (Z.of_nat (length t1) ≤ x.2 < Z.of_nat (length t1 + length t2))%Z) ∧
    current_after fuel (heap ac) (root ac) t1 (root ac) = Ret a ∧
    search_loop fuel (heap ac) (root ac) t2 (Z.of_nat (length t1)) a [] = Ret r2.
Proof.
  intros Hfuel Htext.
  assert (Z.of_nat (length t1) ≤ int_max)%Z as Htext1 by (rewrite length_app in Htext; lia).
  destruct (run_spec fuel pats t1 Hfuel Htext1) as (ac & r1 & Ha & Hb & Hr1 & _ & Hs1).
  destruct (run_spec fuel pats (t1 ++ t2) Hfuel Htext) as (ac' & r & Ha' & _ & Hr & _ & Hs).
  assert (ac' = ac) as -> by congruence.
  destruct (automaton_spec fuel pats Hfuel) as (ac' & Ha'' & _ & Hlen).
  assert (ac' = ac) as -> by congruence.
  pose proof (b_wf _ _ Hb) as Hwf.
  destruct (scanned_app _ _ _ _ _ Hs) as (r1' & r2 & -> & Hs1' & Hs2).
  assert (r1' = r1) as -> by by eapply scanned_fun.
  destruct (current_after_spec _ Hwf (b_linked _ _ Hb) fuel t1 [] 0 [] (label_nil _))
    as (a & v & Hcur & Hv & Hls); [by apply is_ls_self; exists 0|done|].
  destruct (search_loop_spec _ Hwf (b_linked _ _ Hb) fuel t2 t1 a v [] Hv Hls Hlen)
    as (r2' & Hloop & Hs2'); [by rewrite <- length_app|].
  assert (r2' = r2) as -> by by eapply scanned_fun.
  exists ac, a, r1, r2. rewrite (b_root _ _ Hb). split_and!; [done..| |done|done].
  intros x Hx. apply (scanned_range _ _ _ _ _ Hs2 Hx).
Qed.

Lemma search_prefix_stable_witness :
  ∃ ac a r1 r2,
    automaton 13 [s "he"; s "she"; s "his"; s "hers"] = Ret ac ∧
    search 13 ac (s "ush") = Ret r1 ∧
    search 13 ac (s "ush" ++ s "ers") = Ret (r1 ++ r2) ∧
    (∀ x, x ∈ r2 →
       (Z.of_nat (length (s "ush")) ≤ x.2 < Z.of_nat (length (s "ush") + length (s "ers")))%Z) ∧
    current_after 13 (heap ac) (root ac) (s "ush") (root ac) = Ret a ∧
    search_loop 13 (heap ac) (root ac) (s "ers") (Z.of_nat (length (s "ush"))) a [] = Ret r2.
Proof.
  apply (search_prefix_stable 13 [s "he"; s "she"; s "his"; s "hers"] (s "ush") (s "ers")).
  - unfold trie_bound. simpl. lia.
  - unfold int_max. simpl. lia.
Defined.

(** ** The work of a scan *)

Lemma follow_failure_count_eq fuel (h : arena) r a c :
  follow_failure_count fuel h r (Some a) c =
  if decide (a = r) then Ret (a, 0)
  else node ← load h a;
       match map_find c (children node) with
       | Some _ => Ret (a, 0)
       | None => match fuel with
                 | 0 => OutOfFuel
                 | S fuel' =>
                     '(x, k) ← follow_failure_count fuel' h r (failureLink node) c;
                     Ret (x, S k)
                 end
       end.
Proof. by destruct fuel. Qed.

Lemma collect_outputs_count_chain h o l :
  out_chain h o l → ∀ fuel, length l ≤ fuel →
  collect_outputs_count fuel h o = Ret (length l).
Proof.
  induction 1 as [|a n l Hn _ IH]; intros fuel Hfuel.
  - by destruct fuel.
  - destruct fuel as [|fuel]; [simpl in Hfuel; lia|].
    simpl. rewrite (load_Some _ _ _ Hn). simpl. rewrite IH by (simpl in Hfuel; lia). done.
Qed.

Lemma descending_emits_length h w l i :
  descending h w l → length l ≤ length (emits h l i).
Proof.
  induction 1 as [|w a na v l Ha Hs Hl Hna Hne Hd IH]; [done|].
  rewrite emits_cons, length_app, length_fmap. unfold pats_at. rewrite Hna.
  destruct (patternIndices na); [done|]. simpl. lia.
Qed.

Section count_facts.
Context (h : arena) (Hwf : trie_wf h).
Context (Hlinked : ∀ p, p < length h → linked h p).

(** Each failure step leads to a strictly shorter prefix. *)
Lemma follow_failure_count_spec c fuel : ∀ x w,
  label h x w → length w ≤ fuel →
  ∃ y k u, follow_failure_count fuel h 0 (Some x) c = Ret (y, k) ∧
           follow_failure fuel h 0 (Some x) c = Ret y ∧
           label h y u ∧ length u + k ≤ length w.
Proof.
  induction fuel as [|fuel IH]; intros x w Hx Hfuel;
    rewrite follow_failure_count_eq, follow_failure_eq;
    destruct (label_is_Some h Hwf _ _ Hx) as [n Hn];
    (destruct (decide (x = 0)) as [->|Hx0];
     [ exists 0, 0, w; split_and!; [done..|lia]
     | rewrite (load_Some _ _ _ Hn); simpl ]).
  all: destruct (map_find c (children n)) as [z|] eqn:Hf;
         [exists x, 0, w; split_and!; [done..|lia]|].
  all: destruct (Hlinked x (label_lt h Hwf _ _ Hx))
         as (n' & w' & f & nf & u & Hn' & Hw' & Hfl & Hnf & Hu & Hcase);
       assert (n' = n) as -> by congruence;
       assert (w' = w) as -> by by eapply label_inj.
  all: destruct Hcase as [(-> & _)|((_ & Hlt & _) & _)];
         [ exfalso; apply Hx0; by eapply label_fun |].
  - lia.
  - rewrite Hfl. destruct (IH f u Hu) as (y & k & u' & Hc & Hy & Hu' & Hle); [lia|].
    exists y, (S k), u'. rewrite Hc, Hy. split_and!; [done..|lia].
Qed.

Lemma search_loop_count_spec fuel : ∀ text cur w i ms,
  label h cur w → length h ≤ fuel →
  (0 ≤ i)%Z → (i + Z.of_nat (length text) ≤ int_max)%Z →
  ∃ res f o,
    search_loop fuel h 0 text i cur ms = Ret (ms ++ res) ∧
    search_loop_count fuel h 0 text i cur = Ret (f, o) ∧
    f ≤ length w + length text ∧ length text ≤ o ≤ length text + length res.
Proof.
  induction text as [|c text IH]; intros cur w i ms Hw Hfuel Hi Hmax.
  - exists [], 0, 0. simpl. rewrite app_nil_r. split_and!; [done|done|lia..].
  - assert ((i <? 0)%Z = false) as Hpos by (apply Z.ltb_ge; lia).
    assert (to_int (i + 1) = (i + 1)%Z) as Hinc.
    { unfold to_int, int_max in *. simpl in Hmax. rewrite Z.mod_small by lia. lia. }
    pose proof (label_depth h Hwf _ _ Hw) as Hd. pose proof (label_lt h Hwf _ _ Hw) as Hlt.
    destruct (follow_failure_count_spec c fuel cur w Hw) as (y & k & u & Hc & Hy & Hu & Hle); [lia|].
    destruct (label_is_Some h Hwf _ _ Hu) as [ny Hny].
    set (next := match map_find c (children ny) with Some x => x | None => y end).
    assert (∃ v, label h next v ∧ length v ≤ S (length u)) as (v & Hv & Hvl).
    { unfold next. destruct (map_find c (children ny)) as [z|] eqn:Hz.
      - exists (u ++ [c]). split; [|rewrite length_app; simpl; lia].
        apply label_snoc. exists y. split; [done|]. by exists ny.
      - exists u. split; [done|lia]. }
    destruct (label_is_Some h Hwf _ _ Hv) as [nn Hnn].
    destruct (out_chain_at h Hwf Hlinked next v nn Hv Hnn) as (l & Hch & Hdesc & Hlen & _).
    destruct (IH next v (i + 1)%Z (ms ++ emits h (next :: l) i) Hv Hfuel)
      as (res & f & o & Hloop & Hcount & Hf & Ho); [lia|simpl in Hmax; lia|].
    exists (emits h (next :: l) i ++ res), (k + f), (length (next :: l) + o).
    split_and!.
    + simpl. rewrite Hpos, Hinc.
      unfold search_step. rewrite Hy. simpl. rewrite (load_Some _ _ _ Hny). simpl.
      fold next. rewrite (collect_outputs_chain h _ _ Hch) by lia. simpl.
      rewrite Hloop. by rewrite <- app_assoc.
    + change (search_loop_count fuel h 0 (c :: text) i cur) with
        (if (i <? 0)%Z then Ret (0, 0)
         else
           '(n, k) ← follow_failure_count fuel h 0 (Some cur) c;
           node ← load h n;
           let next := match map_find c (children node) with Some x => x | None => n end in
           o ← collect_outputs_count fuel h (Some next);
           '(ks, os) ← search_loop_count fuel h 0 text (to_int (i + 1)) next;
           Ret (k + ks, o + os)).
      rewrite Hpos, Hinc, Hc. simpl. rewrite (load_Some _ _ _ Hny). simpl. fold next.
      rewrite (collect_outputs_count_chain h _ _ Hch) by lia. simpl.
      rewrite Hcount. done.
    + simpl. lia.
    + simpl. lia.
    + pose proof (descending_emits_length h v l i Hdesc) as Hel.
      rewrite length_app, emits_cons, length_app. simpl. lia.
Qed.
End count_facts.

(** X6.  The work of [search] is linear in the text and the matches: over
    the whole scan of a text (of at most [int_max] symbols) the failure loop
    takes at most one step per symbol, and the output loop runs once per
    symbol plus at most once per match returned. *)
Theorem search_linear_work fuel (pats : list str) (text : str) :
  trie_bound pats ≤ fuel → (Z.of_nat (length text) ≤ int_max)%Z →
  ∃ ac res f o,
    automaton fuel pats = Ret ac ∧
    search fuel ac text = Ret res ∧
    search_count fuel ac text = Ret (f, o) ∧
    f ≤ length text ∧ length text ≤ o ≤ length text + length res.
Proof.
  intros Hfuel Htext.
  destruct (automaton_spec fuel pats Hfuel) as (ac & Hac & Hb & Hlen).
  destruct (search_loop_count_spec (heap ac) (b_wf _ _ Hb) (b_linked _ _ Hb) fuel
              text 0 [] 0%Z [] (label_nil _) Hlen)
    as (res & f & o & Hs & Hc & Hf & Ho); [lia|lia|].
  exists ac, res, f, o. unfold search, search_count. rewrite (b_root _ _ Hb).
  split_and!; [done..|simpl in Hf; lia|lia|lia].
Qed.

Lemma search_linear_work_witness :
  ∃ ac res f o,
    automaton 16 [s "a"; s "ab"; s "bab"; s "bc"; s "bca"; s "c"; s "caa"] = Ret ac ∧
    search 16 ac (s "abcabcabcabcaab") = Ret res ∧
    search_count 16 ac (s "abcabcabcabcaab") = Ret (f, o) ∧
    f ≤ length (s "abcabcabcabcaab") ∧
    length (s "abcabcabcabcaab") ≤ o ≤ length (s "abcabcabcabcaab") + length res.
Proof.
  apply (search_linear_work 16 [s "a"; s "ab"; s "bab"; s "bc"; s "bca"; s "c"; s "caa"]
           (s "abcabcabcabcaab")).
  - unfold trie_bound. simpl. lia.
  - unfold int_max. simpl. lia.
Defined.

(** ** Nodes allocated by an insertion *)

Lemma common_prefix_take u : ∀ v,
  common_prefix u v ≤ length u ∧ take (common_prefix u v) u `prefix_of` v.
Proof.
  induction u as [|a u IH]; intros [|b v]; simpl; try (split; [lia|apply prefix_nil]).
  destruct (decide (a = b)) as [->|Hne]; [|split; [lia|apply prefix_nil]].
  destruct (IH v) as [Hle Hpre]. split; [lia|]. simpl. by apply prefix_cons.
Qed.

Lemma common_prefix_max u : ∀ v w,
  w `prefix_of` u → w `prefix_of` v → length w ≤ common_prefix u v.
Proof.
  induction u as [|a u IH]; intros v w Hu Hv.
  - apply prefix_nil_inv in Hu as ->. simpl. lia.
  - destruct w as [|x w]; [simpl; lia|].
    destruct v as [|b v]; [by apply prefix_nil_not in Hv|].
    apply prefix_cons_inv_1 in Hu as Hxa. apply prefix_cons_inv_2 in Hu.
    apply prefix_cons_inv_1 in Hv as Hxb. apply prefix_cons_inv_2 in Hv.
    subst. simpl. rewrite decide_True by done. pose proof (IH v w Hu Hv). lia.
Qed.

Lemma shared_prefix_le p pats : shared_prefix p pats ≤ length p.
Proof.
  unfold shared_prefix. induction pats as [|q pats IH]; simpl; [lia|].
  pose proof (common_prefix_take p q) as [? _]. apply Nat.max_lub; [done|exact IH].
Qed.

Lemma shared_prefix_in p pats :
  shared_prefix p pats = 0 ∨ pattern_prefix pats (take (shared_prefix p pats) p).
Proof.
  destruct pats as [|q0 pats]; [by left|]. right.
  assert (shared_prefix p (q0 :: pats) ∈ common_prefix p <$> (q0 :: pats)) as Hin.
  { apply max_list_elem_of. done. }
  apply list_elem_of_fmap in Hin as (q & Hq & Hin).
  exists q. split; [done|]. rewrite Hq. apply common_prefix_take.
Qed.

Lemma shared_prefix_max p pats w :
  w `prefix_of` p → pattern_prefix pats w → length w ≤ shared_prefix p pats.
Proof.
  intros Hp (q & Hq & Hpre).
  etrans; [apply (common_prefix_max p q w Hp Hpre)|].
  apply max_list_elem_of_le. apply list_elem_of_fmap. by exists q.
Qed.

(** Below a fresh node every symbol of the pattern takes a new node. *)
Lemma add_walk_leaf rest : ∀ (h : arena) cur n h' t,
  h !! cur = Some n → children n = [] → add_walk h cur rest = Ret (h', t) →
  length h' = length h + length rest.
Proof.
  induction rest as [|ch rest IH]; intros h cur n h' t Hn Hc Hrun.
  - simpl in Hrun. injection Hrun as <- <-. simpl. lia.
  - simpl in Hrun. rewrite (load_Some _ _ _ Hn) in Hrun. simpl in Hrun.
    rewrite Hc in Hrun. simpl in Hrun.
    assert (cur < length h) as Hlt by by eapply lookup_lt_Some.
    eapply (IH _ _ TrieNode_new) in Hrun; [|..|done].
    + rewrite length_insert, length_app in Hrun. simpl in *. lia.
    + rewrite list_lookup_insert_ne by lia.
      rewrite lookup_app_r by lia. by rewrite Nat.sub_diag.
Qed.

(** [add_walk] allocates one node per symbol beyond the longest prefix it
    can follow. *)
Lemma add_walk_count p : ∀ (h : arena) cur k h' t,
  k ≤ length p → is_Some (walk h cur (take k p)) →
  (k < length p → walk h cur (take (S k) p) = None) →
  add_walk h cur p = Ret (h', t) →
  length h' = length h + (length p - k).
Proof.
  induction p as [|c p IH]; intros h cur k h' t Hk Hw Hnone Hrun.
  - simpl in *. injection Hrun as <- <-. lia.
  - simpl in Hrun. unfold load, deref in Hrun.
    destruct (h !! cur) as [n|] eqn:Hn; [|done]. simpl in Hrun.
    destruct (map_find c (children n)) as [next|] eqn:Hc.
    + destruct k as [|k].
      { specialize (Hnone ltac:(simpl; lia)). simpl in Hnone.
        by rewrite Hn, Hc in Hnone. }
      simpl in Hw. rewrite Hn, Hc in Hw.
      rewrite (IH h next k h' t); [simpl; lia|simpl in Hk; lia|done| |done].
      intros Hlt. specialize (Hnone ltac:(simpl; lia)).
      change (take (S (S k)) (c :: p)) with (c :: take (S k) p) in Hnone.
      by rewrite walk_cons, Hn, Hc in Hnone.
    + destruct k as [|k]; [|simpl in Hw; rewrite Hn, Hc in Hw; by destruct Hw].
      assert (cur < length h) as Hlt by by eapply lookup_lt_Some.
      eapply (add_walk_leaf _ _ _ TrieNode_new) in Hrun.
      * rewrite length_insert, length_app in Hrun. simpl in *. lia.
      * rewrite list_lookup_insert_ne by lia.
        rewrite lookup_app_r by lia. by rewrite Nat.sub_diag.
      * done.
Qed.

(** X7.  [addPattern] allocates exactly one node for each symbol of the
    pattern beyond its longest prefix shared with an earlier pattern, so none
    for a pattern that is a prefix of an earlier one; the trie of a pattern
    list has at most one node per symbol inserted, plus the root. *)
Theorem addPattern_allocation (pats : list str) (p : str) :
  ∃ ac ac',
    addPatterns pats AhoCorasick_new = Ret ac ∧
    addPattern p ac = Ret (tt, ac') ∧
    length (heap ac) ≤ trie_bound pats ∧
    length (heap ac') = length (heap ac) + (length p - shared_prefix p pats).
Proof.
  destruct (addPatterns_new pats) as (ac & Hac & Hinv & Hlen).
  destruct (addPattern_spec pats p ac Hinv) as (ac' & t & Ha' & Hinv' & Ht).
  exists ac, ac'. split_and!; [done..|].
  pose proof (inv_for _ _ Hinv) as Hfor.
  unfold addPattern in Ha'. rewrite (inv_root _ _ Hinv) in Ha'.
  destruct (add_walk (heap ac) 0 p) as [[h1 t1]| |] eqn:Hw; [|done..].
  simpl in Ha'. unfold load, deref in Ha'.
  destruct (h1 !! t1) as [n1|]; [|done]. simpl in Ha'. injection Ha' as <-. simpl.
  rewrite length_insert.
  pose proof (shared_prefix_le p pats) as Hle.
  apply (add_walk_count p (heap ac) 0 (shared_prefix p pats) h1 t1); [done| | |done].
  - apply (tf_words _ _ Hfor).
    destruct (shared_prefix_in p pats) as [->|Hin]; [by left|by right].
  - intros Hlt.
    destruct (walk (heap ac) 0 (take (S (shared_prefix p pats)) p)) as [q|] eqn:Hq; [|done].
    exfalso.
    assert (in_trie (heap ac) (take (S (shared_prefix p pats)) p)) as Hi by by exists q.
    apply (tf_words _ _ Hfor) in Hi as [Hnil|Hpp].
    + apply (f_equal length) in Hnil. rewrite length_take in Hnil. change (length (@nil ascii)) with 0 in Hnil. lia.
    + apply (shared_prefix_max p) in Hpp; [|apply prefix_take].
      rewrite length_take in Hpp. lia.
Qed.

(** ** More patterns, longer texts *)

Lemma occurs_at_app_r p t1 t2 j :
  occurs_at p t2 j → occurs_at p (t1 ++ t2) (Z.of_nat (length t1) + j).
Proof.
  intros (Hj & Hlen & Htake). unfold occurs_at. rewrite length_app. split_and!; [lia..|].
  replace (S (Z.to_nat (Z.of_nat (length t1) + j)) - length p)
    with (length t1 + (S (Z.to_nat j) - length p)) by lia.
  by rewrite drop_app_add.
Qed.

Lemma occurs_at_app_l p t1 t2 j :
  occurs_at p t1 j → occurs_at p (t1 ++ t2) j.
Proof.
  intros (Hj & Hlen & Htake). unfold occurs_at. rewrite length_app. split_and!; [lia..|].
  rewrite drop_app_le by lia. rewrite take_app_le; [done|]. rewrite length_drop. lia.
Qed.

(** X8.  [buildFailureLinks] writes links only: it allocates no node and
    leaves the root, the pattern list and the child map and pattern indices
    of every node as the insertions made them. *)
Theorem build_changes_links_only fuel (pats : list str) :
  trie_bound pats ≤ fuel →
  ∃ ac ac',
    addPatterns pats AhoCorasick_new = Ret ac ∧
    buildFailureLinks fuel ac = Ret (tt, ac') ∧
    root ac' = root ac ∧ patterns ac' = patterns ac ∧
    length (heap ac') = length (heap ac) ∧
    ∀ a n, heap ac !! a = Some n →
      ∃ n', heap ac' !! a = Some n' ∧ children n' = children n ∧
            patternIndices n' = patternIndices n.
Proof.
  intros Hfuel.
  destruct (addPatterns_new pats) as (ac & Hac & Hinv & Hlen).
  destruct (buildFailureLinks_spec fuel pats ac Hinv) as (ac' & Hb & Hbuilt & Hst); [lia|].
  destruct (buildFailureLinks_patterns _ _ _ _ Hb) as [Hp Hr].
  exists ac, ac'. split_and!; [done..| |].
  - symmetry. apply same_shape_length, Hst.
  - intros a n Hn. by apply (same_trie_lookup (heap ac)).
Qed.

Lemma build_changes_links_only_witness :
  ∃ ac ac',
    addPatterns [s "he"; s "she"] AhoCorasick_new = Ret ac ∧
    buildFailureLinks 6 ac = Ret (tt, ac') ∧
    root ac' = root ac ∧ patterns ac' = patterns ac ∧
    length (heap ac') = length (heap ac) ∧
    ∀ a n, heap ac !! a = Some n →
      ∃ n', heap ac' !! a = Some n' ∧ children n' = children n ∧
            patternIndices n' = patternIndices n.
Proof.
  apply (build_changes_links_only 6 [s "he"; s "she"]).
  unfold trie_bound. simpl. lia.
Defined.

(** X10.  Further patterns take no match away from a non-empty pattern:
    with more patterns inserted after it, every match of a non-empty pattern
    is still returned, under the same index and at the same position (for at
    most [int_max] patterns and symbols of text). *)
Theorem more_patterns_keep_matches fuel (pats more : list str) (text : str) :
  trie_bound (pats ++ more) ≤ fuel → (Z.of_nat (length (pats ++ more)) ≤ int_max)%Z →
  (Z.of_nat (length text) ≤ int_max)%Z →
  ∃ res res',
    run fuel pats text = Ret res ∧
    run fuel (pats ++ more) text = Ret res' ∧
    ∀ i p j, pats !! i = Some p → p ≠ [] →
      (Z.of_nat i, j) ∈ res → (Z.of_nat i, j) ∈ res'.
Proof.
  intros Hfuel Hfit Htext.
  assert (trie_bound pats ≤ fuel) as Hfuel1.
  { unfold trie_bound in *. rewrite total_length_app in Hfuel. lia. }
  assert (Z.of_nat (length pats) ≤ int_max)%Z as Hfit1.
  { rewrite length_app in Hfit. lia. }
  destruct (run_spec fuel pats text Hfuel1 Htext) as (ac & res & _ & Hb & _ & Hr & Hs).
  destruct (run_spec fuel (pats ++ more) text Hfuel Htext)
    as (ac' & res' & _ & Hb' & _ & Hr' & Hs').
  exists res, res'. split_and!; [done..|].
  intros i p j Hp Hne Hin.
  destruct (match_sound pats ac Hb text res Hs _ _ Hin) as (i' & p' & Hi & Hp' & Ho).
  rewrite <- (index_small pats Hfit1 i p Hp) in Hi.
  pose proof (index_inj pats Hfit1 _ _ _ _ Hp Hp' Hi) as <-.
  assert (p' = p) as -> by congruence.
  assert ((pats ++ more) !! i = Some p) as Hp2 by by apply lookup_app_l_Some.
  rewrite <- (index_small (pats ++ more) Hfit i p Hp2).
  by apply (match_complete (pats ++ more) ac' Hb' text res' Hs' i p j).
Qed.

Lemma more_patterns_keep_matches_witness :
  ∃ res res',
    run 6 [s "he"] (s "she") = Ret res ∧
    run 6 ([s "he"] ++ [s "she"]) (s "she") = Ret res' ∧
    ∀ i p j, [s "he"] !! i = Some p → p ≠ [] →
      (Z.of_nat i, j) ∈ res → (Z.of_nat i, j) ∈ res'.
Proof.
  apply (more_patterns_keep_matches 6 [s "he"] [s "she"] (s "she")).
  - unfold trie_bound. simpl. lia.
  - unfold int_max. simpl. lia.
  - unfold int_max. simpl. lia.
Defined.

(** X11.  A match does not depend on what surrounds it: when a text is
    extended on the left and on the right (to at most [int_max] symbols),
    every match of a non-empty pattern is returned again, its end position
    moved by the length of the left extension. *)
Theorem longer_text_keeps_matches fuel (pats : list str) (before text after : str) :
  trie_bound pats ≤ fuel → (Z.of_nat (length pats) ≤ int_max)%Z →
  (Z.of_nat (length (before ++ text ++ after)) ≤ int_max)%Z →
  ∃ res res',
    run fuel pats text = Ret res ∧
    run fuel pats (before ++ text ++ after) = Ret res' ∧
    ∀ i p j, pats !! i = Some p → p ≠ [] →
      (Z.of_nat i, j) ∈ res → (Z.of_nat i, (Z.of_nat (length before) + j)%Z) ∈ res'.
Proof.
  intros Hfuel Hfit Htext.
  assert (Z.of_nat (length text) ≤ int_max)%Z as Htext1.
  { rewrite !length_app in Htext. lia. }
  destruct (run_spec fuel pats text Hfuel Htext1) as (ac & res & _ & Hb & _ & Hr & Hs).
  destruct (run_spec fuel pats (before ++ text ++ after) Hfuel Htext)
    as (ac' & res' & _ & Hb' & _ & Hr' & Hs').
  exists res, res'. split_and!; [done..|].
  intros i p j Hp Hne Hin.
  destruct (match_sound pats ac Hb text res Hs _ _ Hin) as (i' & p' & Hi & Hp' & Ho).
  rewrite <- (index_small pats Hfit i p Hp) in Hi.
  pose proof (index_inj pats Hfit _ _ _ _ Hp Hp' Hi) as <-.
  assert (p' = p) as -> by congruence.
  rewrite <- (index_small pats Hfit i p Hp).
  apply (match_complete pats ac' Hb' _ res' Hs' i p); [done..|].
  apply occurs_at_app_r. by apply occurs_at_app_l.
Qed.

Lemma longer_text_keeps_matches_witness :
  ∃ res res',
    run 4 [s "aba"] (s "aba") = Ret res ∧
    run 4 [s "aba"] (s "xab" ++ s "aba" ++ s "x") = Ret res' ∧
    ∀ i p j, [s "aba"] !! i = Some p → p ≠ [] →
      (Z.of_nat i, j) ∈ res →
      (Z.of_nat i, (Z.of_nat (length (s "xab")) + j)%Z) ∈ res'.
Proof.
  apply (longer_text_keeps_matches 4 [s "aba"] (s "xab") (s "aba") (s "x")).
  - unfold trie_bound. simpl. lia.
  - unfold int_max. simpl. lia.
  - unfold int_max. simpl. lia.
Defined.

(** ** The test driver and the sample *)

Lemma key_le_spec a b :
  key_le a b ↔ (a.2 < b.2)%Z ∨ (a.2 = b.2 ∧ (a.1 ≤ b.1)%Z).
Proof.
  unfold key_le, sort_key. destruct a as [a1 a2], b as [b1 b2]. simpl.
  destruct (decide (b2 ≠ a2)) as [Hne|Heq%dec_stable].
  - rewrite Z.ltb_ge. lia.
  - rewrite Z.ltb_ge. lia.
Qed.

#[local] Instance key_le_trans : Transitive key_le.
Proof. intros a b c. rewrite !key_le_spec. lia. Qed.

#[local] Instance key_le_antisymm : AntiSymm (=) key_le.
Proof.
  intros [a1 a2] [b1 b2]. rewrite !key_le_spec. simpl. intros H1 H2. f_equal; lia.
Qed.

Lemma sort_insert_perm x l : sort_insert sort_key x l ≡ₚ x :: l.
Proof.
  induction l as [|y l IH]; [done|]. simpl.
  destruct (sort_key x y); [done|]. rewrite IH. apply perm_swap.
Qed.

Lemma std_sort_perm l : std_sort sort_key l ≡ₚ l.
Proof.
  induction l as [|x l IH]; [done|]. simpl.
  rewrite sort_insert_perm. by rewrite IH.
Qed.

Lemma sort_insert_sorted x l :
  Sorted key_le l → Sorted key_le (sort_insert sort_key x l).
Proof.
  induction l as [|y l IH]; intros Hs; simpl.
  - repeat constructor.
  - destruct (sort_key x y) eqn:Hxy.
    + constructor; [done|]. constructor. apply key_le_spec.
      unfold sort_key in Hxy. destruct x as [x1 x2], y as [y1 y2]. simpl in *.
      destruct (decide (x2 ≠ y2)); [apply Z.ltb_lt in Hxy; lia|].
      apply Z.ltb_lt in Hxy. lia.
    + apply Sorted_inv in Hs as [Hs Hhd]. constructor; [by apply IH|].
      destruct l as [|z l]; simpl.
      * constructor. exact Hxy.
      * destruct (sort_key x z); constructor; [exact Hxy|]. by apply HdRel_inv in Hhd.
Qed.

Lemma std_sort_sorted l : Sorted key_le (std_sort sort_key l).
Proof.
  induction l as [|x l IH]; [constructor|]. simpl. by apply sort_insert_sorted.
Qed.

Lemma std_sort_eq_perm l k : std_sort sort_key l = std_sort sort_key k ↔ l ≡ₚ k.
Proof.
  split.
  - intros Heq. rewrite <- (std_sort_perm l), Heq. apply std_sort_perm.
  - intros Hp. apply (Sorted_unique key_le); [apply std_sort_sorted..|].
    by rewrite !std_sort_perm.
Qed.

(** X12.  [runTest] compares the matches as multisets: the condition it
    asserts holds exactly when the expected matches are a permutation of the
    matches [search] returns, whatever the order in which they are listed. *)
Theorem runTest_accepts_permutations fuel (pats : list str) (text : str)
    (expected : list (Z * Z)) :
  trie_bound pats ≤ fuel →
  ∃ actual verdict,
    run fuel pats text = Ret actual ∧
    runTest fuel pats text expected = Ret verdict ∧
    (verdict = true ↔ expected ≡ₚ actual).
Proof.
  intros Hfuel.
  destruct (automaton_spec fuel pats Hfuel) as (ac & Ha & Hb & Hlen).
  destruct (search_returns fuel pats ac text Hb Hlen) as (res & Hs & _).
  exists res. eexists. split; [unfold run; rewrite Ha; simpl; exact Hs|].
  unfold runTest. unfold automaton in Ha.
  destruct (addPatterns pats AhoCorasick_new) as [a0| |]; [|done..]. simpl in *.
  destruct (buildFailureLinks fuel a0) as [[[] a1]| |]; [|done..]. simpl in *.
  injection Ha as ->. rewrite Hs. simpl. split; [done|].
  rewrite bool_decide_eq_true, std_sort_eq_perm. done.
Qed.

Lemma runTest_accepts_permutations_witness :
  ∃ actual verdict,
    run 7 [s "a"; s "ba"; s "cba"] (s "dcba") = Ret actual ∧
    runTest 7 [s "a"; s "ba"; s "cba"] (s "dcba") [(0, 3); (1, 3); (2, 3)]%Z = Ret verdict ∧
    (verdict = true ↔ [(0, 3); (1, 3); (2, 3)]%Z ≡ₚ actual).
Proof.
  apply (runTest_accepts_permutations 7 [s "a"; s "ba"; s "cba"] (s "dcba")).
  unfold trie_bound. simpl. lia.
Defined.

Lemma startPosition_exact j (p : str) :
  (0 ≤ j)%Z → (Z.of_nat (length p) ≤ j + 1)%Z → (j < int_max)%Z →
  startPosition j p = (j - Z.of_nat (length p) + 1)%Z.
Proof.
  intros Hj Hp Hmax. unfold startPosition, to_size, to_int, int_max in *.
  rewrite (Z.mod_small j) by lia.
  destruct (decide (Z.of_nat (length p) = j + 1)%Z) as [Heq|Hne].
  - rewrite Heq. replace (j - (j + 1))%Z with (-1)%Z by lia.
    change ((-1) mod 18446744073709551616)%Z with 18446744073709551615%Z.
    change ((18446744073709551615 + 1) mod 18446744073709551616)%Z with 0%Z.
    change ((0 + 2147483648) mod 4294967296 - 2147483648)%Z with 0%Z. lia.
  - rewrite (Z.mod_small (j - _)) by lia.
    rewrite (Z.mod_small (j - _ + 1)) by lia.
    rewrite Z.mod_small by lia. lia.
Qed.

Lemma list_product_bound (res : list (Z * Z)) (n m : nat) :
  NoDup res →
  (∀ x, x ∈ res → ∃ i j, i < n ∧ j < m ∧ x = (Z.of_nat i, Z.of_nat j)) →
  length res ≤ n * m.
Proof.
  intros Hnd Hin.
  set (grid := cprod (Z.of_nat <$> seq 0 n) (Z.of_nat <$> seq 0 m)).
  assert (length grid = n * m) as <-.
  { unfold grid. rewrite list_cprod_list_prod, List.length_prod, !length_fmap, !length_seq. done. }
  apply submseteq_length, NoDup_submseteq; [done|].
  intros x (i & j & Hi & Hj & ->)%Hin. apply list_elem_of_cprod. simpl.
  split; apply list_elem_of_fmap; eexists; (split; [done|]); apply elem_of_seq; lia.
Qed.

(** X9.  [search] returns at most one pair per pattern and text position:
    the result is no longer than the number of patterns times the length of
    the text (both at most [int_max]). *)
Theorem search_result_size fuel (pats : list str) (text : str) :
  trie_bound pats ≤ fuel → (Z.of_nat (length pats) ≤ int_max)%Z →
  (Z.of_nat (length text) ≤ int_max)%Z →
  ∃ res, run fuel pats text = Ret res ∧ length res ≤ length pats * length text.
Proof.
  intros Hfuel Hfit Htext.
  destruct (run_spec fuel pats text Hfuel Htext) as (ac & res & Ha & Hb & _ & Hr & Hs).
  exists res. split; [done|].
  apply list_product_bound; [by eapply scanned_NoDup|].
  intros [k j] Hx.
  destruct (match_sound pats ac Hb text res Hs k j Hx) as (i & p & -> & Hp & Ho).
  exists i, (Z.to_nat j). destruct Ho as (Hj & _). split_and!.
  - by eapply lookup_lt_Some.
  - lia.
  - rewrite (index_small pats Hfit i p Hp). f_equal. lia.
Qed.

(** X13.  The span [runAhoCorasickSample] prints for a match is the
    occurrence: for every pair [search] returns, [getPattern] gives the
    pattern inserted under that index, the start position computed from the
    end position and the pattern length is [end - length + 1] without
    wrap-around, lies between 0 and [end + 1], and the text from start to end
    is the pattern. *)
Theorem sample_spans_are_occurrences fuel (pats : list str) (text : str) :
  trie_bound pats ≤ fuel → (Z.of_nat (length pats) ≤ int_max)%Z →
  (Z.of_nat (length text) ≤ int_max)%Z →
  ∃ ac res,
    automaton fuel pats = Ret ac ∧ search fuel ac text = Ret res ∧
    length (sample_spans ac res) = length res ∧
    ∀ p k a b, (p, k, (a, b)) ∈ sample_spans ac res →
      (k, b) ∈ res ∧ pats !! Z.to_nat k = Some p ∧
      a = (b - Z.of_nat (length p) + 1)%Z ∧ (0 ≤ a ≤ b + 1)%Z ∧
      (b < Z.of_nat (length text))%Z ∧
      take (length p) (drop (Z.to_nat a) text) = p.
Proof.
  intros Hfuel Hfit Htext.
  destruct (run_spec fuel pats text Hfuel Htext) as (ac & res & Ha & Hb & Hsr & _ & Hs).
  exists ac, res. split_and!; [done..|apply length_fmap|].
  intros p k a b ([k' j] & Heq & Hx)%list_elem_of_fmap. simpl in Heq.
  injection Heq as -> -> -> ->.
  destruct (match_sound pats ac Hb text res Hs k' j Hx) as (i & q & -> & Hq & Ho).
  rewrite (getPattern_index pats ac Hb Hfit i q Hq).
  rewrite (index_small pats Hfit i q Hq), Nat2Z.id.
  destruct Ho as (Hj & Hlen & Htake).
  rewrite startPosition_exact by lia.
  split_and!; [by rewrite <- (index_small pats Hfit i q Hq)|done|done|lia|lia|lia|].
  rewrite <- Htake at 3. do 2 f_equal. lia.
Qed.

Lemma search_result_size_witness :
  ∃ res, run 4 [s "aba"] (s "ababaxaba") = Ret res ∧
         length res ≤ length [s "aba"] * length (s "ababaxaba").
Proof.
  apply (search_result_size 4 [s "aba"] (s "ababaxaba")).
  - unfold trie_bound. simpl. lia.
  - unfold int_max. simpl. lia.
  - unfold int_max. simpl. lia.
Defined.

Lemma sample_spans_are_occurrences_witness :
  ∃ ac res,
    automaton 13 [s "he"; s "she"; s "his"; s "hers"] = Ret ac ∧
    search 13 ac (s "ushers") = Ret res ∧
    length (sample_spans ac res) = length res ∧
    ∀ p k a b, (p, k, (a, b)) ∈ sample_spans ac res →
      (k, b) ∈ res ∧ [s "he"; s "she"; s "his"; s "hers"] !! Z.to_nat k = Some p ∧
      a = (b - Z.of_nat (length p) + 1)%Z ∧ (0 ≤ a ≤ b + 1)%Z ∧
      (b < Z.of_nat (length (s "ushers")))%Z ∧
      take (length p) (drop (Z.to_nat a) (s "ushers")) = p.
Proof.
  apply (sample_spans_are_occurrences 13 [s "he"; s "she"; s "his"; s "hers"] (s "ushers")).
  - unfold trie_bound. simpl. lia.
  - unfold int_max. simpl. lia.
  - unfold int_max. simpl. lia.
Defined.
